(** * syncbox: packet framing, stream serializer, message envelope, logger

    A shallow embedding of [logger.go] (package [syncbox]): the fixed
    1032-byte [Packet] record and its 4-byte little-endian address fields,
    [Serialize] / [Deserialize], the [Request] / [Response] envelopes with
    their JSON text encoding and their [String] methods, the protocol
    constants, and the leveled [Logger].

    Conventions of the embedding.
    - A Go [byte] is a [Byte.byte]; [[]byte], [[n]byte] and [string] are
      [list byte].  The length a Go array type fixes is carried by
      [packet_typed].
    - A Go [int] is a [Z] (64-bit target); [uint32 x] writes out the
      wrap-around of the conversion [uint32(x)].
    - A [float64] is the rational it denotes; [float64_of_int] rounds to a
      53-bit significand as the conversion [float64(n)] does.
    - A Go function returning [(T, error)] returns [result T]; a method
      mutating its receiver returns the updated receiver.  A slice
      expression with run-time bounds is fallible ([PanicSliceBounds]).
    - Calls into Go's standard library are embedded with the library's
      behaviour on the types the program passes to them. *)

From Stdlib Require Import String Ascii ZArith QArith Qround Lia Bool List.
From Stdlib Require DecimalPos DecimalN DecimalZ.
From coqutil Require Import Byte Word.LittleEndianList Z.bitblast Z.BitOps.
Import ListNotations.

Local Open Scope Z_scope.

(** ** Errors and the error monad *)

(** Modelled from the spec: [ErrorExceedsAddrLength], which [SetSize] and
    [SetSequence] return and another file of the package declares, is the
    spec's [AddressOverflow] error.  [EOF] and [ErrUnexpectedEOF] are the
    errors of [io.ReadFull], which [binary.Read] passes on;
    [PanicSliceBounds] is the run-time panic of a slice expression out of
    range.  [SyntaxError], [UnmarshalTypeError] and [CorruptInputError] are
    the errors of [json.Unmarshal] ([*json.SyntaxError],
    [*json.UnmarshalTypeError], [base64.CorruptInputError]).
    [UnsupportedValue] marks a JSON text the embedding of [encoding/json]
    does not cover: an array or an object as the value of a member. *)
Inductive error : Set :=
| ErrorExceedsAddrLength
| EOF
| ErrUnexpectedEOF
| PanicSliceBounds
| SyntaxError
| UnmarshalTypeError
| CorruptInputError
| UnsupportedValue.

Inductive result (A : Type) : Type :=
| Ok (a : A)
| Err (e : error).

Arguments Ok {A} a.
Arguments Err {A} e.

Definition bind {A B : Type} (m : result A) (k : A -> result B) : result B :=
  match m with
  | Ok a => k a
  | Err e => Err e
  end.

Notation "x <- m ;; k" := (bind m (fun x => k))
  (at level 61, m at next level, right associativity).

(** ** Go primitives *)

Definition len {A : Type} (s : list A) : Z := Z.of_nat (length s).

(** [make([]byte, n)] and [var a [n]byte]: n zero bytes. *)
Definition zeros (n : nat) : list byte := repeat Byte.x00 n.

(** [copy(dst, src)]: the first [min(len(dst), len(src))] elements of [dst]
    are overwritten; the result is the new content of [dst]. *)
Definition copy {A : Type} (dst src : list A) : list A :=
  firstn (length dst) src ++ skipn (length src) dst.

(** [a[lo:hi]] where the bounds are constants checked at compile time. *)
Definition sub {A : Type} (a : list A) (lo hi : nat) : list A :=
  firstn (hi - lo) (skipn lo a).

(** The content of [a] after [a[lo:hi]] has been given the content [s]. *)
Definition set_sub {A : Type} (a : list A) (lo hi : nat) (s : list A) : list A :=
  firstn lo a ++ s ++ skipn hi a.

(** [copy(a[lo:hi], src)] on a fixed array. *)
Definition copy_sub {A : Type} (a : list A) (lo hi : nat) (src : list A) : list A :=
  set_sub a lo hi (copy (sub a lo hi) src).

(** [a[lo:hi]] with bounds computed at run time: panics unless
    [0 <= lo <= hi <= len(a)]. *)
Definition slice {A : Type} (a : list A) (lo hi : Z) : result (list A) :=
  if (0 <=? lo) && (lo <=? hi) && (hi <=? len a)
  then Ok (sub a (Z.to_nat lo) (Z.to_nat hi))
  else Err PanicSliceBounds.

(** [copy(a[lo:hi], src)] with run-time bounds. *)
Definition copy_slice {A : Type} (a : list A) (lo hi : Z) (src : list A)
  : result (list A) :=
  dst <- slice a lo hi ;;
  Ok (set_sub a (Z.to_nat lo) (Z.to_nat hi) (copy dst src)).

(** The conversion [uint32(x)]. *)
Definition uint32 (x : Z) : Z := x mod 2 ^ 32.

(** The conversion [int(num)] of a [uint32] on a 64-bit target. *)
Definition int_of_uint32 (num : Z) : Z := num.

(** *** float64

    Only the values [float64(n)], their quotient by 1024 and its ceiling
    arise; each is a rational that [float64] holds exactly once
    [float64(n)] has been rounded. *)
Definition float64 : Type := Q.

(** [float64(n)]: round to nearest, ties to even, on a 53-bit significand. *)
Definition round53 (n : Z) : Z :=
  let a := Z.abs n in
  if a <? 2 ^ 53 then n
  else
    let e := Z.log2 a - 52 in
    let q := a / 2 ^ e in
    let r := a mod 2 ^ e in
    let half := 2 ^ (e - 1) in
    let q' := if (half <? r) || ((r =? half) && Z.odd q) then q + 1 else q in
    Z.sgn n * (q' * 2 ^ e).

Definition float64_of_int (n : Z) : float64 := inject_Z (round53 n).

Definition math_Ceil (x : float64) : float64 := inject_Z (Qceiling x).

(** [int(x)]: truncation toward zero. *)
Definition int_of_float64 (x : float64) : Z :=
  if Qle_bool 0 x then Qfloor x else Qceiling x.

(** *** encoding/binary, little endian *)

(** [binary.LittleEndian.PutUint32]. *)
Definition PutUint32 (v : Z) : list byte :=
  [ byte.of_Z v;
    byte.of_Z (Z.shiftr v 8);
    byte.of_Z (Z.shiftr v 16);
    byte.of_Z (Z.shiftr v 24) ].

(** [binary.LittleEndian.Uint32]. *)
Definition Uint32 (b0 b1 b2 b3 : byte) : Z :=
  Z.lor (Z.lor (Z.lor (byte.unsigned b0)
                      (Z.shiftl (byte.unsigned b1) 8))
               (Z.shiftl (byte.unsigned b2) 16))
        (Z.shiftl (byte.unsigned b3) 24).

(** [binary.Write(buf, binary.LittleEndian, num)] for a [uint32] and a
    [bytes.Buffer]: four bytes are appended; the buffer never refuses. *)
Definition binary_Write (buf : list byte) (num : Z) : result (list byte) :=
  Ok (buf ++ PutUint32 num).

(** [binary.Read(buf, binary.LittleEndian, &num)] for a [uint32] and a
    [bytes.Reader]: [io.ReadFull] of four bytes, then [Uint32]. *)
Definition binary_Read (bin : list byte) : result Z :=
  match bin with
  | [] => Err EOF
  | b0 :: b1 :: b2 :: b3 :: _ => Ok (Uint32 b0 b1 b2 b3)
  | _ => Err ErrUnexpectedEOF
  end.

(** ** Protocol constants *)

Definition RequestPrefix : Z := Z.of_nat (nat_of_ascii "q"%char).
Definition ResponsePrefix : Z := Z.of_nat (nat_of_ascii "s"%char).

Definition PacketDataSize : nat := 1024.
Definition PacketAddrSize : nat := 4.
Definition PacketTotalSize : nat := 1032.

Definition ByteDelim : byte := byte.of_Z 4.
Definition StringDelim : string := string_of_list_byte [ByteDelim].

Definition TypeIdentity : string := "IDENTITY".
Definition TypeDigest : string := "DIGEST".
Definition TypeSyncRequest : string := "SYNC-REQUEST".
Definition TypeFile : string := "FILE".

Definition StatusOK : Z := 200.
Definition StatusBad : Z := 400.

Definition MessageAccept : string := "ACCEPT".
Definition MessageDeny : string := "DENY".

Definition SyncboxServerUsernam : string := "SYNCBOX-SERVER".

(** ** Packet *)

Record Packet : Type := mkPacket {
  Size : list byte;
  Sequence : list byte;
  Data : list byte
}.

(** The array lengths of the Go type: [[4]byte], [[4]byte], [[1024]byte]. *)
Definition packet_typed (p : Packet) : Prop :=
  length (Size p) = PacketAddrSize /\
  length (Sequence p) = PacketAddrSize /\
  length (Data p) = PacketDataSize.

Definition intToBinary (num : Z) : result (list byte) :=
  buf <- binary_Write [] num ;;
  Ok buf.

Definition binaryToInt (bin : list byte) : result Z :=
  num <- binary_Read bin ;;
  Ok num.

Definition SetSize (packet : Packet) (size : Z) : result Packet :=
  bytes <- intToBinary (uint32 size) ;;
  if Z.of_nat PacketAddrSize <? len bytes then Err ErrorExceedsAddrLength
  else Ok (mkPacket (copy (Size packet) bytes) (Sequence packet) (Data packet)).

Definition GetSize (packet : Packet) : result Z :=
  num <- binaryToInt (Size packet) ;;
  Ok (int_of_uint32 num).

Definition SetSequence (packet : Packet) (sequence : Z) : result Packet :=
  bytes <- intToBinary (uint32 sequence) ;;
  if Z.of_nat PacketAddrSize <? len bytes then Err ErrorExceedsAddrLength
  else Ok (mkPacket (Size packet) (copy (Sequence packet) bytes) (Data packet)).

Definition GetSequence (packet : Packet) : result Z :=
  num <- binaryToInt (Sequence packet) ;;
  Ok (int_of_uint32 num).

(** [&Packet{Data: data}] leaves [Size] and [Sequence] zeroed. *)
Definition NewPacket (size sequence : Z) (data : list byte) : result Packet :=
  let packet := mkPacket (zeros PacketAddrSize) (zeros PacketAddrSize) data in
  packet <- SetSize packet size ;;
  packet <- SetSequence packet sequence ;;
  Ok packet.

Definition ToBytes (packet : Packet) : list byte :=
  let bytes := zeros PacketTotalSize in
  let bytes := copy_sub bytes 0 PacketAddrSize (Size packet) in
  let bytes := copy_sub bytes PacketAddrSize (2 * PacketAddrSize) (Sequence packet) in
  let bytes := copy_sub bytes (2 * PacketAddrSize) PacketTotalSize (Data packet) in
  bytes.

Definition RebornPacket (data : list byte) : Packet :=
  let packet := mkPacket (zeros PacketAddrSize) (zeros PacketAddrSize)
                         (zeros PacketDataSize) in
  let packet := mkPacket (copy (Size packet) (sub data 0 PacketAddrSize))
                         (Sequence packet) (Data packet) in
  let packet := mkPacket (Size packet)
                         (copy (Sequence packet)
                               (sub data PacketAddrSize (2 * PacketAddrSize)))
                         (Data packet) in
  let packet := mkPacket (Size packet) (Sequence packet)
                         (copy (Data packet)
                               (sub data (2 * PacketAddrSize) PacketTotalSize)) in
  packet.

(** ** Stream serializer *)

(** The body of the [for] loop of [Serialize], run [remaining] more times. *)
Fixpoint Serialize_loop (data : list byte) (size : Z) (remaining : nat)
    (sequence : Z) (packets : list Packet) : result (list Packet) :=
  match remaining with
  | O => Ok packets
  | S remaining' =>
      let payload := zeros PacketDataSize in
      payload <-
        (if sequence =? size - 1 then
           src <- slice data (sequence * Z.of_nat PacketDataSize) (len data) ;;
           Ok (copy payload src)
         else
           src <- slice data (sequence * Z.of_nat PacketDataSize)
                             ((sequence + 1) * Z.of_nat PacketDataSize) ;;
           Ok (copy payload src)) ;;
      packet <- NewPacket size sequence payload ;;
      Serialize_loop data size remaining' (sequence + 1) (packets ++ [packet])
  end.

Definition Serialize (data : list byte) : result (list Packet) :=
  let size :=
    int_of_float64
      (math_Ceil (float64_of_int (len data) / inject_Z (Z.of_nat PacketDataSize))%Q) in
  Serialize_loop data size (Z.to_nat size) 0 [].

(** The [range] loop of [Deserialize]. *)
Fixpoint Deserialize_loop (packets : list Packet) (data : list byte) (offset : Z)
  : result (list byte) :=
  match packets with
  | [] => Ok data
  | packet :: packets' =>
      data <- copy_slice data offset (offset + Z.of_nat PacketDataSize) (Data packet) ;;
      Deserialize_loop packets' data (offset + Z.of_nat PacketDataSize)
  end.

Definition Deserialize (packets : list Packet) : result (list byte) :=
  let packetsCount := len packets in
  let dataSize := packetsCount * Z.of_nat PacketDataSize in
  let data := zeros (Z.to_nat dataSize) in
  Deserialize_loop packets data 0.

(** ** Specification vocabulary *)

(** The value a little-endian byte string denotes. *)
Fixpoint le_value (bs : list byte) : Z :=
  match bs with
  | [] => 0
  | b :: bs' => byte.unsigned b + 256 * le_value bs'
  end.

(** [ceil(a / d)] on natural numbers. *)
Definition ceil_div (a d : nat) : nat := ((a + (d - 1)) / d)%nat.

(** Chunk [k] of a payload cut into blocks of [d] bytes:
    [data[k*d : min((k+1)*d, len(data))]], zero-padded to [d] bytes. *)
Definition pad_chunk (d : nat) (data : list byte) (k : nat) : list byte :=
  let c := sub data (k * d) (Nat.min ((k + 1) * d) (length data)) in
  c ++ zeros (d - length c).

Definition chunk : list byte -> nat -> list byte := pad_chunk PacketDataSize.

(** The packet that iteration [k] of the loop appends. *)
Definition packet_of (size : Z) (data : list byte) (k : nat) : Packet :=
  mkPacket (PutUint32 (uint32 size)) (PutUint32 (uint32 (Z.of_nat k))) (chunk data k).

(** The chunking property as the spec words it: [ceil(L/1024)] packets,
    packet [i] carrying sequence number [i], the packet count, and chunk [i]
    of the payload. *)
Definition chunking (payload : list byte) : Prop :=
  let count := ceil_div (length payload) 1024 in
  exists packets,
    Serialize payload = Ok packets /\
    length packets = count /\
    forall i, (i < count)%nat ->
      exists p,
        nth_error packets i = Some p /\
        GetSequence p = Ok (Z.of_nat i) /\
        GetSize p = Ok (Z.of_nat count) /\
        Data p = chunk payload i.

(** ** Message envelope: the Go packages behind [ToJSON] and [Reborn*]

    [Request.ToJSON], [RebornRequest] and their [Response] twins only call
    [json.Marshal] and [json.Unmarshal].  The modules below embed what those
    calls run through in Go's standard packages (as of Go 1.22) for a struct
    whose fields are a [string], a [[]byte] or an [int]: [unicode/utf8],
    [unicode/utf16], [encoding/base64] (the standard, padded encoding),
    [strconv] (base 10) and [encoding/json].  Each definition carries the
    name of the Go function or table it embeds.  A Go [string] is the list
    of its bytes; a rune is a [Z]. *)

Local Open Scope byte_scope.

Definition dquote : byte := Byte.x22.

(** *** unicode/utf8 *)
Module utf8.

Definition RuneError : Z := 0xFFFD.
Definition RuneSelf : Z := 0x80.
Definition MaxRune : Z := 0x10FFFF.
Definition UTFMax : nat := 4.

Definition maskx : Z := 0x3F.
Definition mask2 : Z := 0x1F.
Definition mask3 : Z := 0x0F.
Definition mask4 : Z := 0x07.
Definition tx : Z := 0x80.
Definition t2 : Z := 0xC0.
Definition t3 : Z := 0xE0.
Definition t4 : Z := 0xF0.
Definition locb : Z := 0x80.
Definition hicb : Z := 0xBF.

(** One entry of the table [first]: an ASCII byte, an invalid first byte,
    or the size of the sequence with the range accepted for its second
    byte. *)
Inductive first_entry : Set :=
| AS
| XX
| SZ (sz : nat) (lo hi : Z).

Definition first (p0 : Z) : first_entry :=
  if p0 <? 0x80 then AS
  else if p0 <? 0xC2 then XX
  else if p0 <? 0xE0 then SZ 2 locb hicb
  else if p0 =? 0xE0 then SZ 3 0xA0 hicb
  else if p0 <? 0xED then SZ 3 locb hicb
  else if p0 =? 0xED then SZ 3 locb 0x9F
  else if p0 <? 0xF0 then SZ 3 locb hicb
  else if p0 =? 0xF0 then SZ 4 0x90 hicb
  else if p0 <? 0xF4 then SZ 4 locb hicb
  else if p0 =? 0xF4 then SZ 4 locb 0x8F
  else XX.

(** [utf8.DecodeRune]: the rune at the head of [p] and its width in bytes;
    [(RuneError, 1)] for an encoding that is wrong or cut short,
    [(RuneError, 0)] for the empty slice. *)
Definition DecodeRune (p : list byte) : Z * nat :=
  match p with
  | [] => (RuneError, 0%nat)
  | p0 :: p' =>
      match first (byte.unsigned p0) with
      | AS => (byte.unsigned p0, 1%nat)
      | XX => (RuneError, 1%nat)
      | SZ sz lo hi =>
          if (length p <? sz)%nat then (RuneError, 1%nat)
          else
            match p' with
            | [] => (RuneError, 1%nat)
            | b1 :: p'' =>
                let p0 := byte.unsigned p0 in
                let b1 := byte.unsigned b1 in
                if (b1 <? lo) || (hi <? b1) then (RuneError, 1%nat)
                else if (sz <=? 2)%nat then
                  (Z.lor (Z.shiftl (Z.land p0 mask2) 6) (Z.land b1 maskx), 2%nat)
                else
                  match p'' with
                  | [] => (RuneError, 1%nat)
                  | b2 :: p''' =>
                      let b2 := byte.unsigned b2 in
                      if (b2 <? locb) || (hicb <? b2) then (RuneError, 1%nat)
                      else if (sz <=? 3)%nat then
                        (Z.lor (Z.lor (Z.shiftl (Z.land p0 mask3) 12)
                                      (Z.shiftl (Z.land b1 maskx) 6))
                               (Z.land b2 maskx), 3%nat)
                      else
                        match p''' with
                        | [] => (RuneError, 1%nat)
                        | b3 :: _ =>
                            let b3 := byte.unsigned b3 in
                            if (b3 <? locb) || (hicb <? b3) then (RuneError, 1%nat)
                            else
                              (Z.lor (Z.lor (Z.lor (Z.shiftl (Z.land p0 mask4) 18)
                                                   (Z.shiftl (Z.land b1 maskx) 12))
                                            (Z.shiftl (Z.land b2 maskx) 6))
                                     (Z.land b3 maskx), 4%nat)
                        end
                  end
            end
      end
  end.

(** [utf8.EncodeRune]: the bytes of [r]; of [RuneError] if [r] is a
    surrogate or out of range. *)
Definition EncodeRune (r : Z) : list byte :=
  let i := r mod 2 ^ 32 in
  if i <=? 0x7F then [byte.of_Z r]
  else if i <=? 0x7FF then
    [byte.of_Z (Z.lor t2 (Z.shiftr r 6));
     byte.of_Z (Z.lor tx (Z.land r maskx))]
  else
    let r := if (MaxRune <? i) || ((0xD800 <=? i) && (i <=? 0xDFFF))
             then RuneError else r in
    if (MaxRune <? i) || ((0xD800 <=? i) && (i <=? 0xDFFF)) || (i <=? 0xFFFF) then
      [byte.of_Z (Z.lor t3 (Z.shiftr r 12));
       byte.of_Z (Z.lor tx (Z.land (Z.shiftr r 6) maskx));
       byte.of_Z (Z.lor tx (Z.land r maskx))]
    else
      [byte.of_Z (Z.lor t4 (Z.shiftr r 18));
       byte.of_Z (Z.lor tx (Z.land (Z.shiftr r 12) maskx));
       byte.of_Z (Z.lor tx (Z.land (Z.shiftr r 6) maskx));
       byte.of_Z (Z.lor tx (Z.land r maskx))].

(** [utf8.Valid]: [DecodeRune] reports an error at no position of [p]. *)
Fixpoint ValidLoop (fuel : nat) (p : list byte) : bool :=
  match p, fuel with
  | [], _ => true
  | _, O => false
  | _ :: _, S fuel' =>
      let '(r, size) := DecodeRune p in
      if (r =? RuneError) && (size =? 1)%nat then false
      else ValidLoop fuel' (skipn size p)
  end.

Definition Valid (p : list byte) : bool := ValidLoop (length p) p.

End utf8.

(** *** unicode/utf16 *)
Module utf16.

Definition surr1 : Z := 0xd800.
Definition surr2 : Z := 0xdc00.
Definition surr3 : Z := 0xe000.
Definition surrSelf : Z := 0x10000.
Definition replacementChar : Z := 0xFFFD.

(** [utf16.IsSurrogate]. *)
Definition IsSurrogate (r : Z) : bool := (surr1 <=? r) && (r <? surr3).

(** [utf16.DecodeRune]: the rune of a surrogate pair, or the replacement
    character. *)
Definition DecodeRune (r1 r2 : Z) : Z :=
  if (surr1 <=? r1) && (r1 <? surr2) && (surr2 <=? r2) && (r2 <? surr3)
  then Z.lor (Z.shiftl (r1 - surr1) 10) (r2 - surr2) + surrSelf
  else replacementChar.

End utf16.

(** *** encoding/base64, [StdEncoding] *)
Module base64.

Definition encodeStd : list byte :=
  list_byte_of_string
    "ABCDEFGHIJKLMNOPQRSTUVWXYZabcdefghijklmnopqrstuvwxyz0123456789+/".

Definition StdPadding : byte := "=".

(** [enc.encode[v]]. *)
Definition encode (v : Z) : byte := nth (Z.to_nat v) encodeStd Byte.x00.

Fixpoint index_of (c : byte) (l : list byte) (i : Z) : option Z :=
  match l with
  | [] => None
  | x :: l' => if Byte.eqb c x then Some i else index_of c l' (i + 1)
  end.

(** [enc.decodeMap[c]]; [None] stands for the entry [0xff]. *)
Definition decodeMap (c : byte) : option Z := index_of c encodeStd 0.

Definition sextet (val shift : Z) : byte :=
  encode (Z.land (Z.shiftr val shift) 0x3F).

(** [Encoding.Encode]: three bytes to four characters; one or two bytes
    left over are padded. *)
Fixpoint Encode (src : list byte) : list byte :=
  match src with
  | [] => []
  | [a] =>
      let val := Z.shiftl (byte.unsigned a) 16 in
      [sextet val 18; sextet val 12; StdPadding; StdPadding]
  | [a; b] =>
      let val := Z.lor (Z.shiftl (byte.unsigned a) 16)
                       (Z.shiftl (byte.unsigned b) 8) in
      [sextet val 18; sextet val 12; sextet val 6; StdPadding]
  | a :: b :: c :: rest =>
      let val := Z.lor (Z.lor (Z.shiftl (byte.unsigned a) 16)
                              (Z.shiftl (byte.unsigned b) 8))
                       (byte.unsigned c) in
      [sextet val 18; sextet val 12; sextet val 6; sextet val 0] ++ Encode rest
  end.

(** The 24 bits of a quantum. *)
Definition quantum (d0 d1 d2 d3 : Z) : Z :=
  Z.lor (Z.lor (Z.lor (Z.shiftl d0 18) (Z.shiftl d1 12)) (Z.shiftl d2 6)) d3.

Definition isNewline (c : byte) : bool := Byte.eqb c Byte.x0a || Byte.eqb c Byte.x0d.

(** [decodeQuantum], repeated, on input from which the line breaks (which
    it skips wherever they stand) have been removed: four characters give
    three bytes; padding is accepted only in the last quantum and only in
    its last one or two places, with nothing after it. *)
Fixpoint decodeQuanta (src : list byte) : option (list byte) :=
  match src with
  | [] => Some []
  | c0 :: c1 :: c2 :: c3 :: rest =>
      match decodeMap c0, decodeMap c1 with
      | Some d0, Some d1 =>
          match decodeMap c2, decodeMap c3 with
          | Some d2, Some d3 =>
              let val := quantum d0 d1 d2 d3 in
              match decodeQuanta rest with
              | Some out =>
                  Some (byte.of_Z (Z.shiftr val 16) :: byte.of_Z (Z.shiftr val 8)
                        :: byte.of_Z val :: out)
              | None => None
              end
          | Some d2, None =>
              let val := quantum d0 d1 d2 0 in
              if Byte.eqb c3 StdPadding then
                match rest with
                | [] => Some [byte.of_Z (Z.shiftr val 16); byte.of_Z (Z.shiftr val 8)]
                | _ => None
                end
              else None
          | None, _ =>
              let val := quantum d0 d1 0 0 in
              if Byte.eqb c2 StdPadding && Byte.eqb c3 StdPadding then
                match rest with
                | [] => Some [byte.of_Z (Z.shiftr val 16)]
                | _ => None
                end
              else None
          end
      | _, _ => None
      end
  | _ => None
  end.

(** [StdEncoding.Decode]; [None] is a [CorruptInputError]. *)
Definition Decode (src : list byte) : option (list byte) :=
  decodeQuanta (filter (fun c => negb (isNewline c)) src).

End base64.

(** *** strconv, base 10 *)
Module strconv.

Fixpoint bytes_of_uint (d : Decimal.uint) : list byte :=
  match d with
  | Decimal.Nil => []
  | Decimal.D0 d => "0" :: bytes_of_uint d
  | Decimal.D1 d => "1" :: bytes_of_uint d
  | Decimal.D2 d => "2" :: bytes_of_uint d
  | Decimal.D3 d => "3" :: bytes_of_uint d
  | Decimal.D4 d => "4" :: bytes_of_uint d
  | Decimal.D5 d => "5" :: bytes_of_uint d
  | Decimal.D6 d => "6" :: bytes_of_uint d
  | Decimal.D7 d => "7" :: bytes_of_uint d
  | Decimal.D8 d => "8" :: bytes_of_uint d
  | Decimal.D9 d => "9" :: bytes_of_uint d
  end.

(** [FormatInt(i, 10)]: the decimal numeral of [i], without leading zeros,
    with a minus sign when negative. *)
Definition FormatInt (i : Z) : list byte :=
  match Z.to_int i with
  | Decimal.Pos d => bytes_of_uint d
  | Decimal.Neg d => "-" :: bytes_of_uint d
  end.

Definition isDigit (c : byte) : bool :=
  (48 <=? byte.unsigned c) && (byte.unsigned c <=? 57).

(** The loop of [ParseUint]: [n = n*10 + d]. *)
Fixpoint parseDigits (s : list byte) (n : Z) : option Z :=
  match s with
  | [] => Some n
  | c :: s' =>
      if isDigit c then parseDigits s' (n * 10 + (byte.unsigned c - 48))
      else None
  end.

(** [ParseInt(s, 10, 64)]; [None] is a syntax or range error. *)
Definition ParseInt (s : list byte) : option Z :=
  match s with
  | [] => None
  | c :: s' =>
      let neg := Byte.eqb c "-" in
      let digits := if Byte.eqb c "+" || Byte.eqb c "-" then s' else s in
      match digits with
      | [] => None
      | _ =>
          match parseDigits digits 0 with
          | None => None
          | Some un =>
              let cutoff := 2 ^ 63 in
              if negb neg && (cutoff <=? un) then None
              else if neg && (cutoff <? un) then None
              else Some (if neg then - un else un)
          end
      end
  end.

End strconv.

(** *** encoding/json *)
Module json.

(** The kinds of struct field that occur, with their values: a [string], a
    [[]byte] ([None] is the nil slice) and an [int]. *)
Inductive value : Type :=
| String_ (s : list byte)
| Bytes (b : option (list byte))
| Int (i : Z).

(** A struct value as reflection shows it: its exported fields in
    declaration order, each with its name. *)
Definition struct : Type := list (list byte * value).

(** **** Encoding *)

(** [hex[n]]. *)
Definition hex (n : Z) : byte :=
  nth (Z.to_nat n) (list_byte_of_string "0123456789abcdef") Byte.x00.

(** [htmlSafeSet[b]]: the printable ASCII bytes other than the double
    quote, the backslash, and the three characters [&], [<], [>]. *)
Definition htmlSafeSet (b : byte) : bool :=
  (0x20 <=? byte.unsigned b) && (byte.unsigned b <? 0x80)
  && negb (Byte.eqb b dquote || Byte.eqb b "\" || Byte.eqb b "&"
           || Byte.eqb b "<" || Byte.eqb b ">").

(** The escape written for an ASCII byte that is not in [htmlSafeSet]. *)
Definition escapeByte (b : byte) : list byte :=
  if Byte.eqb b "\" || Byte.eqb b dquote then ["\"; b]
  else if Byte.eqb b Byte.x08 then ["\"; "b"]
  else if Byte.eqb b Byte.x0c then ["\"; "f"]
  else if Byte.eqb b Byte.x0a then ["\"; "n"]
  else if Byte.eqb b Byte.x0d then ["\"; "r"]
  else if Byte.eqb b Byte.x09 then ["\"; "t"]
  else ["\"; "u"; "0"; "0";
        hex (Z.shiftr (byte.unsigned b) 4); hex (Z.land (byte.unsigned b) 0xF)].

(** The loop of [appendString] with [escapeHTML] set: what is written for
    the bytes of [src] between the two quotes.  Each iteration consumes at
    least one byte, so [fuel = len(src)] runs the loop to its end. *)
Fixpoint appendStringLoop (fuel : nat) (src : list byte) : list byte :=
  match src, fuel with
  | [], _ => []
  | _, O => []
  | b :: rest, S fuel' =>
      if byte.unsigned b <? utf8.RuneSelf then
        (if htmlSafeSet b then [b] else escapeByte b)
          ++ appendStringLoop fuel' rest
      else
        let '(c, size) := utf8.DecodeRune (firstn utf8.UTFMax src) in
        if (c =? utf8.RuneError) && (size =? 1)%nat then
          ["\"; "u"; "f"; "f"; "f"; "d"]
            ++ appendStringLoop fuel' (skipn size src)
        else if (c =? 0x2028) || (c =? 0x2029) then
          ["\"; "u"; "2"; "0"; "2"; hex (Z.land c 0xF)]
            ++ appendStringLoop fuel' (skipn size src)
        else
          firstn size src ++ appendStringLoop fuel' (skipn size src)
  end.

(** [appendString]: a string as a JSON string literal. *)
Definition appendString (src : list byte) : list byte :=
  dquote :: appendStringLoop (length src) src ++ [dquote].

(** The encoders of the three kinds: [stringEncoder], [encodeByteSlice]
    (a nil slice is [null]) and [intEncoder]. *)
Definition encodeValue (v : value) : list byte :=
  match v with
  | String_ s => appendString s
  | Bytes None => list_byte_of_string "null"
  | Bytes (Some b) => dquote :: base64.Encode b ++ [dquote]
  | Int i => strconv.FormatInt i
  end.

(** The fields of a struct, each preceded by [next]: an opening brace
    before the first, a comma before the others. *)
Fixpoint encodeFields (next : byte) (fields : struct) : list byte :=
  match fields with
  | [] => []
  | (name, v) :: fields' =>
      next :: appendString name ++ [":"] ++ encodeValue v
        ++ encodeFields "," fields'
  end.

(** [json.Marshal] of a struct; none of the three kinds of field can make it
    fail. *)
Definition Marshal (v : struct) : result (list byte) :=
  match v with
  | [] => Ok (list_byte_of_string "{}")
  | _ => Ok (encodeFields "{" v ++ ["}"])
  end.

(** **** The scanner: which texts are JSON *)

(** [isSpace]: space, tab, carriage return, line feed. *)
Definition isSpace (c : byte) : bool :=
  Byte.eqb c " " || Byte.eqb c Byte.x09 || Byte.eqb c Byte.x0d || Byte.eqb c Byte.x0a.

Fixpoint skipSpace (s : list byte) : list byte :=
  match s with
  | c :: s' => if isSpace c then skipSpace s' else s
  | [] => []
  end.

Definition isHex (c : byte) : bool :=
  let x := byte.unsigned c in
  ((48 <=? x) && (x <=? 57)) || ((97 <=? x) && (x <=? 102))
  || ((65 <=? x) && (x <=? 70)).

Definition isSimpleEscape (c : byte) : bool :=
  Byte.eqb c "b" || Byte.eqb c "f" || Byte.eqb c "n" || Byte.eqb c "r"
  || Byte.eqb c "t" || Byte.eqb c "\" || Byte.eqb c "/" || Byte.eqb c dquote.

(** A literal as the scanner delimits it: a string keeps the bytes between
    its quotes, a number its text. *)
Inductive literal : Type :=
| LString (raw : list byte)
| LNumber (text : list byte)
| LTrue
| LFalse
| LNull.

(** The scanner inside a string, after the opening quote: the bytes up to
    the closing quote, and what follows that quote. *)
Fixpoint scanString (s : list byte) : option (list byte * list byte) :=
  match s with
  | [] => None
  | c :: s1 =>
      if Byte.eqb c dquote then Some ([], s1)
      else if Byte.eqb c "\" then
        match s1 with
        | [] => None
        | e :: s2 =>
            if isSimpleEscape e then
              match scanString s2 with
              | Some (raw, rest) => Some (c :: e :: raw, rest)
              | None => None
              end
            else if Byte.eqb e "u" then
              match s2 with
              | h1 :: h2 :: h3 :: h4 :: s3 =>
                  if isHex h1 && isHex h2 && isHex h3 && isHex h4 then
                    match scanString s3 with
                    | Some (raw, rest) =>
                        Some (c :: e :: h1 :: h2 :: h3 :: h4 :: raw, rest)
                    | None => None
                    end
                  else None
              | _ => None
              end
            else None
        end
      else if byte.unsigned c <? 0x20 then None
      else
        match scanString s1 with
        | Some (raw, rest) => Some (c :: raw, rest)
        | None => None
        end
  end.

(** The digits at the head of [s], and the rest. *)
Fixpoint spanDigits (s : list byte) : list byte * list byte :=
  match s with
  | c :: s' =>
      if strconv.isDigit c then
        let '(ds, rest) := spanDigits s' in (c :: ds, rest)
      else ([], s)
  | [] => ([], [])
  end.

(** The scanner on a number: an optional minus sign, an integer part without
    leading zero, an optional fraction, an optional exponent. *)
Definition scanNumber (s : list byte) : option (list byte * list byte) :=
  let '(sign, s1) :=
    match s with
    | c :: s' => if Byte.eqb c "-" then ([c], s') else ([], s)
    | [] => ([], s)
    end in
  match s1 with
  | [] => None
  | c :: s2 =>
      let int_part :=
        if Byte.eqb c "0" then Some ([c], s2)
        else if strconv.isDigit c then
          let '(ds, rest) := spanDigits s2 in Some (c :: ds, rest)
        else None in
      match int_part with
      | None => None
      | Some (ip, s3) =>
          let frac_part :=
            match s3 with
            | c :: s4 =>
                if Byte.eqb c "." then
                  match spanDigits s4 with
                  | ([], _) => None
                  | (ds, rest) => Some (c :: ds, rest)
                  end
                else Some ([], s3)
            | [] => Some ([], s3)
            end in
          match frac_part with
          | None => None
          | Some (fp, s5) =>
              let exp_part :=
                match s5 with
                | c :: s6 =>
                    if Byte.eqb c "e" || Byte.eqb c "E" then
                      let '(es, s7) :=
                        match s6 with
                        | c' :: s6' =>
                            if Byte.eqb c' "+" || Byte.eqb c' "-"
                            then ([c'], s6') else ([], s6)
                        | [] => ([], s6)
                        end in
                      match spanDigits s7 with
                      | ([], _) => None
                      | (ds, rest) => Some (c :: es ++ ds, rest)
                      end
                    else Some ([], s5)
                | [] => Some ([], s5)
                end in
              match exp_part with
              | None => None
              | Some (ep, rest) => Some (sign ++ ip ++ fp ++ ep, rest)
              end
          end
      end
  end.

(** [s] after the letters of [word], if it starts with them. *)
Fixpoint expect (word s : list byte) : option (list byte) :=
  match word, s with
  | [], _ => Some s
  | w :: word', c :: s' => if Byte.eqb w c then expect word' s' else None
  | _ :: _, [] => None
  end.

(** One value that is not an array or an object.  Arrays and objects as
    values are outside this embedding: [UnsupportedValue]. *)
Definition scanValue (s : list byte) : result (literal * list byte) :=
  match s with
  | [] => Err SyntaxError
  | c :: s' =>
      if Byte.eqb c dquote then
        match scanString s' with
        | Some (raw, rest) => Ok (LString raw, rest)
        | None => Err SyntaxError
        end
      else if Byte.eqb c "-" || strconv.isDigit c then
        match scanNumber s with
        | Some (text, rest) => Ok (LNumber text, rest)
        | None => Err SyntaxError
        end
      else if Byte.eqb c "t" then
        match expect (list_byte_of_string "rue") s' with
        | Some rest => Ok (LTrue, rest)
        | None => Err SyntaxError
        end
      else if Byte.eqb c "f" then
        match expect (list_byte_of_string "alse") s' with
        | Some rest => Ok (LFalse, rest)
        | None => Err SyntaxError
        end
      else if Byte.eqb c "n" then
        match expect (list_byte_of_string "ull") s' with
        | Some rest => Ok (LNull, rest)
        | None => Err SyntaxError
        end
      else if Byte.eqb c "{" || Byte.eqb c "[" then Err UnsupportedValue
      else Err SyntaxError
  end.

(** The members of an object from the first key on: [s] starts at the
    opening quote of a key.  Each member consumes input, so
    [fuel = len(s)] is never used up. *)
Fixpoint scanMembers (fuel : nat) (s : list byte)
  : result (list (list byte * literal) * list byte) :=
  match fuel with
  | O => Err SyntaxError
  | S fuel' =>
      match s with
      | c :: s1 =>
          if Byte.eqb c dquote then
            match scanString s1 with
            | None => Err SyntaxError
            | Some (key, s2) =>
                match skipSpace s2 with
                | c2 :: s3 =>
                    if Byte.eqb c2 ":" then
                      r <- scanValue (skipSpace s3) ;;
                      let '(v, s4) := r in
                      match skipSpace s4 with
                      | c4 :: s5 =>
                          if Byte.eqb c4 "," then
                            r' <- scanMembers fuel' (skipSpace s5) ;;
                            let '(members, rest) := r' in
                            Ok ((key, v) :: members, rest)
                          else if Byte.eqb c4 "}" then Ok ([(key, v)], s5)
                          else Err SyntaxError
                      | [] => Err SyntaxError
                      end
                    else Err SyntaxError
                | [] => Err SyntaxError
                end
            end
          else Err SyntaxError
      | [] => Err SyntaxError
      end
  end.

(** A whole JSON text, as [checkValid] accepts it: one value, with white
    space around it and nothing else. *)
Inductive text : Type :=
| TObject (members : list (list byte * literal))
| TLiteral (l : literal).

Definition scanText (data : list byte) : result text :=
  match skipSpace data with
  | [] => Err SyntaxError
  | c :: s =>
      r <- (if Byte.eqb c "{" then
              match skipSpace s with
              | c' :: s' =>
                  if Byte.eqb c' "}" then Ok (TObject [], s')
                  else
                    r <- scanMembers (length (c' :: s')) (c' :: s') ;;
                    let '(members, rest) := r in
                    Ok (TObject members, rest)
              | [] => Err SyntaxError
              end
            else
              r <- scanValue (c :: s) ;;
              let '(l, rest) := r in
              Ok (TLiteral l, rest)) ;;
      let '(t, rest) := r in
      match skipSpace rest with
      | [] => Ok t
      | _ => Err SyntaxError
      end
  end.

(** **** Decoding *)

(** The value of a hexadecimal digit. *)
Definition hexValue (c : byte) : option Z :=
  let x := byte.unsigned c in
  if (48 <=? x) && (x <=? 57) then Some (x - 48)
  else if (97 <=? x) && (x <=? 102) then Some (x - 97 + 10)
  else if (65 <=? x) && (x <=? 70) then Some (x - 65 + 10)
  else None.

(** [getu4]: the rune of a [\uXXXX] escape at the head of [s], or -1. *)
Definition getu4 (s : list byte) : Z :=
  match s with
  | c0 :: c1 :: h1 :: h2 :: h3 :: h4 :: _ =>
      if Byte.eqb c0 "\" && Byte.eqb c1 "u" then
        match hexValue h1, hexValue h2, hexValue h3, hexValue h4 with
        | Some d1, Some d2, Some d3, Some d4 =>
            ((d1 * 16 + d2) * 16 + d3) * 16 + d4
        | _, _, _, _ => -1
        end
      else -1
  | _ => -1
  end.

(** The loop of [unquoteBytes] on the bytes between the quotes; [None] is
    its [ok = false]. *)
Fixpoint unquoteLoop (fuel : nat) (s : list byte) : option (list byte) :=
  match s, fuel with
  | [], _ => Some []
  | _, O => None
  | c :: s1, S fuel' =>
      if Byte.eqb c "\" then
        match s1 with
        | [] => None
        | e :: s2 =>
            if Byte.eqb e dquote || Byte.eqb e "\" || Byte.eqb e "/"
               || Byte.eqb e "'" then
              option_map (cons e) (unquoteLoop fuel' s2)
            else if Byte.eqb e "b" then
              option_map (cons Byte.x08) (unquoteLoop fuel' s2)
            else if Byte.eqb e "f" then
              option_map (cons Byte.x0c) (unquoteLoop fuel' s2)
            else if Byte.eqb e "n" then
              option_map (cons Byte.x0a) (unquoteLoop fuel' s2)
            else if Byte.eqb e "r" then
              option_map (cons Byte.x0d) (unquoteLoop fuel' s2)
            else if Byte.eqb e "t" then
              option_map (cons Byte.x09) (unquoteLoop fuel' s2)
            else if Byte.eqb e "u" then
              let rr := getu4 s in
              if rr <? 0 then None
              else
                let s3 := skipn 6 s in
                if utf16.IsSurrogate rr then
                  let rr1 := getu4 s3 in
                  let dec := utf16.DecodeRune rr rr1 in
                  if negb (dec =? utf16.replacementChar) then
                    option_map (app (utf8.EncodeRune dec))
                               (unquoteLoop fuel' (skipn 6 s3))
                  else
                    option_map (app (utf8.EncodeRune utf16.replacementChar))
                               (unquoteLoop fuel' s3)
                else
                  option_map (app (utf8.EncodeRune rr)) (unquoteLoop fuel' s3)
            else None
        end
      else if Byte.eqb c dquote || (byte.unsigned c <? 0x20) then None
      else if byte.unsigned c <? utf8.RuneSelf then
        option_map (cons c) (unquoteLoop fuel' s1)
      else
        let '(rr, size) := utf8.DecodeRune s in
        option_map (app (utf8.EncodeRune rr)) (unquoteLoop fuel' (skipn size s))
  end.

(** [unquoteBytes], on the bytes between the quotes. *)
Definition unquoteBytes (raw : list byte) : option (list byte) :=
  unquoteLoop (length raw) raw.

(** [foldName] as far as it can reach an ASCII name: ASCII letters go to
    upper case; of the other runes only U+017F and U+212A fold to ASCII
    letters (S and K); every other rune stays outside ASCII and is kept. *)
Definition foldRune (r : Z) : Z :=
  if r =? 0x17F then 0x53 else if r =? 0x212A then 0x4B else r.

Fixpoint foldNameLoop (fuel : nat) (s : list byte) : list byte :=
  match s, fuel with
  | [], _ => []
  | _, O => []
  | c :: s', S fuel' =>
      let x := byte.unsigned c in
      if x <? utf8.RuneSelf then
        (if (97 <=? x) && (x <=? 122) then byte.of_Z (x - 32) else c)
          :: foldNameLoop fuel' s'
      else
        let '(r, n) := utf8.DecodeRune s in
        utf8.EncodeRune (foldRune r) ++ foldNameLoop fuel' (skipn n s)
  end.

Definition foldName (s : list byte) : list byte := foldNameLoop (length s) s.

Definition bytes_eqb (a b : list byte) : bool :=
  if list_eq_dec Byte.byte_eq_dec a b then true else false.

Fixpoint findIndex (p : list byte -> bool) (fields : struct) (i : nat) : option nat :=
  match fields with
  | [] => None
  | (name, _) :: fields' => if p name then Some i else findIndex p fields' (S i)
  end.

(** The field a key selects: the one with exactly that name, else the first
    whose name is equal to it under [foldName]. *)
Definition findField (key : list byte) (fields : struct) : option nat :=
  match findIndex (bytes_eqb key) fields 0 with
  | Some i => Some i
  | None => findIndex (fun name => bytes_eqb (foldName key) (foldName name)) fields 0
  end.

(** [literalStore]: the new value of a field holding [v] when the literal
    [l] is decoded into it. *)
Definition literalStore (l : literal) (v : value) : result value :=
  match l with
  | LNull =>
      match v with
      | Bytes _ => Ok (Bytes None)
      | _ => Ok v
      end
  | LTrue | LFalse => Err UnmarshalTypeError
  | LString raw =>
      match unquoteBytes raw with
      | None => Err SyntaxError
      | Some s =>
          match v with
          | String_ _ => Ok (String_ s)
          | Bytes _ =>
              match base64.Decode s with
              | Some b => Ok (Bytes (Some b))
              | None => Err CorruptInputError
              end
          | Int _ => Err UnmarshalTypeError
          end
      end
  | LNumber t =>
      match v with
      | Int _ =>
          match strconv.ParseInt t with
          | Some n => Ok (Int n)
          | None => Err UnmarshalTypeError
          end
      | _ => Err UnmarshalTypeError
      end
  end.

(** The struct with field [i] set to [v]. *)
Fixpoint setField (i : nat) (v : value) (fields : struct) : struct :=
  match fields, i with
  | [], _ => []
  | (name, _) :: fields', O => (name, v) :: fields'
  | f :: fields', S i' => f :: setField i' v fields'
  end.

(** One member of an object decoded into the struct: a key that selects no
    field is skipped with its value. *)
Definition storeMember (fields : struct) (m : list byte * literal) : result struct :=
  let '(rawkey, l) := m in
  match unquoteBytes rawkey with
  | None => Err SyntaxError
  | Some key =>
      match findField key fields with
      | None => Ok fields
      | Some i =>
          match nth_error fields i with
          | None => Ok fields
          | Some (_, old) =>
              v <- literalStore l old ;;
              Ok (setField i v fields)
          end
      end
  end.

(** The loop of [decodeState.object] over the members, in order. *)
Fixpoint storeMembers (members : list (list byte * literal)) (fields : struct)
  : result struct :=
  match members with
  | [] => Ok fields
  | m :: members' =>
      fields' <- storeMember fields m ;;
      storeMembers members' fields'
  end.

(** [json.Unmarshal(data, &v)] for a struct [v]: the text is checked first,
    then decoded member by member; the first error met is the one
    returned. *)
Definition Unmarshal (data : list byte) (v : struct) : result struct :=
  t <- scanText data ;;
  match t with
  | TObject members => storeMembers members v
  | TLiteral LNull => Ok v
  | TLiteral _ => Err UnmarshalTypeError
  end.

End json.

(** ** Request and Response *)

Module Request.

Record t : Type := mk {
  Username : list byte;
  DataType : list byte;
  Data : option (list byte)
}.

(** [Request{}]. *)
Definition zero : t := mk [] [] None.

(** The struct as [encoding/json] sees it by reflection. *)
Definition fields (req : t) : json.struct :=
  [ (list_byte_of_string "Username", json.String_ (Username req));
    (list_byte_of_string "DataType", json.String_ (DataType req));
    (list_byte_of_string "Data", json.Bytes (Data req)) ].

Definition of_fields (fs : json.struct) : t :=
  match fs with
  | [ (_, json.String_ username); (_, json.String_ dataType); (_, json.Bytes data) ] =>
      mk username dataType data
  | _ => zero
  end.

Definition ToJSON (req : t) : result (list byte) :=
  jsonBytes <- json.Marshal (fields req) ;;
  Ok jsonBytes.

End Request.

Definition RebornRequest (jsonStr : list byte) : result Request.t :=
  let jsonBytes := jsonStr in
  let restoredReq := Request.zero in
  restoredReq <- json.Unmarshal jsonBytes (Request.fields restoredReq) ;;
  Ok (Request.of_fields restoredReq).

Module Response.

Record t : Type := mk {
  Status : Z;
  Message : list byte;
  Data : option (list byte)
}.

(** [Response{}]. *)
Definition zero : t := mk 0 [] None.

Definition fields (res : t) : json.struct :=
  [ (list_byte_of_string "Status", json.Int (Status res));
    (list_byte_of_string "Message", json.String_ (Message res));
    (list_byte_of_string "Data", json.Bytes (Data res)) ].

Definition of_fields (fs : json.struct) : t :=
  match fs with
  | [ (_, json.Int status); (_, json.String_ message); (_, json.Bytes data) ] =>
      mk status message data
  | _ => zero
  end.

Definition ToJSON (res : t) : result (list byte) :=
  jsonBytes <- json.Marshal (fields res) ;;
  Ok jsonBytes.

End Response.

Definition RebornResponse (jsonStr : list byte) : result Response.t :=
  let jsonBytes := jsonStr in
  let restoredRes := Response.zero in
  restoredRes <- json.Unmarshal jsonBytes (Response.fields restoredRes) ;;
  Ok (Response.of_fields restoredRes).

(** ** Specification vocabulary for the envelope *)

Local Abbreviation u := byte.unsigned.

(** A continuation byte. *)
Definition cont (b : byte) : Prop := utf8.locb <= u b <= utf8.hicb.

(** [rune_seq bs r]: [bs] is a sequence [DecodeRune] accepts, and [r] is the
    rune it denotes. *)
Inductive rune_seq : list byte -> Z -> Prop :=
| rune_seq1 b :
    u b < utf8.RuneSelf -> rune_seq [b] (u b)
| rune_seq2 b0 b1 :
    0xC2 <= u b0 <= 0xDF -> cont b1 ->
    rune_seq [b0; b1] ((u b0 - 0xC0) * 64 + (u b1 - 0x80))
| rune_seq3 b0 b1 b2 :
    0xE0 <= u b0 <= 0xEF -> cont b1 -> cont b2 ->
    (u b0 = 0xE0 -> 0xA0 <= u b1) -> (u b0 = 0xED -> u b1 <= 0x9F) ->
    rune_seq [b0; b1; b2]
             ((u b0 - 0xE0) * 4096 + (u b1 - 0x80) * 64 + (u b2 - 0x80))
| rune_seq4 b0 b1 b2 b3 :
    0xF0 <= u b0 <= 0xF4 -> cont b1 -> cont b2 -> cont b3 ->
    (u b0 = 0xF0 -> 0x90 <= u b1) -> (u b0 = 0xF4 -> u b1 <= 0x8F) ->
    rune_seq [b0; b1; b2; b3]
             ((u b0 - 0xF0) * 262144 + (u b1 - 0x80) * 4096
              + (u b2 - 0x80) * 64 + (u b3 - 0x80)).

(** A string made of sequences [DecodeRune] accepts. *)
Inductive utf8_valid : list byte -> Prop :=
| utf8_valid_nil : utf8_valid []
| utf8_valid_app bs r rest :
    rune_seq bs r -> utf8_valid rest -> utf8_valid (bs ++ rest).

(** A byte that stands for itself inside a JSON string literal. *)
Definition plain (c : byte) : Prop :=
  0x20 <= u c /\ c <> dquote /\ c <> "\".

(** What [appendString] writes for one ASCII byte. *)
Definition asciiOut (b : byte) : list byte :=
  if json.htmlSafeSet b then [b] else json.escapeByte b.

(** What [appendString] writes for a sequence of two bytes or more. *)
Definition multiOut (bs : list byte) (r : Z) : list byte :=
  if (r =? 0x2028) || (r =? 0x2029)
  then ["\"; "u"; "2"; "0"; "2"; json.hex (Z.land r 0xF)]
  else bs.

(** A byte of the base64 alphabet, or the padding: printable ASCII that
    needs no escape and is not a line break. *)
Definition b64char (c : byte) : Prop :=
  plain c /\ u c < utf8.RuneSelf /\ base64.isNewline c = false.

(** A numeral that does not start with the digit 0. *)
Definition lead_nonzero (d : Decimal.uint) : Prop :=
  match d with
  | Decimal.Nil | Decimal.D0 _ => False
  | _ => True
  end.

(** A byte that may follow a value inside an object. *)
Definition sep (c : byte) : Prop := c = "," \/ c = "}".

(** The literal the scanner finds where [encodeValue] wrote a value. *)
Definition literalOf (v : json.value) : json.literal :=
  match v with
  | json.String_ s => json.LString (json.appendStringLoop (length s) s)
  | json.Bytes None => json.LNull
  | json.Bytes (Some b) => json.LString (base64.Encode b)
  | json.Int i => json.LNumber (strconv.FormatInt i)
  end.

(** What a field may hold for the round trip to be exact: a string of
    valid UTF-8, any bytes, an integer of 64 bits. *)
Definition value_ok (v : json.value) : Prop :=
  match v with
  | json.String_ s => utf8_valid s
  | json.Bytes _ => True
  | json.Int i => - 2 ^ 63 <= i < 2 ^ 63
  end.

(** The member the scanner finds where [encodeFields] wrote a field. *)
Definition memberOf (f : list byte * json.value) : list byte * json.literal :=
  (json.appendStringLoop (length (fst f)) (fst f), literalOf (snd f)).

Definition field_ok (f : list byte * json.value) : Prop :=
  utf8_valid (fst f) /\ value_ok (snd f).

Definition same_kind (v w : json.value) : Prop :=
  match v, w with
  | json.String_ _, json.String_ _ => True
  | json.Bytes _, json.Bytes _ => True
  | json.Int _, json.Int _ => True
  | _, _ => False
  end.

(** Two fields with one name and one kind. *)
Definition same_field (f g : list byte * json.value) : Prop :=
  fst f = fst g /\ same_kind (snd f) (snd g).

(** ** Specification vocabulary for strings that are not valid UTF-8 *)

(** The three bytes of U+FFFD, the replacement character. *)
Definition replacement : list byte := [Byte.xef; Byte.xbf; Byte.xbd].

(** What [appendString] writes for a byte that starts no sequence
    [DecodeRune] accepts. *)
Definition escaped_replacement : list byte := ["\"; "u"; "f"; "f"; "f"; "d"].

(** [lossy s out]: [out] is [s] in which every byte that starts no sequence
    [DecodeRune] accepts has been replaced by U+FFFD, the sequences it
    accepts being kept. *)
Inductive lossy : list byte -> list byte -> Prop :=
| lossy_nil : lossy [] []
| lossy_seq bs r rest out :
    rune_seq bs r -> lossy rest out -> lossy (bs ++ rest) (bs ++ out)
| lossy_bad b rest out :
    utf8.DecodeRune (firstn utf8.UTFMax (b :: rest)) = (utf8.RuneError, 1%nat) ->
    lossy rest out -> lossy (b :: rest) (replacement ++ out).

(** What a field holds after [Marshal] and [Unmarshal]: a string with its
    invalid bytes replaced, the same bytes, the same integer of 64 bits. *)
Definition lossy_value (v v' : json.value) : Prop :=
  match v, v' with
  | json.String_ s, json.String_ s' => lossy s s'
  | json.Bytes b, json.Bytes b' => b = b'
  | json.Int i, json.Int i' => i = i' /\ - 2 ^ 63 <= i < 2 ^ 63
  | _, _ => False
  end.

Definition lossy_field (f f' : list byte * json.value) : Prop :=
  fst f = fst f' /\ utf8_valid (fst f) /\ lossy_value (snd f) (snd f').

(** A byte that is no control character (so not [ByteDelim], not a line
    break) and none of [<], [>], [&]. *)
Definition wire_safe (c : byte) : bool :=
  (0x20 <=? u c) && negb (Byte.eqb c "<" || Byte.eqb c ">" || Byte.eqb c "&").

(** [key_for k name]: a key that is valid UTF-8 and equal to the field name
    [name] up to the case of its letters, as [foldName] sees it. *)
Definition key_for (k : list byte) (name : string) : Prop :=
  utf8.Valid k = true /\
  json.foldName k = json.foldName (list_byte_of_string name).

(** ** The [String] methods of the envelopes *)

(** The conversion [string(b)] of a byte slice; the nil slice gives the
    empty string. *)
Definition string_of_bytes (b : option (list byte)) : list byte :=
  match b with
  | Some b => b
  | None => []
  end.

(** [fmt.Sprintf(label + "%v\n", a)]: under the verb [%v] a string operand
    is written as it is and an [int] operand as its decimal numeral;
    [operand] is what the verb writes. *)
Definition Sprintf_v (label : string) (operand : list byte) : list byte :=
  list_byte_of_string label ++ operand ++ [Byte.x0a].

(** The method [String] of [Request]. *)
Definition Request_String (req : Request.t) : list byte :=
  let str := Sprintf_v "Username: " (Request.Username req) in
  let str := str ++ Sprintf_v "DataType: " (Request.DataType req) in
  let str := str ++ Sprintf_v "Data: " (string_of_bytes (Request.Data req)) in
  str.

(** The method [String] of [Response]. *)
Definition Response_String (res : Response.t) : list byte :=
  let str := Sprintf_v "Status: " (strconv.FormatInt (Response.Status res)) in
  let str := str ++ Sprintf_v "Message: " (Response.Message res) in
  let str := str ++ Sprintf_v "Data: " (string_of_bytes (Response.Data res)) in
  str.

(** [IdentityRequest] and its [String] method. *)
Module IdentityRequest.

Record t : Type := mk {
  Username : list byte
}.

Definition String (req : t) : list byte :=
  let str := Sprintf_v "Username: " (Username req) in
  str.

End IdentityRequest.

(** ** The logger

    The logger half of [logger.go].  A [log.Logger] is the triple it was
    made of; what a method of [Logger] does is the list of the calls it
    makes on the loggers, in order: the calls are the events of the
    embedding, their formatting and time stamps are left to the [log]
    package.  [runtime.Caller(1)] is an input: the path and the line of the
    caller, as the run time reports them. *)

(** [strings.Split] for a separator of one byte. *)
Module strings.

(** [IndexByte]; [None] stands for -1. *)
Fixpoint IndexByte (s : list byte) (c : byte) : option nat :=
  match s with
  | [] => None
  | x :: s' =>
      if Byte.eqb x c then Some 0%nat
      else match IndexByte s' c with
           | Some i => Some (S i)
           | None => None
           end
  end.

(** [Count]: how many times [c] occurs in [s]. *)
Fixpoint Count (s : list byte) (c : byte) : nat :=
  match s with
  | [] => 0
  | x :: s' => if Byte.eqb x c then S (Count s' c) else Count s' c
  end.

(** The loop of [genSplit], which runs at most [n] times, then stores what
    is left of [s] as the last element. *)
Fixpoint genSplit_loop (n : nat) (s : list byte) (c : byte) : list (list byte) :=
  match n with
  | O => [s]
  | S n' =>
      match IndexByte s c with
      | None => [s]
      | Some m => firstn m s :: genSplit_loop n' (skipn (m + 1) s) c
      end
  end.

(** [Split(s, sep)]: [genSplit] run [Count(s, sep)] times at most. *)
Definition Split (s : list byte) (sep : byte) : list (list byte) :=
  genSplit_loop (Count s sep) s sep.

End strings.

Module log.

(** [os.Stdout] and [os.Stderr]. *)
Inductive Writer : Set :=
| Stdout
| Stderr.

(** The flags [Ldate], [Ltime] and [LstdFlags = Ldate | Ltime]. *)
Definition Ldate : Z := 1.
Definition Ltime : Z := 2.
Definition LstdFlags : Z := Z.lor Ldate Ltime.

(** [log.New(out, prefix, flag)]. *)
Record Logger : Type := New {
  out : Writer;
  prefix : list byte;
  flag : Z
}.

End log.

(** The constants that set what the default logger writes. *)
Definition GlobalLogInfo : bool := true.
Definition GlobalLogError : bool := true.
Definition GlobalLogDebug : bool := true.
Definition GlobalLogVerbose : bool := false.
Definition DefaultAppPrefix : string := "syncbox".

(** [Logger]: a [log.Logger] and a switch for each level. *)
Record Logger : Type := mkLogger {
  infoLogger : log.Logger;
  errorLogger : log.Logger;
  debugLogger : log.Logger;
  verboseLogger : log.Logger;
  doLogInfo : bool;
  doLogError : bool;
  doLogDebug : bool;
  doLogVerbose : bool
}.

(** [NewDefaultLogger()]. *)
Definition NewDefaultLogger : Logger :=
  {| debugLogger := log.New log.Stdout (list_byte_of_string "syncbox: ") log.LstdFlags;
     infoLogger := log.New log.Stdout (list_byte_of_string "syncbox: ") log.LstdFlags;
     errorLogger := log.New log.Stderr (list_byte_of_string "syncbox: ") log.LstdFlags;
     verboseLogger := log.New log.Stdout (list_byte_of_string "syncbox: ") log.LstdFlags;
     doLogInfo := GlobalLogInfo;
     doLogError := GlobalLogError;
     doLogDebug := GlobalLogDebug;
     doLogVerbose := GlobalLogVerbose |}.

(** [NewLogger(prefix, logInfo, logError, logDebug, logVerbose)]. *)
Definition NewLogger (prefix : list byte) (logInfo logError logDebug logVerbose : bool)
  : Logger :=
  {| debugLogger := log.New log.Stdout (list_byte_of_string "syncbox: ") log.LstdFlags;
     infoLogger := log.New log.Stdout (list_byte_of_string "syncbox: ") log.LstdFlags;
     errorLogger := log.New log.Stderr (list_byte_of_string "syncbox: ") log.LstdFlags;
     verboseLogger := log.New log.Stdout (list_byte_of_string "syncbox: ") log.LstdFlags;
     doLogInfo := logInfo;
     doLogError := logError;
     doLogDebug := logDebug;
     doLogVerbose := logVerbose |}.

Section LoggerEvents.

(** The type of the operands [v ...interface{}]. *)
Variable V : Type.

(** A call [l.Printf(format, v...)] on a [log.Logger], or a call of
    [debug.PrintStack]. *)
Inductive event : Type :=
| Printf (l : log.Logger) (format : list byte) (v : list V)
| PrintStack.

(** [elements[i]]; [None] is the run-time panic of an index out of
    range. *)
Definition index (elements : list (list byte)) (i : Z) : option (list byte) :=
  if (0 <=? i) && (i <? len elements) then nth_error elements (Z.to_nat i)
  else None.

(** [strconv.Itoa]. *)
Definition Itoa (i : Z) : list byte := strconv.FormatInt i.

(** In each method [caller] is the answer of [runtime.Caller(1)]; the test
    [v != nil && len(v) != 0] is the test [len(v) != 0], a nil slice having
    no element.  [None] is a run-time panic. *)
Definition LogError (l : Logger) (caller : list byte * Z) (format : list byte)
    (v : list V) : option (list event) :=
  if doLogError l then
    let '(path, line) := caller in
    let elements := strings.Split path "/" in
    match index elements (len elements - 1) with
    | None => None
    | Some file =>
        if negb (len v =? 0) then
          Some [Printf (errorLogger l)
                  (list_byte_of_string "error " ++ file ++ list_byte_of_string " "
                     ++ Itoa line ++ list_byte_of_string ": " ++ format) v;
                PrintStack]
        else
          Some [Printf (errorLogger l)
                  (list_byte_of_string "error " ++ file ++ list_byte_of_string " "
                     ++ Itoa line ++ list_byte_of_string ": " ++ format) [];
                PrintStack]
    end
  else Some [].

Definition LogInfo (l : Logger) (caller : list byte * Z) (format : list byte)
    (v : list V) : option (list event) :=
  if doLogInfo l then
    let '(path, line) := caller in
    let elements := strings.Split path "/" in
    match index elements (len elements - 1) with
    | None => None
    | Some file =>
        if negb (len v =? 0) then
          Some [Printf (infoLogger l)
                  (list_byte_of_string "info " ++ file ++ list_byte_of_string " "
                     ++ Itoa line ++ list_byte_of_string ": " ++ format) v]
        else
          Some [Printf (infoLogger l)
                  (list_byte_of_string "info " ++ file ++ list_byte_of_string " "
                     ++ Itoa line ++ list_byte_of_string ": " ++ format) []]
    end
  else Some [].

Definition LogDebug (l : Logger) (caller : list byte * Z) (format : list byte)
    (v : list V) : option (list event) :=
  if doLogDebug l then
    let '(path, line) := caller in
    let elements := strings.Split path "/" in
    match index elements (len elements - 1) with
    | None => None
    | Some file =>
        if negb (len v =? 0) then
          Some [Printf (infoLogger l)
                  (list_byte_of_string "debug " ++ file ++ list_byte_of_string " "
                     ++ Itoa line ++ list_byte_of_string ": " ++ format) v]
        else
          Some [Printf (infoLogger l)
                  (list_byte_of_string "debug " ++ file ++ list_byte_of_string " "
                     ++ Itoa line ++ list_byte_of_string ": " ++ format) []]
    end
  else Some [].

Definition LogVerbose (l : Logger) (caller : list byte * Z) (format : list byte)
    (v : list V) : option (list event) :=
  if doLogVerbose l then
    let '(path, line) := caller in
    let elements := strings.Split path "/" in
    match index elements (len elements - 1) with
    | None => None
    | Some file =>
        if negb (len v =? 0) then
          Some [Printf (verboseLogger l)
                  (list_byte_of_string "verbose " ++ file ++ list_byte_of_string " "
                     ++ Itoa line ++ list_byte_of_string ": " ++ format) v]
        else
          Some [Printf (verboseLogger l)
                  (list_byte_of_string "verbose " ++ file ++ list_byte_of_string " "
                     ++ Itoa line ++ list_byte_of_string ": " ++ format) []]
    end
  else Some [].

End LoggerEvents.

Arguments Printf {V} l format v.
Arguments PrintStack {V}.

(** * Properties *)

Lemma Ok_inj {A : Type} (a b : A) : Ok a = Ok b -> a = b.
Proof. congruence. Qed.

(** ** Little-endian fields *)

Lemma PutUint32_le_split v : PutUint32 v = le_split 4 v.
Proof.
  unfold PutUint32, le_split.
  rewrite !Z.shiftr_shiftr by lia.
  reflexivity.
Qed.

Lemma Uint32_le_combine b0 b1 b2 b3 :
  Uint32 b0 b1 b2 b3 = le_combine [b0; b1; b2; b3].
Proof.
  unfold Uint32, le_combine.
  rewrite Z.shiftl_0_l, Z.lor_0_r.
  rewrite !Z.shiftl_lor, !Z.shiftl_shiftl by lia.
  rewrite !Z.lor_assoc.
  reflexivity.
Qed.

Lemma Uint32_PutUint32 b0 b1 b2 b3 v :
  PutUint32 v = [b0; b1; b2; b3] -> Uint32 b0 b1 b2 b3 = v mod 2 ^ 32.
Proof.
  intros H.
  rewrite Uint32_le_combine, <- H, PutUint32_le_split, le_combine_split.
  reflexivity.
Qed.

Lemma PutUint32_Uint32 b0 b1 b2 b3 :
  PutUint32 (Uint32 b0 b1 b2 b3) = [b0; b1; b2; b3].
Proof.
  rewrite PutUint32_le_split, Uint32_le_combine.
  exact (split_le_combine [b0; b1; b2; b3]).
Qed.

Lemma Uint32_range b0 b1 b2 b3 : 0 <= Uint32 b0 b1 b2 b3 < 2 ^ 32.
Proof.
  rewrite Uint32_le_combine.
  exact (le_combine_bound [b0; b1; b2; b3]).
Qed.

(** ** [copy] and sub-slices *)

Section CopyFacts.
Context {A : Type}.
Implicit Types a dst src pre mid post : list A.

Lemma copy_length dst src : length (copy dst src) = length dst.
Proof.
  unfold copy.
  rewrite length_app, length_firstn, length_skipn.
  lia.
Qed.

Lemma copy_same_length dst src :
  length dst = length src -> copy dst src = src.
Proof.
  intros H; unfold copy.
  rewrite H, firstn_all, skipn_all2 by lia.
  apply app_nil_r.
Qed.

Lemma copy_shorter dst src :
  (length src <= length dst)%nat ->
  copy dst src = src ++ skipn (length src) dst.
Proof.
  intros H; unfold copy.
  rewrite firstn_all2 by lia.
  reflexivity.
Qed.

Lemma sub_app_mid pre mid post :
  sub (pre ++ mid ++ post) (length pre) (length pre + length mid) = mid.
Proof.
  unfold sub.
  rewrite skipn_app, skipn_all, Nat.sub_diag; cbn [skipn app].
  replace (length pre + length mid - length pre)%nat with (length mid) by lia.
  rewrite firstn_app, firstn_all, Nat.sub_diag; cbn [firstn].
  apply app_nil_r.
Qed.

Lemma set_sub_app_mid pre mid post s :
  set_sub (pre ++ mid ++ post) (length pre) (length pre + length mid) s
  = pre ++ s ++ post.
Proof.
  unfold set_sub.
  rewrite firstn_app, firstn_all, Nat.sub_diag; cbn [firstn].
  rewrite app_nil_r.
  do 2 f_equal.
  rewrite skipn_app, skipn_all2 by lia.
  replace (length pre + length mid - length pre)%nat with (length mid) by lia.
  rewrite skipn_app, skipn_all, Nat.sub_diag.
  reflexivity.
Qed.

Lemma copy_sub_app_mid pre mid post src :
  length src = length mid ->
  copy_sub (pre ++ mid ++ post) (length pre) (length pre + length mid) src
  = pre ++ src ++ post.
Proof.
  intros H; unfold copy_sub.
  rewrite sub_app_mid, set_sub_app_mid, copy_same_length by auto.
  reflexivity.
Qed.

Lemma firstn_plus (n m : nat) a :
  firstn (n + m) a = firstn n a ++ firstn m (skipn n a).
Proof.
  revert a; induction n as [|n IH]; intros [|x a]; cbn [Nat.add firstn skipn app];
    try reflexivity.
  - now rewrite firstn_nil.
  - now rewrite IH.
Qed.

Lemma sub_concat a (lo k hi : nat) :
  (lo <= k)%nat -> (k <= hi)%nat ->
  sub a lo k ++ sub a k hi = sub a lo hi.
Proof.
  intros H1 H2; unfold sub.
  replace (hi - lo)%nat with ((k - lo) + (hi - k))%nat by lia.
  rewrite firstn_plus, skipn_skipn.
  replace (k - lo + lo)%nat with k by lia.
  reflexivity.
Qed.

Lemma sub_all a : sub a 0 (length a) = a.
Proof.
  unfold sub; cbn [skipn].
  rewrite Nat.sub_0_r.
  apply firstn_all.
Qed.

Lemma sub_length a lo hi :
  (lo <= hi)%nat -> (hi <= length a)%nat -> length (sub a lo hi) = (hi - lo)%nat.
Proof.
  intros H1 H2; unfold sub.
  rewrite length_firstn, length_skipn.
  lia.
Qed.
End CopyFacts.

Lemma zeros_length n : length (zeros n) = n.
Proof. apply repeat_length. Qed.

Lemma zeros_add n m : zeros (n + m) = zeros n ++ zeros m.
Proof. apply repeat_app. Qed.

(** ** Packet fields *)

Lemma le_value_le_combine bs : le_value bs = le_combine bs.
Proof.
  induction bs as [|b bs IH]; [reflexivity|].
  cbn [le_value]; rewrite IH.
  change (le_combine (b :: bs))
    with (Z.lor (byte.unsigned b) (Z.shiftl (le_combine bs) 8)).
  pose proof (byte.unsigned_range b) as Hb.
  rewrite or_to_plus.
  - rewrite Z.shiftl_mul_pow2 by lia.
    change (2 ^ 8) with 256; lia.
  - rewrite <- (Z.mod_small _ _ Hb), <- Z.land_ones by lia.
    Z.bitblast.
    subst l; rewrite (Z.testbit_neg_r _ (i - 8)) by lia.
    apply andb_false_r.
Qed.

Lemma le_value_PutUint32 v : le_value (PutUint32 v) = v mod 2 ^ 32.
Proof.
  rewrite le_value_le_combine, PutUint32_le_split, le_combine_split.
  reflexivity.
Qed.

Lemma le_value_Uint32 b0 b1 b2 b3 :
  Uint32 b0 b1 b2 b3 = le_value [b0; b1; b2; b3].
Proof. now rewrite le_value_le_combine, Uint32_le_combine. Qed.

Lemma length_4_inv {A : Type} (l : list A) :
  length l = 4%nat -> exists a b c d, l = [a; b; c; d].
Proof.
  destruct l as [|a [|b [|c [|d [|e l]]]]]; cbn [length]; intros H; try lia.
  now exists a, b, c, d.
Qed.

Lemma le_value_field_range bs :
  length bs = PacketAddrSize -> 0 <= le_value bs < 2 ^ 32.
Proof.
  intros H.
  destruct (length_4_inv _ H) as (a & b & c & d & ->).
  rewrite <- le_value_Uint32.
  apply Uint32_range.
Qed.

Lemma intToBinary_ok num : intToBinary num = Ok (PutUint32 num).
Proof. reflexivity. Qed.

Lemma binaryToInt_ok b0 b1 b2 b3 :
  binaryToInt [b0; b1; b2; b3] = Ok (Uint32 b0 b1 b2 b3).
Proof. reflexivity. Qed.

Lemma SetSize_ok p n :
  length (Size p) = PacketAddrSize ->
  SetSize p n = Ok (mkPacket (PutUint32 (uint32 n)) (Sequence p) (Data p)).
Proof.
  intros H; unfold SetSize.
  rewrite intToBinary_ok; cbn [bind].
  rewrite copy_same_length by (rewrite H; reflexivity).
  reflexivity.
Qed.

Lemma SetSequence_ok p n :
  length (Sequence p) = PacketAddrSize ->
  SetSequence p n = Ok (mkPacket (Size p) (PutUint32 (uint32 n)) (Data p)).
Proof.
  intros H; unfold SetSequence.
  rewrite intToBinary_ok; cbn [bind].
  rewrite copy_same_length by (rewrite H; reflexivity).
  reflexivity.
Qed.

Lemma NewPacket_ok size sequence data :
  NewPacket size sequence data
  = Ok (mkPacket (PutUint32 (uint32 size)) (PutUint32 (uint32 sequence)) data).
Proof.
  unfold NewPacket.
  rewrite SetSize_ok by reflexivity; cbn [bind].
  rewrite SetSequence_ok by reflexivity; cbn [bind].
  reflexivity.
Qed.

(** C9.  [SetSize] and [SetSequence] succeed on every integer: the cast to
    [uint32] makes the encoding four bytes long, so the branch returning
    [ErrorExceedsAddrLength] is never taken, and the field stored is the
    four-byte little-endian encoding of [n mod 2^32]. *)
Theorem SetSize_SetSequence_total (p : Packet) (n : Z) :
  packet_typed p ->
  exists field,
    SetSize p n = Ok (mkPacket field (Sequence p) (Data p)) /\
    SetSequence p n = Ok (mkPacket (Size p) field (Data p)) /\
    length field = 4%nat /\
    le_value field = n mod 2 ^ 32.
Proof.
  intros (Hsize & Hseq & _).
  exists (PutUint32 (uint32 n)); repeat split.
  - now apply SetSize_ok.
  - now apply SetSequence_ok.
  - rewrite le_value_PutUint32; unfold uint32.
    apply Z.mod_mod; lia.
Qed.

Lemma SetSize_SetSequence_total_witness :
  let p := mkPacket (zeros 4) (zeros 4) (zeros 1024) in
  packet_typed p /\
  exists field,
    SetSize p (2 ^ 32 + 5) = Ok (mkPacket field (Sequence p) (Data p)) /\
    SetSequence p (2 ^ 32 + 5) = Ok (mkPacket (Size p) field (Data p)) /\
    length field = 4%nat /\
    le_value field = (2 ^ 32 + 5) mod 2 ^ 32.
Proof.
  assert (H : packet_typed (mkPacket (zeros 4) (zeros 4) (zeros 1024)))
    by (repeat split).
  split; [exact H | exact (SetSize_SetSequence_total _ (2 ^ 32 + 5) H)].
Defined.

Lemma GetSize_GetSequence_fields (p : Packet) :
  packet_typed p ->
  GetSize p = Ok (le_value (Size p)) /\
  GetSequence p = Ok (le_value (Sequence p)).
Proof.
  destruct p as [size sequence data]; unfold packet_typed; cbn [Size Sequence Data].
  intros (Hsize & Hseq & _).
  destruct (length_4_inv _ Hsize) as (a & b & c & d & ->).
  destruct (length_4_inv _ Hseq) as (a' & b' & c' & d' & ->).
  unfold GetSize, GetSequence, int_of_uint32; cbn [Size Sequence].
  rewrite !binaryToInt_ok; cbn [bind].
  now rewrite !le_value_Uint32.
Qed.

(** C10.  [GetSize] and [GetSequence] succeed on every packet, whatever its
    bytes: a four-byte field always decodes, and the value returned is the
    little-endian reading of the field, a number below [2^32]. *)
Theorem GetSize_GetSequence_total (p : Packet) :
  packet_typed p ->
  exists size sequence,
    GetSize p = Ok size /\ GetSequence p = Ok sequence /\
    size = le_value (Size p) /\ sequence = le_value (Sequence p) /\
    0 <= size < 2 ^ 32 /\ 0 <= sequence < 2 ^ 32.
Proof.
  intros H.
  destruct (GetSize_GetSequence_fields p H) as [E1 E2].
  exists (le_value (Size p)), (le_value (Sequence p)).
  destruct H as (Hsize & Hseq & _).
  pose proof (le_value_field_range _ Hsize).
  pose proof (le_value_field_range _ Hseq).
  repeat split; auto; lia.
Qed.

Lemma GetSize_GetSequence_total_witness :
  let p := mkPacket (PutUint32 7) (PutUint32 3) (zeros 1024) in
  packet_typed p /\
  exists size sequence,
    GetSize p = Ok size /\ GetSequence p = Ok sequence /\
    size = le_value (Size p) /\ sequence = le_value (Sequence p) /\
    0 <= size < 2 ^ 32 /\ 0 <= sequence < 2 ^ 32.
Proof.
  assert (H : packet_typed (mkPacket (PutUint32 7) (PutUint32 3) (zeros 1024)))
    by (repeat split).
  split; [exact H | exact (GetSize_GetSequence_total _ H)].
Defined.

(** C4.  [NewPacket] never reports an address overflow.  At [size = 2^32],
    one more than a four-byte field can hold, it returns a packet whose
    [Size] field reads back as 0: the cast [uint32(size)] has already wrapped
    the value before the length test of [SetSize] sees it. *)
Theorem NewPacket_overflow_wraps :
  NewPacket (2 ^ 32) 0 (zeros PacketDataSize)
  = Ok (mkPacket (zeros 4) (zeros 4) (zeros PacketDataSize)) /\
  (forall p, NewPacket (2 ^ 32) 0 (zeros PacketDataSize) = Ok p -> GetSize p = Ok 0) /\
  (forall size sequence data,
      NewPacket size sequence data <> Err ErrorExceedsAddrLength).
Proof.
  split; [|split].
  - rewrite NewPacket_ok; reflexivity.
  - intros p; rewrite NewPacket_ok; intros [= <-]; reflexivity.
  - intros size sequence data; rewrite NewPacket_ok; discriminate.
Qed.

(** ** Wire layout *)

Lemma copy_sub_zeros pre n post src :
  length src = n ->
  copy_sub (pre ++ zeros n ++ post) (length pre) (length pre + n) src
  = pre ++ src ++ post.
Proof.
  intros H.
  pose proof (copy_sub_app_mid pre (zeros n) post src) as E.
  rewrite zeros_length in E; auto.
Qed.

Lemma ToBytes_concat p :
  packet_typed p -> ToBytes p = Size p ++ Sequence p ++ Data p.
Proof.
  intros (Hsize & Hseq & Hdata); unfold ToBytes.
  change PacketTotalSize with (4 + (4 + 1024))%nat.
  change (2 * PacketAddrSize)%nat with (4 + 4)%nat.
  change PacketAddrSize with 4%nat in *; change PacketDataSize with 1024%nat in *.
  rewrite !zeros_add.
  pose proof (copy_sub_zeros [] 4 (zeros 4 ++ zeros 1024) (Size p) Hsize) as E1.
  cbn [app length Nat.add] in E1; rewrite E1.
  pose proof (copy_sub_zeros (Size p) 4 (zeros 1024) (Sequence p) Hseq) as E2.
  rewrite Hsize in E2; rewrite E2.
  pose proof (copy_sub_zeros (Size p ++ Sequence p) 1024 [] (Data p) Hdata) as E3.
  rewrite length_app, Hsize, Hseq, <- !app_assoc, !app_nil_r in E3.
  exact E3.
Qed.

Lemma fields_sub (size sequence data : list byte) :
  length size = 4%nat -> length sequence = 4%nat -> length data = 1024%nat ->
  sub (size ++ sequence ++ data) 0 4 = size /\
  sub (size ++ sequence ++ data) 4 8 = sequence /\
  sub (size ++ sequence ++ data) 8 1032 = data.
Proof.
  intros Hsize Hseq Hdata; repeat split.
  - pose proof (sub_app_mid [] size (sequence ++ data)) as E.
    now rewrite Hsize in E.
  - pose proof (sub_app_mid size sequence data) as E.
    now rewrite Hsize, Hseq in E.
  - pose proof (sub_app_mid (size ++ sequence) data []) as E.
    now rewrite length_app, Hsize, Hseq, Hdata, <- app_assoc, app_nil_r in E.
Qed.

(** C6.  [ToBytes] is a total function; its result has 1032 bytes, of which
    [0,4) are [Size], [4,8) are [Sequence] and [8,1032) are [Data]. *)
Theorem ToBytes_layout (p : Packet) :
  packet_typed p ->
  length (ToBytes p) = 1032%nat /\
  sub (ToBytes p) 0 4 = Size p /\
  sub (ToBytes p) 4 8 = Sequence p /\
  sub (ToBytes p) 8 1032 = Data p.
Proof.
  intros H; rewrite (ToBytes_concat p H).
  destruct H as (Hsize & Hseq & Hdata).
  change PacketAddrSize with 4%nat in *; change PacketDataSize with 1024%nat in *.
  split.
  - rewrite !length_app, Hsize, Hseq, Hdata; reflexivity.
  - now apply fields_sub.
Qed.

Lemma ToBytes_layout_witness :
  let p := mkPacket (PutUint32 3) (PutUint32 2) (repeat Byte.x61 1024) in
  packet_typed p /\
  length (ToBytes p) = 1032%nat /\
  sub (ToBytes p) 0 4 = Size p /\
  sub (ToBytes p) 4 8 = Sequence p /\
  sub (ToBytes p) 8 1032 = Data p.
Proof.
  assert (H : packet_typed
                (mkPacket (PutUint32 3) (PutUint32 2) (repeat Byte.x61 1024)))
    by (repeat split).
  split; [exact H | exact (ToBytes_layout _ H)].
Defined.

Lemma RebornPacket_fields data :
  (PacketTotalSize <= length data)%nat ->
  RebornPacket data
  = mkPacket (sub data 0 4) (sub data 4 8) (sub data 8 1032).
Proof.
  intros H; unfold RebornPacket; cbn [Size Sequence Data].
  change PacketTotalSize with 1032%nat in *.
  change (2 * PacketAddrSize)%nat with 8%nat.
  change PacketAddrSize with 4%nat; change PacketDataSize with 1024%nat.
  rewrite !copy_same_length; [reflexivity | | | ];
    rewrite zeros_length, sub_length; lia.
Qed.

(** C3.  [RebornPacket] undoes [ToBytes] on every packet, and [ToBytes]
    undoes [RebornPacket] on every 1032-byte buffer. *)
Theorem RebornPacket_ToBytes_inverse (p : Packet) (data : list byte) :
  packet_typed p ->
  length data = PacketTotalSize ->
  RebornPacket (ToBytes p) = p /\
  ToBytes (RebornPacket data) = data /\
  packet_typed (RebornPacket data).
Proof.
  intros Hp Hdata.
  assert (Ht : packet_typed (RebornPacket data)).
  { rewrite RebornPacket_fields by lia.
    unfold packet_typed, PacketAddrSize, PacketDataSize, PacketTotalSize in *.
    repeat split; cbn [Size Sequence Data]; rewrite sub_length; lia. }
  repeat split; try apply Ht.
  - rewrite (ToBytes_concat p Hp).
    destruct Hp as (Hsize & Hseq & Hdat).
    change PacketAddrSize with 4%nat in *; change PacketDataSize with 1024%nat in *.
    destruct (fields_sub _ _ _ Hsize Hseq Hdat) as (E1 & E2 & E3).
    rewrite RebornPacket_fields, E1, E2, E3.
    + now destruct p.
    + rewrite !length_app, Hsize, Hseq, Hdat; reflexivity.
  - rewrite (ToBytes_concat _ Ht), RebornPacket_fields by lia.
    cbn [Size Sequence Data].
    rewrite !sub_concat by lia.
    change PacketTotalSize with 1032%nat in Hdata.
    rewrite <- Hdata; apply sub_all.
Qed.

Lemma RebornPacket_ToBytes_inverse_witness :
  let p := mkPacket (PutUint32 3) (PutUint32 2) (repeat Byte.x61 1024) in
  let data := repeat Byte.x7a 1032 in
  packet_typed p /\ length data = PacketTotalSize /\
  RebornPacket (ToBytes p) = p /\
  ToBytes (RebornPacket data) = data /\
  packet_typed (RebornPacket data).
Proof.
  assert (H : packet_typed
                (mkPacket (PutUint32 3) (PutUint32 2) (repeat Byte.x61 1024)))
    by (repeat split).
  assert (L : length (repeat Byte.x7a 1032) = PacketTotalSize) by reflexivity.
  split; [exact H | split; [exact L|]].
  exact (RebornPacket_ToBytes_inverse _ _ H L).
Defined.

(** ** The packet count *)

Lemma ceil_div_bracket a d :
  (0 < d)%nat ->
  (a <= ceil_div a d * d)%nat /\ (ceil_div a d * d < a + d)%nat.
Proof.
  intros Hd; unfold ceil_div.
  pose proof (Nat.div_mod_eq (a + (d - 1)) d) as E.
  pose proof (Nat.mod_upper_bound (a + (d - 1)) d) as B.
  nia.
Qed.

Lemma ceil_div_unique a d c :
  (0 < d)%nat -> (a <= c * d)%nat -> (c * d < a + d)%nat -> c = ceil_div a d.
Proof.
  intros Hd H1 H2.
  destruct (ceil_div_bracket a d Hd) as [H3 H4].
  nia.
Qed.

Lemma round53_exact n : Z.abs n < 2 ^ 53 -> round53 n = n.
Proof.
  intros H; unfold round53.
  apply Z.ltb_lt in H; now rewrite H.
Qed.

Lemma int_of_float64_inject z : int_of_float64 (inject_Z z) = z.
Proof.
  unfold int_of_float64.
  destruct (Qle_bool 0 (inject_Z z)).
  - apply Qfloor_Z.
  - apply Qceiling_Z.
Qed.

Lemma Qceiling_div_1024 n :
  Qceiling (inject_Z n / inject_Z (Z.of_nat PacketDataSize))%Q = (n + 1023) / 1024.
Proof.
  change (Z.of_nat PacketDataSize) with 1024.
  unfold Qceiling, Qfloor, Qdiv, Qmult, Qinv, Qopp, inject_Z; cbn [Qnum Qden].
  change (Z.pos (1 * 1024)) with 1024.
  rewrite Z.mul_1_r.
  pose proof (Z.div_mod (- n) 1024 ltac:(lia)) as E1.
  pose proof (Z.mod_pos_bound (- n) 1024 ltac:(lia)) as B1.
  pose proof (Z.div_mod (n + 1023) 1024 ltac:(lia)) as E2.
  pose proof (Z.mod_pos_bound (n + 1023) 1024 ltac:(lia)) as B2.
  lia.
Qed.

(** The [size] that [Serialize] computes, for a length that [float64] holds
    exactly. *)
Lemma Serialize_size (L : nat) :
  Z.of_nat L < 2 ^ 53 ->
  int_of_float64
    (math_Ceil (float64_of_int (Z.of_nat L) / inject_Z (Z.of_nat PacketDataSize))%Q)
  = Z.of_nat (ceil_div L PacketDataSize).
Proof.
  intros H; unfold math_Ceil, float64_of_int.
  rewrite int_of_float64_inject, round53_exact, Qceiling_div_1024 by lia.
  unfold ceil_div; change PacketDataSize with 1024%nat.
  rewrite Nat2Z.inj_div, Nat2Z.inj_add.
  reflexivity.
Qed.

(** ** Chunks *)

Section Chunks.
Variable d : nat.
Hypothesis d_pos : (0 < d)%nat.

Lemma pad_chunk_firstn data k :
  pad_chunk d data k
  = firstn d (skipn (k * d) data)
      ++ zeros (d - length (firstn d (skipn (k * d) data))).
Proof.
  unfold pad_chunk, sub; cbv zeta.
  assert (E : firstn (Nat.min ((k + 1) * d) (length data) - k * d)
                     (skipn (k * d) data)
              = firstn d (skipn (k * d) data)).
  { destruct (Nat.le_ge_cases ((k + 1) * d) (length data)) as [H|H].
    - rewrite Nat.min_l by lia. f_equal; lia.
    - rewrite Nat.min_r by lia.
      rewrite !firstn_all2; [reflexivity | |]; rewrite length_skipn; lia. }
  now rewrite E.
Qed.

Lemma pad_chunk_length data k : length (pad_chunk d data k) = d.
Proof.
  rewrite pad_chunk_firstn, length_app, zeros_length.
  pose proof (firstn_le_length d (skipn (k * d) data)).
  lia.
Qed.

Lemma pad_chunk_succ data k :
  pad_chunk d data (S k) = pad_chunk d (skipn d data) k.
Proof.
  rewrite !pad_chunk_firstn, skipn_skipn.
  now replace (k * d + d)%nat with (S k * d)%nat by lia.
Qed.

(** A full chunk is a plain block of the payload. *)
Lemma pad_chunk_full data k :
  ((k + 1) * d <= length data)%nat ->
  pad_chunk d data k = sub data (k * d) ((k + 1) * d).
Proof.
  intros H; unfold pad_chunk; cbv zeta.
  rewrite Nat.min_l, sub_length by lia.
  replace (d - ((k + 1) * d - k * d))%nat with 0%nat by lia.
  apply app_nil_r.
Qed.

(** The last chunk is the rest of the payload and its padding. *)
Lemma pad_chunk_last data k :
  (k * d <= length data)%nat -> (length data <= (k + 1) * d)%nat ->
  pad_chunk d data k
  = sub data (k * d) (length data) ++ zeros (d - (length data - k * d)).
Proof.
  intros H1 H2; unfold pad_chunk; cbv zeta.
  rewrite Nat.min_r, sub_length by lia.
  reflexivity.
Qed.

(** Laid end to end, the chunks are the payload followed by its padding. *)
Lemma concat_pad_chunks c : forall data,
  (length data <= c * d)%nat -> (c * d < length data + d)%nat ->
  concat (map (pad_chunk d data) (seq 0 c))
  = data ++ zeros (c * d - length data).
Proof.
  induction c as [|c IH]; intros data H1 H2.
  - destruct data; [reflexivity | cbn [length] in H1; lia].
  - cbn [seq map concat].
    rewrite <- seq_shift, map_map.
    rewrite (map_ext _ _ (fun k => pad_chunk_succ data k)).
    rewrite pad_chunk_firstn; cbn [Nat.mul skipn].
    destruct (Nat.le_gt_cases (length data) d) as [Hle|Hgt].
    + assert (c = 0%nat) by nia; subst c; cbn [seq map concat].
      rewrite firstn_all2, app_nil_r by lia.
      f_equal; f_equal; lia.
    + rewrite IH by (rewrite length_skipn; nia).
      rewrite length_firstn, Nat.min_l, Nat.sub_diag by lia; cbn [zeros repeat app].
      rewrite app_nil_r, app_assoc, firstn_skipn, length_skipn.
      f_equal; f_equal; nia.
Qed.
End Chunks.

Lemma copy_zeros_pad n (src : list byte) :
  (length src <= n)%nat -> copy (zeros n) src = src ++ zeros (n - length src).
Proof.
  intros H.
  rewrite copy_shorter by (now rewrite zeros_length).
  f_equal; unfold zeros.
  replace n with (length src + (n - length src))%nat at 1 by lia.
  rewrite repeat_app, skipn_app, repeat_length, Nat.sub_diag.
  rewrite skipn_all2 by (now rewrite repeat_length).
  reflexivity.
Qed.

(** ** [Serialize] *)

Lemma slice_ok {A : Type} (a : list A) (lo hi : nat) :
  (lo <= hi)%nat -> (hi <= length a)%nat ->
  slice a (Z.of_nat lo) (Z.of_nat hi) = Ok (sub a lo hi).
Proof.
  intros H1 H2; unfold slice, len.
  replace ((0 <=? Z.of_nat lo) && (Z.of_nat lo <=? Z.of_nat hi)
           && (Z.of_nat hi <=? Z.of_nat (length a))) with true.
  - now rewrite !Nat2Z.id.
  - symmetry; rewrite !andb_true_iff, !Z.leb_le; lia.
Qed.

Lemma PacketDataSize_pos : (0 < PacketDataSize)%nat.
Proof. unfold PacketDataSize; lia. Qed.

Lemma packet_of_typed size data k : packet_typed (packet_of size data k).
Proof.
  unfold packet_typed, packet_of; cbn [Size Sequence Data].
  repeat split.
  apply pad_chunk_length, PacketDataSize_pos.
Qed.

Lemma Serialize_loop_spec data count :
  count = ceil_div (length data) PacketDataSize ->
  forall remaining k packets,
    (k + remaining = count)%nat ->
    Serialize_loop data (Z.of_nat count) remaining (Z.of_nat k) packets
    = Ok (packets ++ map (packet_of (Z.of_nat count) data) (seq k remaining)).
Proof.
  intros Hcount.
  pose proof PacketDataSize_pos as Hd.
  destruct (ceil_div_bracket (length data) PacketDataSize Hd) as [B1 B2].
  rewrite <- Hcount in B1, B2.
  induction remaining as [|remaining IH]; intros k packets Hk;
    cbn [Serialize_loop seq map].
  - now rewrite app_nil_r.
  - assert (E : (if Z.of_nat k =? Z.of_nat count - 1
                 then src <- slice data (Z.of_nat k * Z.of_nat PacketDataSize)
                                        (len data) ;;
                      Ok (copy (zeros PacketDataSize) src)
                 else src <- slice data (Z.of_nat k * Z.of_nat PacketDataSize)
                                        ((Z.of_nat k + 1) * Z.of_nat PacketDataSize) ;;
                      Ok (copy (zeros PacketDataSize) src))
                = Ok (chunk data k)).
    { replace (Z.of_nat k + 1) with (Z.of_nat (k + 1)) by lia.
      rewrite <- !Nat2Z.inj_mul; unfold len, chunk.
      destruct (Z.eqb_spec (Z.of_nat k) (Z.of_nat count - 1)) as [Hlast|Hmid].
      - assert (count = (k + 1)%nat) by lia; subst count.
        rewrite slice_ok by lia; cbn [bind].
        rewrite copy_zeros_pad by (rewrite sub_length; lia).
        rewrite pad_chunk_last, sub_length by lia.
        reflexivity.
      - assert ((k + 1) * PacketDataSize <= length data)%nat by nia.
        rewrite slice_ok by lia; cbn [bind].
        rewrite copy_same_length by (rewrite zeros_length, sub_length; lia).
        now rewrite pad_chunk_full by lia. }
    rewrite E; cbn [bind].
    rewrite NewPacket_ok; cbn [bind].
    replace (Z.of_nat k + 1) with (Z.of_nat (S k)) by lia.
    rewrite IH by lia.
    now rewrite <- app_assoc.
Qed.

Lemma Serialize_spec data :
  len data < 2 ^ 53 ->
  Serialize data
  = Ok (map (packet_of (Z.of_nat (ceil_div (length data) PacketDataSize)) data)
            (seq 0 (ceil_div (length data) PacketDataSize))).
Proof.
  intros H; unfold Serialize.
  unfold len in *; rewrite Serialize_size by exact H.
  rewrite Nat2Z.id.
  now rewrite (Serialize_loop_spec data _ eq_refl _ 0%nat []).
Qed.

(** ** [Deserialize] *)

Lemma Deserialize_loop_spec packets :
  Forall packet_typed packets ->
  forall done,
    Deserialize_loop packets
      (done ++ zeros (length packets * PacketDataSize)) (len done)
    = Ok (done ++ concat (map Data packets)).
Proof.
  induction 1 as [|p packets Hp _ IH]; intros done;
    cbn [Deserialize_loop length map concat Nat.mul].
  - reflexivity.
  - destruct Hp as (_ & _ & Hdata).
    rewrite zeros_add.
    unfold copy_slice, len.
    rewrite <- Nat2Z.inj_add.
    rewrite slice_ok by (rewrite ?length_app, ?zeros_length; lia).
    cbn [bind]; rewrite !Nat2Z.id.
    pose proof (sub_app_mid done (zeros PacketDataSize)
                  (zeros (length packets * PacketDataSize))) as E1.
    pose proof (set_sub_app_mid done (zeros PacketDataSize)
                  (zeros (length packets * PacketDataSize))) as E2.
    rewrite zeros_length in E1, E2.
    rewrite E1, E2, copy_same_length by (now rewrite zeros_length).
    specialize (IH (done ++ Data p)).
    unfold len in IH; rewrite length_app, Hdata, <- !app_assoc in IH.
    exact IH.
Qed.

Lemma Deserialize_spec packets :
  Forall packet_typed packets ->
  Deserialize packets = Ok (concat (map Data packets)).
Proof.
  intros H; unfold Deserialize, len.
  rewrite <- Nat2Z.inj_mul, Nat2Z.id.
  exact (Deserialize_loop_spec packets H []).
Qed.

Lemma length_concat_Data packets :
  Forall packet_typed packets ->
  length (concat (map Data packets)) = (length packets * PacketDataSize)%nat.
Proof.
  induction 1 as [|p packets Hp _ IH]; [reflexivity|].
  destruct Hp as (_ & _ & Hdata).
  cbn [map concat length Nat.mul].
  rewrite length_app, Hdata, IH.
  reflexivity.
Qed.

(** C7.  [Deserialize] lays the [Data] blocks end to end in the order of the
    argument, whatever the [Size] and [Sequence] fields hold, and the buffer
    it returns has [len(packets) * 1024] bytes. *)
Theorem Deserialize_concat_in_order (packets : list Packet) :
  Forall packet_typed packets ->
  exists buf,
    Deserialize packets = Ok buf /\
    buf = concat (map Data packets) /\
    length buf = (length packets * 1024)%nat.
Proof.
  intros H.
  exists (concat (map Data packets)); repeat split.
  - now apply Deserialize_spec.
  - now apply length_concat_Data.
Qed.

Lemma Deserialize_concat_in_order_witness :
  let p1 := mkPacket (PutUint32 2) (PutUint32 1) (repeat Byte.x62 1024) in
  let p0 := mkPacket (PutUint32 2) (PutUint32 0) (repeat Byte.x61 1024) in
  Forall packet_typed [p1; p0] /\
  exists buf,
    Deserialize [p1; p0] = Ok buf /\
    buf = concat (map Data [p1; p0]) /\
    length buf = (length [p1; p0] * 1024)%nat.
Proof.
  assert (H : Forall packet_typed
                [mkPacket (PutUint32 2) (PutUint32 1) (repeat Byte.x62 1024);
                 mkPacket (PutUint32 2) (PutUint32 0) (repeat Byte.x61 1024)])
    by (repeat constructor).
  split; [exact H | exact (Deserialize_concat_in_order _ H)].
Defined.

(** ** Round trip through the serializer *)

Lemma map_Data_packet_of size data l :
  map Data (map (packet_of size data) l) = map (chunk data) l.
Proof. rewrite map_map; reflexivity. Qed.

Lemma Forall_packet_of size data l :
  Forall packet_typed (map (packet_of size data) l).
Proof.
  apply Forall_forall; intros p Hp.
  apply in_map_iff in Hp as (k & <- & _).
  apply packet_of_typed.
Qed.

(** C1.  For a payload of [L] bytes, [Deserialize (Serialize payload)]
    succeeds with a buffer of [ceil(L/1024) * 1024] bytes: the payload,
    followed by zero bytes only, fewer than 1024 of them.  ([L < 2^53]: the
    lengths [float64] represents exactly; no Go slice is longer.) *)
Theorem Deserialize_Serialize_padding (payload : list byte) :
  len payload < 2 ^ 53 ->
  exists packets buf,
    Serialize payload = Ok packets /\
    Deserialize packets = Ok buf /\
    length buf = (ceil_div (length payload) 1024 * 1024)%nat /\
    firstn (length payload) buf = payload /\
    skipn (length payload) buf = zeros (length buf - length payload) /\
    (length buf - length payload < 1024)%nat.
Proof.
  intros H.
  pose proof PacketDataSize_pos as Hd.
  destruct (ceil_div_bracket (length payload) PacketDataSize Hd) as [B1 B2].
  set (count := ceil_div (length payload) PacketDataSize) in *.
  assert (E : concat (map (chunk payload) (seq 0 count))
              = payload ++ zeros (count * PacketDataSize - length payload))
    by (apply concat_pad_chunks; assumption).
  exists (map (packet_of (Z.of_nat count) payload) (seq 0 count)).
  exists (payload ++ zeros (count * PacketDataSize - length payload)).
  assert (Hlen : length (payload ++ zeros (count * PacketDataSize - length payload))
                 = (count * PacketDataSize)%nat)
    by (rewrite length_app, zeros_length; lia).
  split; [now apply Serialize_spec|].
  split.
  { rewrite Deserialize_spec by apply Forall_packet_of.
    now rewrite map_Data_packet_of, E. }
  rewrite Hlen.
  change (ceil_div (length payload) 1024) with count.
  change 1024%nat with PacketDataSize.
  repeat split.
  - rewrite firstn_app, firstn_all, Nat.sub_diag; cbn [firstn].
    apply app_nil_r.
  - rewrite skipn_app, skipn_all, Nat.sub_diag; reflexivity.
  - lia.
Qed.

Lemma Deserialize_Serialize_padding_witness :
  let payload := repeat Byte.x61 2500 in
  len payload < 2 ^ 53 /\
  exists packets buf,
    Serialize payload = Ok packets /\
    Deserialize packets = Ok buf /\
    length buf = (ceil_div (length payload) 1024 * 1024)%nat /\
    firstn (length payload) buf = payload /\
    skipn (length payload) buf = zeros (length buf - length payload) /\
    (length buf - length payload < 1024)%nat.
Proof.
  assert (H : len (repeat Byte.x61 2500) < 2 ^ 53) by (vm_compute; reflexivity).
  split; [exact H | exact (Deserialize_Serialize_padding _ H)].
Defined.

(** ** Chunking *)

Lemma nth_error_map_seq {A : Type} (f : nat -> A) n i :
  (i < n)%nat -> nth_error (map f (seq 0 n)) i = Some (f i).
Proof.
  intros H.
  rewrite nth_error_map, nth_error_seq.
  destruct (Nat.ltb_spec i n); [reflexivity | lia].
Qed.

Lemma GetSize_packet_of size data k :
  GetSize (packet_of size data k) = Ok (size mod 2 ^ 32).
Proof.
  destruct (GetSize_GetSequence_fields (packet_of size data k)
              (packet_of_typed size data k)) as [E _].
  rewrite E; cbn [packet_of Size].
  rewrite le_value_PutUint32; unfold uint32.
  now rewrite Z.mod_mod by lia.
Qed.

Lemma GetSequence_packet_of size data k :
  GetSequence (packet_of size data k) = Ok (Z.of_nat k mod 2 ^ 32).
Proof.
  destruct (GetSize_GetSequence_fields (packet_of size data k)
              (packet_of_typed size data k)) as [_ E].
  rewrite E; cbn [packet_of Sequence].
  rewrite le_value_PutUint32; unfold uint32.
  now rewrite Z.mod_mod by lia.
Qed.

(** C2, as amended.  For a payload of at most [1024 * (2^32 - 1)] bytes, so
    that the packet count fits the four-byte field, [Serialize] returns
    [ceil(L/1024)] packets (none for the empty payload); packet [i] has
    sequence number [i], size [count] and chunk [i] of the payload, padded with
    zeros, as its data. *)
Theorem Serialize_chunking (payload : list byte) :
  len payload <= 1024 * (2 ^ 32 - 1) ->
  chunking payload.
Proof.
  intros H; unfold chunking; cbv zeta.
  change 1024%nat with PacketDataSize.
  pose proof PacketDataSize_pos as Hd.
  destruct (ceil_div_bracket (length payload) PacketDataSize Hd) as [B1 B2].
  set (count := ceil_div (length payload) PacketDataSize) in *.
  assert (Hc : Z.of_nat count < 2 ^ 32).
  { unfold len in H; change PacketDataSize with 1024%nat in *. lia. }
  exists (map (packet_of (Z.of_nat count) payload) (seq 0 count)).
  split; [apply Serialize_spec; unfold len in *; lia|].
  split; [now rewrite length_map, length_seq|].
  intros i Hi.
  exists (packet_of (Z.of_nat count) payload i).
  split; [now apply nth_error_map_seq|].
  rewrite GetSequence_packet_of, GetSize_packet_of.
  rewrite !Z.mod_small by lia.
  repeat split.
Qed.

Lemma Serialize_chunking_witness :
  let payload := repeat Byte.x61 2500 in
  len payload <= 1024 * (2 ^ 32 - 1) /\ chunking payload.
Proof.
  assert (H : len (repeat Byte.x61 2500) <= 1024 * (2 ^ 32 - 1))
    by (vm_compute; discriminate).
  split; [exact H | exact (Serialize_chunking _ H)].
Defined.

(** C2, as stated, fails for a payload of [2^42 + 1] bytes: it makes
    [2^32 + 1] packets, and the [Size] field of each reads 1. *)
Lemma chunking_fails_when_count_wraps (payload : list byte) :
  Z.of_nat (length payload) = 2 ^ 42 + 1 -> ~ chunking payload.
Proof.
  intros HL; unfold chunking; cbv zeta.
  change 1024%nat with PacketDataSize.
  assert (Hc : Z.of_nat (ceil_div (length payload) PacketDataSize) = 2 ^ 32 + 1).
  { unfold ceil_div.
    rewrite Nat2Z.inj_div, Nat2Z.inj_add, HL.
    reflexivity. }
  assert (Hpos : (0 < ceil_div (length payload) PacketDataSize)%nat) by lia.
  intros (packets & HS & _ & Hall).
  rewrite Serialize_spec in HS by (unfold len; rewrite HL; lia).
  apply Ok_inj in HS; subst packets.
  destruct (Hall 0%nat Hpos) as (p & Hp & _ & Hsize & _).
  rewrite nth_error_map_seq in Hp by exact Hpos.
  assert (p = packet_of (Z.of_nat (ceil_div (length payload) PacketDataSize))
                        payload 0) by congruence.
  subst p.
  rewrite GetSize_packet_of, Hc in Hsize.
  apply Ok_inj in Hsize.
  change ((2 ^ 32 + 1) mod 2 ^ 32) with 1 in Hsize.
  discriminate Hsize.
Qed.

Lemma Serialize_chunking_fails_beyond_field :
  ~ chunking (zeros (Z.to_nat (2 ^ 42 + 1))).
Proof.
  apply chunking_fails_when_count_wraps.
  rewrite zeros_length.
  apply Z2Nat.id.
  discriminate.
Qed.

(** ** The scenarios of the spec, evaluated *)

(** A payload of 2500 bytes: three packets, numbered 0, 1, 2, each of size
    3; back through [Deserialize], 3072 bytes: the payload and 572 zeros. *)
Example scenario_2500_bytes :
  let payload := repeat Byte.x61 2500 in
  match Serialize payload with
  | Ok packets =>
      map GetSequence packets = [Ok 0; Ok 1; Ok 2] /\
      map GetSize packets = [Ok 3; Ok 3; Ok 3] /\
      Deserialize packets = Ok (payload ++ zeros 572)
  | Err _ => False
  end.
Proof. vm_compute; repeat split. Qed.

(** A payload of exactly 1024 bytes: one packet, no padding. *)
Example scenario_1024_bytes :
  let payload := repeat Byte.x61 1024 in
  Serialize payload = Ok [mkPacket (PutUint32 1) (PutUint32 0) payload].
Proof. vm_compute; reflexivity. Qed.

(** The empty payload: no packet, and an empty buffer back. *)
Example scenario_empty :
  Serialize [] = Ok [] /\ Deserialize [] = Ok [].
Proof. split; reflexivity. Qed.

(** ** Protocol constants *)

(** C8.  The constants have the values the protocol fixes: the stream
    prefixes are the letters q and s, the delimiter is byte 4 (and the string
    made of that byte), the four data-type tags, the two status codes, the two
    messages, and the server's reserved user name. *)
Theorem protocol_constants :
  RequestPrefix = 113 /\ ascii_of_nat (Z.to_nat RequestPrefix) = "q"%char /\
  ResponsePrefix = 115 /\ ascii_of_nat (Z.to_nat ResponsePrefix) = "s"%char /\
  ByteDelim = Byte.x04 /\ byte.unsigned ByteDelim = 4 /\
  StringDelim = String (ascii_of_nat 4) EmptyString /\
  TypeIdentity = "IDENTITY"%string /\
  TypeDigest = "DIGEST"%string /\
  TypeSyncRequest = "SYNC-REQUEST"%string /\
  TypeFile = "FILE"%string /\
  StatusOK = 200 /\ StatusBad = 400 /\
  MessageAccept = "ACCEPT"%string /\
  MessageDeny = "DENY"%string /\
  SyncboxServerUsernam = "SYNCBOX-SERVER"%string.
Proof. repeat split. Qed.

(** ** UTF-8 sequences *)

Ltac arith :=
  repeat match goal with
         | |- context [Z.shiftl ?a ?k] => rewrite (Z.shiftl_mul_pow2 a k) by lia
         | |- context [Z.shiftr ?a ?k] => rewrite (Z.shiftr_div_pow2 a k) by lia
         end.

Section Utf8Facts.
Import utf8.

Lemma lor_disjoint_add a b k :
  0 <= k -> 0 <= b < 2 ^ k -> a mod 2 ^ k = 0 -> Z.lor a b = a + b.
Proof.
  intros Hk Hb Ha.
  apply or_to_plus.
  apply Z.bits_inj'; intros i Hi.
  rewrite Z.land_spec, Z.bits_0.
  destruct (Z.lt_ge_cases i k) as [Hlt|Hge].
  - rewrite <- (Z.mod_pow2_bits_low a k i) by lia.
    now rewrite Ha, Z.bits_0.
  - rewrite <- (Z.mod_small b (2 ^ k)) by lia.
    rewrite Z.mod_pow2_bits_high by lia.
    apply andb_false_r.
Qed.

Lemma land_mask x m k : 0 <= k -> m = 2 ^ k - 1 -> Z.land x m = x mod 2 ^ k.
Proof.
  intros Hk ->.
  rewrite <- Z.land_ones by lia.
  now rewrite Z.ones_equiv, <- Z.sub_1_r.
Qed.

Lemma of_Z_eq (b : byte) v : v mod 2 ^ 8 = byte.unsigned b -> byte.of_Z v = b.
Proof.
  intros H; apply byte.unsigned_inj.
  now rewrite byte.unsigned_of_Z.
Qed.

Section Runes.
  Variables x0 x1 x2 x3 : Z.

Lemma rune2_arith :
  0xC2 <= x0 <= 0xDF -> locb <= x1 <= hicb ->
  Z.lor (Z.shiftl (Z.land x0 mask2) 6) (Z.land x1 maskx)
  = (x0 - 0xC0) * 64 + (x1 - 0x80).
Proof.
  unfold locb, hicb, mask2, maskx; intros H0 H1.
  rewrite (land_mask x0 _ 5), (land_mask x1 _ 6) by (reflexivity || lia).
  arith.
  rewrite (lor_disjoint_add _ _ 6); Z.div_mod_to_equations; lia.
Qed.

Lemma rune3_arith :
  0xE0 <= x0 <= 0xEF -> locb <= x1 <= hicb -> locb <= x2 <= hicb ->
  Z.lor (Z.lor (Z.shiftl (Z.land x0 mask3) 12) (Z.shiftl (Z.land x1 maskx) 6))
        (Z.land x2 maskx)
  = (x0 - 0xE0) * 4096 + (x1 - 0x80) * 64 + (x2 - 0x80).
Proof.
  unfold locb, hicb, mask3, maskx; intros H0 H1 H2.
  rewrite (land_mask x0 _ 4), (land_mask x1 _ 6), (land_mask x2 _ 6)
    by (reflexivity || lia).
  arith.
  rewrite (lor_disjoint_add (x0 mod 2 ^ 4 * 2 ^ 12) _ 12)
    by (Z.div_mod_to_equations; lia).
  rewrite (lor_disjoint_add _ _ 6); Z.div_mod_to_equations; lia.
Qed.

Lemma rune4_arith :
  0xF0 <= x0 <= 0xF4 -> locb <= x1 <= hicb -> locb <= x2 <= hicb ->
  locb <= x3 <= hicb ->
  Z.lor (Z.lor (Z.lor (Z.shiftl (Z.land x0 mask4) 18)
                      (Z.shiftl (Z.land x1 maskx) 12))
               (Z.shiftl (Z.land x2 maskx) 6))
        (Z.land x3 maskx)
  = (x0 - 0xF0) * 262144 + (x1 - 0x80) * 4096 + (x2 - 0x80) * 64 + (x3 - 0x80).
Proof.
  unfold locb, hicb, mask4, maskx; intros H0 H1 H2 H3.
  rewrite (land_mask x0 _ 3), (land_mask x1 _ 6), (land_mask x2 _ 6),
    (land_mask x3 _ 6) by (reflexivity || lia).
  arith.
  rewrite (lor_disjoint_add (x0 mod 2 ^ 3 * 2 ^ 18) _ 18)
    by (Z.div_mod_to_equations; lia).
  rewrite (lor_disjoint_add _ (x2 mod 2 ^ 6 * 2 ^ 6) 12)
    by (Z.div_mod_to_equations; lia).
  rewrite (lor_disjoint_add _ _ 6); Z.div_mod_to_equations; lia.
Qed.
End Runes.

Ltac split_if :=
  cbn [orb andb];
  match goal with
  | |- context [if ?a <? ?b then _ else _] => destruct (Z.ltb_spec a b)
  | |- context [if ?a <=? ?b then _ else _] => destruct (Z.leb_spec a b)
  | |- context [if ?a =? ?b then _ else _] => destruct (Z.eqb_spec a b)
  | |- context [(?a <? ?b) || _] => destruct (Z.ltb_spec a b)
  | |- context [(?a <=? ?b) && _] => destruct (Z.leb_spec a b)
  | |- context [(?a <=? ?b) || _] => destruct (Z.leb_spec a b)
  end;
  cbn [orb andb].

Lemma DecodeRune_complete bs r q :
  rune_seq bs r -> DecodeRune (bs ++ q) = (r, length bs).
Proof.
  destruct 1 as [b H0 | b0 b1 H0 H1 | b0 b1 b2 H0 H1 H2 Ha Hb
                | b0 b1 b2 b3 H0 H1 H2 H3 Ha Hb];
    unfold cont, locb, hicb, RuneSelf in *;
    cbn [app DecodeRune length].
  - pose proof (byte.unsigned_range b).
    unfold first; repeat (split_if; try lia); reflexivity.
  - unfold first, locb, hicb; repeat (split_if; try lia).
    cbn [Nat.ltb Nat.leb Nat.leb length].
    repeat (split_if; try lia).
    now rewrite rune2_arith.
  - unfold first, locb, hicb; repeat (split_if; try lia);
      cbn [Nat.ltb Nat.leb length]; repeat (split_if; try lia);
      now rewrite rune3_arith.
  - unfold first, locb, hicb; repeat (split_if; try lia);
      cbn [Nat.ltb Nat.leb length]; repeat (split_if; try lia);
      now rewrite rune4_arith.
Qed.

Lemma DecodeRune_sound p r size :
  DecodeRune p = (r, size) -> p <> [] ->
  (r = RuneError /\ size = 1%nat) \/
  (exists bs q, p = bs ++ q /\ length bs = size /\ rune_seq bs r).
Proof.
  intros H Hp; revert H.
  destruct p as [|b0 p]; [congruence|clear Hp].
  pose proof (byte.unsigned_range b0) as R0.
  cbn [DecodeRune]; unfold first, locb, hicb.
  repeat (split_if; try lia);
    try (intros [= <- <-]; left; split; reflexivity);
    try (intros [= <- <-]; right; exists [b0], p; repeat split;
         constructor; unfold RuneSelf; lia).
  all: destruct p as [|b1 p];
    cbn [length Nat.ltb Nat.leb]; try (intros [= <- <-]; left; split; reflexivity).
  all: repeat (split_if; try lia);
    try (intros [= <- <-]; left; split; reflexivity).
  all: try (rewrite rune2_arith by (unfold locb, hicb; lia);
            intros [= <- <-]; right; exists [b0; b1], p; repeat split;
            constructor; unfold cont, locb, hicb; lia).
  all: destruct p as [|b2 p];
    cbn [length Nat.ltb Nat.leb]; try (intros [= <- <-]; left; split; reflexivity).
  all: repeat (split_if; try lia);
    try (intros [= <- <-]; left; split; reflexivity).
  all: try (rewrite rune3_arith by (unfold locb, hicb; lia);
            intros [= <- <-]; right; exists [b0; b1; b2], p; repeat split;
            constructor; unfold cont, locb, hicb; lia).
  all: destruct p as [|b3 p];
    cbn [length Nat.ltb Nat.leb]; try (intros [= <- <-]; left; split; reflexivity).
  all: repeat (split_if; try lia);
    try (intros [= <- <-]; left; split; reflexivity).
  all: rewrite rune4_arith by (unfold locb, hicb; lia);
    intros [= <- <-]; right; exists [b0; b1; b2; b3], p; repeat split;
    constructor; unfold cont, locb, hicb; lia.
Qed.

Lemma rune_seq_range bs r :
  rune_seq bs r ->
  0 <= r <= MaxRune /\ ~ (0xD800 <= r <= 0xDFFF) /\
  (length bs = 1%nat -> r < RuneSelf) /\
  (length bs = 2%nat -> 0x80 <= r <= 0x7FF) /\
  (length bs = 3%nat -> 0x800 <= r <= 0xFFFF) /\
  (length bs = 4%nat -> 0x10000 <= r).
Proof.
  destruct 1 as [b H0 | b0 b1 H0 H1 | b0 b1 b2 H0 H1 H2 Ha Hb
                | b0 b1 b2 b3 H0 H1 H2 H3 Ha Hb];
    unfold cont, locb, hicb, RuneSelf, MaxRune in *; cbn [length].
  - pose proof (byte.unsigned_range b); lia.
  - lia.
  - assert (u b0 = 0xE0 \/ u b0 = 0xED \/ (u b0 <> 0xE0 /\ u b0 <> 0xED)) as [E|[E|E]]
      by lia; [specialize (Ha E) | specialize (Hb E) | ]; lia.
  - assert (u b0 = 0xF0 \/ u b0 = 0xF4 \/ (u b0 <> 0xF0 /\ u b0 <> 0xF4)) as [E|[E|E]]
      by lia; [specialize (Ha E) | specialize (Hb E) | ]; lia.
Qed.

Lemma enc_lead t r k j (b : byte) :
  0 <= k -> 0 <= j -> t mod 2 ^ j = 0 -> 0 <= r / 2 ^ k < 2 ^ j ->
  t + r / 2 ^ k = u b ->
  byte.of_Z (Z.lor t (Z.shiftr r k)) = b.
Proof.
  intros Hk Hj Ht Hr E.
  apply of_Z_eq.
  rewrite Z.shiftr_div_pow2, (lor_disjoint_add _ _ j), E by lia.
  apply Z.mod_small, byte.unsigned_range.
Qed.

Lemma enc_cont r k (b : byte) :
  0 <= k -> cont b -> (r / 2 ^ k) mod 64 = u b - 0x80 ->
  byte.of_Z (Z.lor tx (Z.land (Z.shiftr r k) maskx)) = b.
Proof.
  unfold cont, locb, hicb, tx, maskx; intros Hk Hb E.
  apply of_Z_eq.
  rewrite (land_mask _ _ 6), Z.shiftr_div_pow2 by (reflexivity || lia).
  change (2 ^ 6) with 64; rewrite E.
  rewrite (lor_disjoint_add _ _ 7) by (try reflexivity; lia).
  replace (128 + (u b - 128)) with (u b) by lia.
  apply Z.mod_small, byte.unsigned_range.
Qed.

Lemma enc_cont0 r (b : byte) :
  cont b -> r mod 64 = u b - 0x80 ->
  byte.of_Z (Z.lor tx (Z.land r maskx)) = b.
Proof.
  intros Hb E.
  rewrite <- (Z.shiftr_0_r r).
  apply enc_cont; [lia | assumption |].
  now rewrite Z.pow_0_r, Z.div_1_r.
Qed.

Lemma split2 a b :
  0 <= a < 32 -> 0 <= b < 64 ->
  (a * 64 + b) / 2 ^ 6 = a /\ (a * 64 + b) mod 64 = b.
Proof. intros; change (2 ^ 6) with 64; Z.div_mod_to_equations; lia. Qed.

Lemma split3 a b c :
  0 <= a < 16 -> 0 <= b < 64 -> 0 <= c < 64 ->
  (a * 4096 + b * 64 + c) / 2 ^ 12 = a /\
  ((a * 4096 + b * 64 + c) / 2 ^ 6) mod 64 = b /\
  (a * 4096 + b * 64 + c) mod 64 = c.
Proof.
  intros; change (2 ^ 12) with 4096; change (2 ^ 6) with 64.
  Z.div_mod_to_equations; lia.
Qed.

Lemma split4 a b c d :
  0 <= a < 8 -> 0 <= b < 64 -> 0 <= c < 64 -> 0 <= d < 64 ->
  (a * 262144 + b * 4096 + c * 64 + d) / 2 ^ 18 = a /\
  ((a * 262144 + b * 4096 + c * 64 + d) / 2 ^ 12) mod 64 = b /\
  ((a * 262144 + b * 4096 + c * 64 + d) / 2 ^ 6) mod 64 = c /\
  (a * 262144 + b * 4096 + c * 64 + d) mod 64 = d.
Proof.
  intros; change (2 ^ 18) with 262144; change (2 ^ 12) with 4096;
    change (2 ^ 6) with 64.
  Z.div_mod_to_equations; lia.
Qed.

Ltac enc_byte t k j E0 Ea Eb Ec :=
  lazymatch goal with
  | |- [] = [] => reflexivity
  | |- byte.of_Z (Z.lor t _) = _ =>
      apply (enc_lead _ _ k j); cbv [t]; rewrite ?E0;
      try (match goal with |- _ mod _ = _ => reflexivity end); lia
  | |- byte.of_Z (Z.lor tx (Z.land (Z.shiftr _ 12) _)) = _ =>
      apply enc_cont; [lia | assumption | exact Ea]
  | |- byte.of_Z (Z.lor tx (Z.land (Z.shiftr _ 6) _)) = _ =>
      apply enc_cont; [lia | assumption | exact Eb]
  | |- byte.of_Z (Z.lor tx (Z.land _ _)) = _ =>
      apply enc_cont0; [assumption | exact Ec]
  end.

Lemma EncodeRune_rune_seq bs r : rune_seq bs r -> EncodeRune r = bs.
Proof.
  intros H; pose proof (rune_seq_range bs r H) as (R & Hs & R1 & R2 & R3 & R4).
  unfold EncodeRune, MaxRune, RuneSelf in *.
  rewrite (Z.mod_small r) by lia.
  destruct H as [b H0 | b0 b1 H0 H1 | b0 b1 b2 H0 H1 H2 Ha Hb
                | b0 b1 b2 b3 H0 H1 H2 H3 Ha Hb]; cbn [length] in *.
  - specialize (R1 eq_refl).
    repeat (split_if; try lia).
    f_equal; apply of_Z_eq, Z.mod_small, byte.unsigned_range.
  - specialize (R2 eq_refl).
    pose proof H1 as H1'; unfold cont, locb, hicb in H1'.
    destruct (split2 (u b0 - 192) (u b1 - 128)) as (E0 & E1); try lia.
    repeat (split_if; try lia);
      repeat apply (f_equal2 cons); enc_byte t2 6 6 E0 E1 E1 E1.
  - specialize (R3 eq_refl).
    pose proof H1 as H1'; pose proof H2 as H2'; unfold cont, locb, hicb in H1', H2'.
    destruct (split3 (u b0 - 224) (u b1 - 128) (u b2 - 128)) as (E0 & E1 & E2);
      try lia.
    repeat (split_if; try lia);
      repeat apply (f_equal2 cons); enc_byte t3 12 4 E0 E1 E1 E2.
  - specialize (R4 eq_refl).
    pose proof H1 as H1'; pose proof H2 as H2'; pose proof H3 as H3';
      unfold cont, locb, hicb in H1', H2', H3'.
    destruct (split4 (u b0 - 240) (u b1 - 128) (u b2 - 128) (u b3 - 128))
      as (E0 & E1 & E2 & E3); try lia.
    repeat (split_if; try lia);
      repeat apply (f_equal2 cons); enc_byte t4 18 3 E0 E1 E2 E3.
Qed.

End Utf8Facts.

(** ** Strings of valid UTF-8 *)

Lemma rune_seq_length bs r : rune_seq bs r -> (1 <= length bs <= 4)%nat.
Proof. destruct 1; cbn [length]; lia. Qed.

Lemma utf8_ValidLoop_sound fuel : forall p,
  utf8.ValidLoop fuel p = true -> utf8_valid p.
Proof.
  induction fuel as [|fuel IH]; intros [|b p] H; try apply utf8_valid_nil;
    cbn [utf8.ValidLoop] in H; try discriminate.
  destruct (utf8.DecodeRune (b :: p)) as [r size] eqn:E.
  destruct (DecodeRune_sound _ _ _ E ltac:(discriminate))
    as [[-> ->] | (bs & q & Hp & Hlen & Hseq)].
  - discriminate H.
  - destruct ((r =? utf8.RuneError) && (size =? 1)%nat); [discriminate|].
    rewrite Hp in *; subst size.
    rewrite skipn_app, skipn_all, Nat.sub_diag in H; cbn [skipn app] in H.
    econstructor; eauto.
Qed.

Lemma utf8_Valid_sound p : utf8.Valid p = true -> utf8_valid p.
Proof. apply utf8_ValidLoop_sound. Qed.

Lemma DecodeRune_firstn bs r q :
  rune_seq bs r ->
  utf8.DecodeRune (firstn utf8.UTFMax (bs ++ q)) = (r, length bs).
Proof.
  intros H; pose proof (rune_seq_length _ _ H) as L.
  unfold utf8.UTFMax.
  rewrite firstn_app, (firstn_all2 bs) by lia.
  now apply DecodeRune_complete.
Qed.

Lemma rune_seq_head bs r :
  rune_seq bs r ->
  exists b tl, bs = b :: tl /\
    ((tl = [] /\ u b < utf8.RuneSelf /\ r = u b) \/
     (tl <> [] /\ Forall (fun c => 0x80 <= u c) bs /\ 0x80 <= r)).
Proof.
  intros H; pose proof (rune_seq_range _ _ H) as (_ & _ & _ & R2 & R3 & R4).
  destruct H as [b H0 | b0 b1 H0 H1 | b0 b1 b2 H0 H1 H2 Ha Hb
                | b0 b1 b2 b3 H0 H1 H2 H3 Ha Hb];
    unfold cont, utf8.locb, utf8.hicb in *; cbn [length] in *;
    eexists; eexists; (split; [reflexivity|]).
  - left; auto.
  - right; repeat split; [discriminate | repeat constructor; lia | lia].
  - right; repeat split; [discriminate | repeat constructor; lia | lia].
  - right; repeat split; [discriminate | repeat constructor; lia | lia].
Qed.

(** ** JSON string literals *)

Lemma appendStringLoop_ascii f b s :
  u b < utf8.RuneSelf ->
  json.appendStringLoop (S f) (b :: s) = asciiOut b ++ json.appendStringLoop f s.
Proof.
  intros H; cbn [json.appendStringLoop].
  apply Z.ltb_lt in H; now rewrite H.
Qed.

Ltac eval_asciiOut :=
  repeat match goal with
         | |- context [asciiOut ?b] =>
             let t := eval vm_compute in (asciiOut b) in
             change (asciiOut b) with t
         end.

Lemma scanString_ascii b tail :
  u b < utf8.RuneSelf ->
  json.scanString (asciiOut b ++ tail)
  = match json.scanString tail with
    | Some (raw, rest) => Some (asciiOut b ++ raw, rest)
    | None => None
    end.
Proof.
  destruct b; intros H; try (exfalso; revert H; vm_compute; congruence);
    clear H; eval_asciiOut; cbn;
    destruct (json.scanString tail) as [[? ?]|]; reflexivity.
Qed.

Lemma unquoteLoop_ascii b f tail :
  u b < utf8.RuneSelf ->
  json.unquoteLoop (S f) (asciiOut b ++ tail)
  = option_map (cons b) (json.unquoteLoop f tail).
Proof.
  destruct b; intros H; try (exfalso; revert H; vm_compute; congruence);
    clear H; eval_asciiOut; cbn;
    destruct (json.unquoteLoop f tail); reflexivity.
Qed.

Lemma byte_eqb_neq (c d : byte) : c <> d -> Byte.eqb c d = false.
Proof.
  intros H; destruct (Byte.eqb c d) eqn:E; [|reflexivity].
  apply Byte.byte_dec_bl in E; contradiction.
Qed.

Lemma byte_eqb_refl (c : byte) : Byte.eqb c c = true.
Proof. now apply Byte.byte_dec_lb. Qed.

Lemma high_plain c : 0x80 <= u c -> plain c.
Proof.
  intros H; repeat split; try lia; intros ->; revert H; vm_compute; congruence.
Qed.

Lemma scanString_plain bs tail :
  Forall plain bs ->
  json.scanString (bs ++ tail)
  = match json.scanString tail with
    | Some (raw, rest) => Some (bs ++ raw, rest)
    | None => None
    end.
Proof.
  induction 1 as [|c bs (H1 & H2 & H3) _ IH]; cbn [app json.scanString].
  - now destruct (json.scanString tail) as [[? ?]|].
  - rewrite (byte_eqb_neq _ _ H2), (byte_eqb_neq _ _ H3), IH.
    destruct (Z.ltb_spec (u c) 0x20); [lia|].
    now destruct (json.scanString tail) as [[? ?]|].
Qed.

Lemma unquoteLoop_plain_ascii bs : forall f,
  Forall plain bs -> Forall (fun c => u c < utf8.RuneSelf) bs ->
  (length bs <= f)%nat ->
  json.unquoteLoop f bs = Some bs.
Proof.
  induction bs as [|c bs IH]; intros f Hp Ha Hf.
  - now destruct f.
  - destruct f as [|f]; [cbn [length] in Hf; lia|].
    inversion Hp as [|? ? (H1 & H2 & H3) Hp']; inversion Ha as [|? ? H4 Ha']; subst.
    cbn [json.unquoteLoop].
    rewrite (byte_eqb_neq _ _ H2), (byte_eqb_neq _ _ H3); cbn [orb].
    destruct (Z.ltb_spec (u c) 0x20); [lia|].
    destruct (Z.ltb_spec (u c) utf8.RuneSelf); [|lia].
    rewrite IH by (auto; cbn [length] in Hf; lia).
    reflexivity.
Qed.

Lemma appendStringLoop_multi f bs r s :
  rune_seq bs r -> (2 <= length bs)%nat ->
  json.appendStringLoop (S f) (bs ++ s) = multiOut bs r ++ json.appendStringLoop f s.
Proof.
  intros H L.
  pose proof (DecodeRune_firstn bs r s H) as D.
  destruct (rune_seq_head _ _ H) as (b & tl & -> & [(-> & _) | (_ & Hh & _)]);
    [cbn [length] in L; lia|].
  inversion Hh as [|? ? Hb _]; subst.
  cbn [app json.appendStringLoop].
  destruct (Z.ltb_spec (u b) utf8.RuneSelf); [unfold utf8.RuneSelf in *; lia|].
  change (b :: tl ++ s) with ((b :: tl) ++ s).
  rewrite D.
  replace (length (b :: tl) =? 1)%nat with false
    by (symmetry; apply Nat.eqb_neq; lia).
  rewrite andb_false_r.
  rewrite skipn_app, skipn_all, Nat.sub_diag, firstn_app, firstn_all, Nat.sub_diag.
  cbn [skipn firstn app]; rewrite app_nil_r.
  unfold multiOut.
  now destruct ((r =? 0x2028) || (r =? 0x2029)).
Qed.

Lemma multiOut_cases bs r :
  rune_seq bs r -> (2 <= length bs)%nat ->
  (multiOut bs r = bs /\ Forall (fun c => 0x80 <= u c) bs) \/
  (r = 0x2028 /\ multiOut bs r = ["\"; "u"; "2"; "0"; "2"; "8"]) \/
  (r = 0x2029 /\ multiOut bs r = ["\"; "u"; "2"; "0"; "2"; "9"]).
Proof.
  intros H L; unfold multiOut.
  destruct (Z.eqb_spec r 0x2028) as [->|]; [right; left; split; reflexivity|].
  destruct (Z.eqb_spec r 0x2029) as [->|]; [right; right; split; reflexivity|].
  left; split; [reflexivity|].
  destruct (rune_seq_head _ _ H) as (b & tl & -> & [(-> & _) | (_ & Hh & _)]);
    [cbn [length] in L; lia | exact Hh].
Qed.

Lemma scanString_multi bs r tail :
  rune_seq bs r -> (2 <= length bs)%nat ->
  json.scanString (multiOut bs r ++ tail)
  = match json.scanString tail with
    | Some (raw, rest) => Some (multiOut bs r ++ raw, rest)
    | None => None
    end.
Proof.
  intros H L.
  destruct (multiOut_cases bs r H L) as [(-> & Hh) | [(_ & ->) | (_ & ->)]].
  - apply scanString_plain.
    eapply Forall_impl; [|exact Hh]; apply high_plain.
  - cbn; now destruct (json.scanString tail) as [[? ?]|].
  - cbn; now destruct (json.scanString tail) as [[? ?]|].
Qed.

Lemma unquoteLoop_multi f bs r tail :
  rune_seq bs r -> (2 <= length bs)%nat ->
  json.unquoteLoop (S f) (multiOut bs r ++ tail)
  = option_map (app bs) (json.unquoteLoop f tail).
Proof.
  intros H L.
  pose proof (EncodeRune_rune_seq _ _ H) as E.
  destruct (multiOut_cases bs r H L) as [(-> & Hh) | [(-> & ->) | (-> & ->)]].
  - pose proof (DecodeRune_complete bs r tail H) as D.
    destruct bs as [|b tl]; [cbn [length] in L; lia|].
    inversion Hh as [|? ? Hb _]; subst.
    destruct (high_plain b Hb) as (H1 & H2 & H3).
    cbn [app json.unquoteLoop].
    rewrite (byte_eqb_neq _ _ H2), (byte_eqb_neq _ _ H3); cbn [orb].
    destruct (Z.ltb_spec (u b) 0x20); [lia|].
    destruct (Z.ltb_spec (u b) utf8.RuneSelf); [unfold utf8.RuneSelf in *; lia|].
    change (b :: tl ++ tail) with ((b :: tl) ++ tail).
    rewrite D, E, skipn_app, skipn_all, Nat.sub_diag.
    reflexivity.
  - cbn -[utf8.EncodeRune]; rewrite E; reflexivity.
  - cbn -[utf8.EncodeRune]; rewrite E; reflexivity.
Qed.

Lemma asciiOut_length b : u b < utf8.RuneSelf -> (1 <= length (asciiOut b))%nat.
Proof.
  destruct b; intros H; try (exfalso; revert H; vm_compute; congruence);
    vm_compute; lia.
Qed.

Lemma multiOut_length bs r :
  rune_seq bs r -> (2 <= length bs)%nat -> (1 <= length (multiOut bs r))%nat.
Proof.
  intros H L.
  destruct (multiOut_cases bs r H L) as [(-> & _) | [(_ & ->) | (_ & ->)]];
    cbn [length]; lia.
Qed.

(** The literal written for a valid string scans as one literal and unquotes
    to the string. *)
Lemma appendStringLoop_valid s :
  utf8_valid s ->
  forall f, (length s <= f)%nat ->
    (forall tail,
        json.scanString (json.appendStringLoop f s ++ dquote :: tail)
        = Some (json.appendStringLoop f s, tail)) /\
    (forall f', (length (json.appendStringLoop f s) <= f')%nat ->
        json.unquoteLoop f' (json.appendStringLoop f s) = Some s).
Proof.
  induction 1 as [|bs r rest Hseq Hrest IH]; intros f Hf.
  - assert (E : json.appendStringLoop f [] = []) by now destruct f.
    rewrite E; split.
    + intros tail; cbn [app json.scanString].
      now rewrite byte_eqb_refl.
    + intros f' _; now destruct f'.
  - pose proof (rune_seq_length _ _ Hseq) as L.
    rewrite length_app in Hf.
    destruct f as [|f]; [lia|].
    destruct (IH f ltac:(lia)) as [IHs IHu].
    destruct (rune_seq_head _ _ Hseq)
      as (b & tl & -> & [(-> & Hb & _) | (Htl & _ & _)]).
    + cbn [app]; rewrite appendStringLoop_ascii by assumption.
      split.
      * intros tail; rewrite <- app_assoc, scanString_ascii, IHs by assumption.
        reflexivity.
      * intros f' Hf'; rewrite length_app in Hf'.
        pose proof (asciiOut_length b Hb).
        destruct f' as [|f']; [lia|].
        rewrite unquoteLoop_ascii, IHu by (assumption || lia).
        reflexivity.
    + assert (L2 : (2 <= length (b :: tl))%nat)
        by (destruct tl; [congruence | cbn [length]; lia]).
      rewrite appendStringLoop_multi with (r := r) by assumption.
      split.
      * intros tail.
        rewrite <- app_assoc, scanString_multi, IHs by assumption.
        reflexivity.
      * intros f' Hf'; rewrite length_app in Hf'.
        pose proof (multiOut_length _ _ Hseq L2).
        destruct f' as [|f']; [lia|].
        rewrite unquoteLoop_multi, IHu by (assumption || lia).
        reflexivity.
Qed.

Lemma scanString_appendString s tail :
  utf8_valid s ->
  exists raw,
    json.appendString s ++ tail = dquote :: raw ++ dquote :: tail /\
    json.scanString (raw ++ dquote :: tail) = Some (raw, tail) /\
    json.unquoteBytes raw = Some s.
Proof.
  intros H.
  destruct (appendStringLoop_valid s H (length s) (le_n _)) as [Hs Hu].
  exists (json.appendStringLoop (length s) s); repeat split.
  - unfold json.appendString; cbn [app]; now rewrite <- app_assoc.
  - apply Hs.
  - apply Hu; reflexivity.
Qed.

(** ** Base64 *)

Lemma sextet_cases (v : Z) (P : Z -> Prop) :
  0 <= v < 64 ->
  (forall n, (n < 64)%nat -> P (Z.of_nat n)) -> P v.
Proof.
  intros H HP.
  rewrite <- (Z2Nat.id v) by lia.
  apply HP; lia.
Qed.

Ltac each_sextet n :=
  do 64 (destruct n as [|n]; [vm_compute; intuition congruence|]); lia.

Lemma decodeMap_encode v :
  0 <= v < 64 -> base64.decodeMap (base64.encode v) = Some v.
Proof.
  intros H; apply (sextet_cases v); [exact H|].
  intros n Hn; each_sextet n.
Qed.

Lemma b64char_encode v : 0 <= v < 64 -> b64char (base64.encode v).
Proof.
  intros H; apply (sextet_cases v); [exact H|].
  intros n Hn; unfold b64char, plain.
  do 64 (destruct n as [|n];
         [repeat split; try (vm_compute; congruence)|]); lia.
Qed.

Lemma b64char_padding : b64char base64.StdPadding.
Proof. repeat split; vm_compute; congruence. Qed.

Lemma land_63_range x : 0 <= Z.land x 0x3F < 64.
Proof.
  rewrite (land_mask x _ 6) by (reflexivity || lia).
  apply Z.mod_pos_bound; reflexivity.
Qed.

Lemma b64char_sextet val k : b64char (base64.sextet val k).
Proof. apply b64char_encode, land_63_range. Qed.

Lemma decodeMap_sextet val k :
  base64.decodeMap (base64.sextet val k) = Some (Z.land (Z.shiftr val k) 0x3F).
Proof. apply decodeMap_encode, land_63_range. Qed.

Section Quantum.
Variables x0 x1 x2 : Z.
Hypothesis R0 : 0 <= x0 < 256.
Hypothesis R1 : 0 <= x1 < 256.
Hypothesis R2 : 0 <= x2 < 256.

Lemma src_val :
  Z.lor (Z.lor (Z.shiftl x0 16) (Z.shiftl x1 8)) x2 = x0 * 65536 + x1 * 256 + x2.
Proof.
  arith.
  rewrite (lor_disjoint_add (x0 * 2 ^ 16) _ 16) by (Z.div_mod_to_equations; lia).
  rewrite (lor_disjoint_add _ _ 8); Z.div_mod_to_equations; lia.
Qed.

End Quantum.

Lemma quantum_sextets val :
  0 <= val < 2 ^ 24 ->
  base64.quantum (Z.land (Z.shiftr val 18) 0x3F) (Z.land (Z.shiftr val 12) 0x3F)
                 (Z.land (Z.shiftr val 6) 0x3F) (Z.land (Z.shiftr val 0) 0x3F)
  = val.
Proof.
  intros H; unfold base64.quantum.
  rewrite !(land_mask _ 0x3F 6) by (reflexivity || lia).
  rewrite Z.shiftr_0_r.
  arith.
  change (2 ^ 24) with 16777216 in H.
  change (2 ^ 18) with 262144; change (2 ^ 12) with 4096; change (2 ^ 6) with 64.
  rewrite (lor_disjoint_add (_ * 262144) _ 18)
    by (change (2 ^ 18) with 262144; Z.div_mod_to_equations; lia).
  rewrite (lor_disjoint_add _ (_ * 64) 12)
    by (change (2 ^ 12) with 4096; Z.div_mod_to_equations; lia).
  rewrite (lor_disjoint_add _ _ 6)
    by (change (2 ^ 6) with 64; Z.div_mod_to_equations; lia).
  Z.div_mod_to_equations; lia.
Qed.

Lemma list_ind3 {A : Type} (P : list A -> Prop) :
  P [] -> (forall a, P [a]) -> (forall a b, P [a; b]) ->
  (forall a b c rest, P rest -> P (a :: b :: c :: rest)) ->
  forall l, P l.
Proof.
  intros H0 H1 H2 H3.
  fix IH 1.
  intros [|a [|b [|c rest]]];
    [exact H0 | apply H1 | apply H2 | apply H3, IH].
Qed.

Lemma of_Z_shiftr (b : byte) val k :
  0 <= k -> (val / 2 ^ k) mod 256 = u b -> byte.of_Z (Z.shiftr val k) = b.
Proof.
  intros Hk H; apply of_Z_eq.
  now rewrite Z.shiftr_div_pow2 by lia.
Qed.

Lemma decodeQuanta_Encode : forall src,
  base64.decodeQuanta (base64.Encode src) = Some src.
Proof.
  induction src as [|a|a b|a b c rest IH] using list_ind3.
  - reflexivity.
  - pose proof (byte.unsigned_range a) as Ra; change (2 ^ 8) with 256 in Ra.
    cbn [base64.Encode base64.decodeQuanta]; cbv zeta.
    rewrite !decodeMap_sextet.
    change (base64.decodeMap base64.StdPadding) with (@None Z).
    rewrite byte_eqb_refl; cbn [andb].
    set (val := Z.shiftl (u a) 16).
    assert (Hval : val = u a * 65536)
      by (unfold val; now rewrite Z.shiftl_mul_pow2 by lia).
    clearbody val.
    pose proof (quantum_sextets val ltac:(change (2 ^ 24) with 16777216; lia)) as Q.
    replace (Z.land (Z.shiftr val 6) 0x3F) with 0 in Q.
    2:{ rewrite (land_mask _ _ 6), Z.shiftr_div_pow2 by (reflexivity || lia).
        change (2 ^ 6) with 64; Z.div_mod_to_equations; lia. }
    replace (Z.land (Z.shiftr val 0) 0x3F) with 0 in Q.
    2:{ rewrite (land_mask _ _ 6), Z.shiftr_div_pow2 by (reflexivity || lia).
        change (2 ^ 6) with 64; change (2 ^ 0) with 1; Z.div_mod_to_equations; lia. }
    rewrite Q.
    do 2 f_equal.
    apply of_Z_shiftr; [lia|].
    change (2 ^ 16) with 65536; Z.div_mod_to_equations; lia.
  - pose proof (byte.unsigned_range a) as Ra; change (2 ^ 8) with 256 in Ra.
    pose proof (byte.unsigned_range b) as Rb; change (2 ^ 8) with 256 in Rb.
    cbn [base64.Encode base64.decodeQuanta]; cbv zeta.
    rewrite !decodeMap_sextet.
    change (base64.decodeMap base64.StdPadding) with (@None Z).
    rewrite byte_eqb_refl.
    set (val := Z.lor (Z.shiftl (u a) 16) (Z.shiftl (u b) 8)).
    assert (Hval : val = u a * 65536 + u b * 256).
    { pose proof (src_val (u a) (u b) 0 Ra Rb ltac:(lia)) as E.
      rewrite Z.lor_0_r, Z.add_0_r in E; exact E. }
    clearbody val.
    pose proof (quantum_sextets val ltac:(change (2 ^ 24) with 16777216; lia)) as Q.
    replace (Z.land (Z.shiftr val 0) 0x3F) with 0 in Q.
    2:{ rewrite (land_mask _ _ 6), Z.shiftr_div_pow2 by (reflexivity || lia).
        change (2 ^ 6) with 64; change (2 ^ 0) with 1; Z.div_mod_to_equations; lia. }
    rewrite Q.
    f_equal; repeat apply (f_equal2 cons); try reflexivity.
    + apply of_Z_shiftr; [lia|].
      change (2 ^ 16) with 65536; Z.div_mod_to_equations; lia.
    + apply of_Z_shiftr; [lia|].
      change (2 ^ 8) with 256; Z.div_mod_to_equations; lia.
  - pose proof (byte.unsigned_range a) as Ra; change (2 ^ 8) with 256 in Ra.
    pose proof (byte.unsigned_range b) as Rb; change (2 ^ 8) with 256 in Rb.
    pose proof (byte.unsigned_range c) as Rc; change (2 ^ 8) with 256 in Rc.
    cbn [base64.Encode base64.decodeQuanta app]; cbv zeta.
    rewrite !decodeMap_sextet, IH.
    set (val := Z.lor (Z.lor (Z.shiftl (u a) 16) (Z.shiftl (u b) 8)) (u c)).
    assert (Hval : val = u a * 65536 + u b * 256 + u c)
      by (apply src_val; assumption).
    clearbody val.
    rewrite (quantum_sextets val) by (change (2 ^ 24) with 16777216; lia).
    f_equal; repeat apply (f_equal2 cons); try reflexivity.
    + apply of_Z_shiftr; [lia|].
      change (2 ^ 16) with 65536; Z.div_mod_to_equations; lia.
    + apply of_Z_shiftr; [lia|].
      change (2 ^ 8) with 256; Z.div_mod_to_equations; lia.
    + apply of_Z_eq; change (2 ^ 8) with 256; Z.div_mod_to_equations; lia.
Qed.

Lemma Forall_b64char_Encode : forall src, Forall b64char (base64.Encode src).
Proof.
  induction src as [|a|a b|a b c rest IH] using list_ind3;
    cbn [base64.Encode app]; cbv zeta;
    repeat (constructor; try apply b64char_sextet; try apply b64char_padding).
  exact IH.
Qed.

Lemma Decode_Encode src : base64.Decode (base64.Encode src) = Some src.
Proof.
  unfold base64.Decode.
  replace (filter _ (base64.Encode src)) with (base64.Encode src).
  - apply decodeQuanta_Encode.
  - symmetry; apply forallb_filter_id.
    apply forallb_forall; intros c Hc.
    pose proof (Forall_b64char_Encode src) as F.
    rewrite Forall_forall in F.
    destruct (F c Hc) as (_ & _ & ->); reflexivity.
Qed.

(** ** Decimal integers *)

Lemma parseDigits_acc d : forall acc,
  strconv.parseDigits (strconv.bytes_of_uint d) (Z.pos acc)
  = Some (Z.pos (Pos.of_uint_acc d acc)).
Proof.
  induction d; intros acc; cbn [strconv.bytes_of_uint Pos.of_uint_acc];
    [reflexivity | ..];
    cbn [strconv.parseDigits]; rewrite <- IHd;
    match goal with
    | |- (if ?c then _ else _) = _ => change c with true; cbv iota
    end;
    f_equal; vm_compute (byte.unsigned _); lia.
Qed.

Lemma parseDigits_0 d :
  strconv.parseDigits (strconv.bytes_of_uint d) 0 = Some (Z.of_N (Pos.of_uint d)).
Proof.
  induction d; cbn [strconv.bytes_of_uint Pos.of_uint];
    [reflexivity | exact IHd | ..];
    cbn [strconv.parseDigits];
    match goal with
    | |- (if ?c then _ else _) = _ => change c with true; cbv iota
    end;
    match goal with
    | |- strconv.parseDigits ?l ?n = _ =>
        let v := eval vm_compute in n in change n with v
    end;
    rewrite parseDigits_acc; reflexivity.
Qed.

Lemma nzhead_lead d :
  Decimal.nzhead d = Decimal.Nil \/ lead_nonzero (Decimal.nzhead d).
Proof. induction d; cbn; auto. Qed.

Lemma to_uint_lead p : lead_nonzero (Pos.to_uint p).
Proof.
  pose proof (DecimalN.Unsigned.to_of (Pos.to_uint p)) as E.
  unfold N.of_uint in E; rewrite DecimalPos.Unsigned.of_to in E.
  cbn [N.to_uint] in E.
  pose proof (DecimalPos.Unsigned.to_uint_nonzero p) as Hz.
  rewrite E in *; unfold Decimal.unorm in *.
  destruct (nzhead_lead (Pos.to_uint p)) as [H|H].
  - rewrite H in Hz; contradiction.
  - destruct (Decimal.nzhead (Pos.to_uint p)); auto.
Qed.

Lemma bytes_of_uint_digits d :
  Forall (fun c => strconv.isDigit c = true) (strconv.bytes_of_uint d).
Proof. induction d; cbn [strconv.bytes_of_uint]; constructor; auto. Qed.

Lemma bytes_of_uint_lead d :
  lead_nonzero d ->
  exists c rest,
    strconv.bytes_of_uint d = c :: rest /\ strconv.isDigit c = true /\
    Byte.eqb c "0" = false /\ Byte.eqb c "-" = false /\ Byte.eqb c "+" = false.
Proof.
  destruct d; cbn [lead_nonzero strconv.bytes_of_uint]; intros H;
    try contradiction; eexists; eexists; repeat split.
Qed.

Lemma ParseInt_FormatInt i :
  - 2 ^ 63 <= i < 2 ^ 63 -> strconv.ParseInt (strconv.FormatInt i) = Some i.
Proof.
  intros R; unfold strconv.FormatInt.
  destruct i as [|p|p]; cbn [Z.to_int].
  - reflexivity.
  - destruct (bytes_of_uint_lead _ (to_uint_lead p)) as (c & rest & E & _ & _ & Em & Ep).
    unfold strconv.ParseInt; rewrite E, Em, Ep; cbn [orb negb andb].
    rewrite <- E, parseDigits_0, DecimalPos.Unsigned.of_to; cbn [Z.of_N].
    destruct (Z.leb_spec (2 ^ 63) (Z.pos p)); [lia | reflexivity].
  - destruct (bytes_of_uint_lead _ (to_uint_lead p)) as (c & rest & E & _ & _ & Em & Ep).
    unfold strconv.ParseInt.
    change (Byte.eqb "-" "-") with true; change (Byte.eqb "-" "+") with false.
    cbn [orb negb andb].
    rewrite E; cbv iota; rewrite <- E.
    rewrite parseDigits_0, DecimalPos.Unsigned.of_to; cbn [Z.of_N].
    destruct (Z.ltb_spec (2 ^ 63) (Z.pos p)); [lia | reflexivity].
Qed.

(** ** Values and members *)

Lemma spanDigits_digits ds c tail :
  Forall (fun x => strconv.isDigit x = true) ds -> strconv.isDigit c = false ->
  json.spanDigits (ds ++ c :: tail) = (ds, c :: tail).
Proof.
  intros H Hc; induction H as [|x ds Hx _ IH]; cbn [app json.spanDigits].
  - now rewrite Hc.
  - now rewrite Hx, IH.
Qed.

Lemma scanNumber_digits sign h ds c tail :
  (sign = [] \/ sign = ["-"]) ->
  strconv.isDigit h = true -> Byte.eqb h "0" = false ->
  Forall (fun x => strconv.isDigit x = true) ds ->
  sep c ->
  json.scanNumber (sign ++ h :: ds ++ c :: tail) = Some (sign ++ h :: ds, c :: tail).
Proof.
  intros Hsign Hh H0 Hds Hc.
  assert (Hm : Byte.eqb h "-" = false).
  { destruct (Byte.eqb h "-") eqn:E; [|reflexivity].
    apply Byte.byte_dec_bl in E; subst h; discriminate Hh. }
  assert (Hcd : strconv.isDigit c = false) by (destruct Hc; subst c; reflexivity).
  unfold json.scanNumber.
  destruct Hsign; subst sign; cbn [app].
  - rewrite Hm, H0, Hh, (spanDigits_digits ds c tail Hds Hcd).
    destruct Hc; subst c; cbn; now rewrite app_nil_r.
  - change (Byte.eqb "-" "-") with true; cbv iota.
    rewrite H0, Hh, (spanDigits_digits ds c tail Hds Hcd).
    destruct Hc; subst c; cbn; now rewrite app_nil_r.
Qed.

Lemma scanNumber_FormatInt i c tail :
  sep c ->
  json.scanNumber (strconv.FormatInt i ++ c :: tail)
  = Some (strconv.FormatInt i, c :: tail).
Proof.
  intros Hc; unfold strconv.FormatInt.
  destruct i as [|p|p]; cbn [Z.to_int].
  - destruct Hc; subst c; reflexivity.
  - destruct (bytes_of_uint_lead _ (to_uint_lead p)) as (h & ds & E & Hh & H0 & _).
    pose proof (bytes_of_uint_digits (Pos.to_uint p)) as F.
    rewrite E in *; inversion F; subst.
    apply (scanNumber_digits [] h ds c tail); auto.
  - destruct (bytes_of_uint_lead _ (to_uint_lead p)) as (h & ds & E & Hh & H0 & _).
    pose proof (bytes_of_uint_digits (Pos.to_uint p)) as F.
    rewrite E in *; inversion F; subst.
    apply (scanNumber_digits ["-"] h ds c tail); auto.
Qed.

Lemma FormatInt_head i :
  exists h rest,
    strconv.FormatInt i = h :: rest /\ Byte.eqb h dquote = false /\
    Byte.eqb h "-" || strconv.isDigit h = true /\ json.isSpace h = false.
Proof.
  unfold strconv.FormatInt.
  destruct i as [|p|p]; cbn [Z.to_int].
  - eexists; eexists; repeat split.
  - destruct (bytes_of_uint_lead _ (to_uint_lead p)) as (h & ds & E & Hh & H0 & Hm & Hp).
    exists h, ds; rewrite E, Hh, Hm; repeat split.
    + destruct (Byte.eqb h dquote) eqn:Eq; [|reflexivity].
      apply Byte.byte_dec_bl in Eq; subst h; discriminate Hh.
    + revert Hh; destruct h; vm_compute; congruence.
  - eexists; eexists; repeat split.
Qed.

Lemma scanString_quote tail : json.scanString (dquote :: tail) = Some ([], tail).
Proof. reflexivity. Qed.

Lemma b64char_plain bs : Forall b64char bs -> Forall plain bs.
Proof. apply Forall_impl; now intros c (H & _). Qed.

Lemma scanValue_encodeValue v c tail :
  value_ok v -> sep c ->
  json.scanValue (json.encodeValue v ++ c :: tail) = Ok (literalOf v, c :: tail).
Proof.
  intros Hv Hc.
  destruct v as [s | [b|] | i]; cbn [json.encodeValue literalOf value_ok] in *.
  - destruct (appendStringLoop_valid s Hv (length s) (le_n _)) as [Hs _].
    unfold json.appendString; cbn [app json.scanValue].
    rewrite byte_eqb_refl, <- app_assoc; cbn [app].
    now rewrite Hs.
  - cbn [app json.scanValue].
    rewrite byte_eqb_refl, <- app_assoc; cbn [app].
    rewrite scanString_plain by apply b64char_plain, Forall_b64char_Encode.
    now rewrite scanString_quote, app_nil_r.
  - destruct Hc; subst c; reflexivity.
  - destruct (FormatInt_head i) as (h & rest & E & Hq & Hd & _).
    pose proof (scanNumber_FormatInt i c tail Hc) as S.
    rewrite E in *; cbn [app json.scanValue] in *.
    now rewrite Hq, Hd, S.
Qed.

Lemma skipSpace_head h rest :
  json.isSpace h = false -> json.skipSpace (h :: rest) = h :: rest.
Proof. intros H; cbn [json.skipSpace]; now rewrite H. Qed.

Lemma encodeValue_head v :
  exists h rest, json.encodeValue v = h :: rest /\ json.isSpace h = false.
Proof.
  destruct v as [s | [b|] | i]; cbn [json.encodeValue].
  - unfold json.appendString; eexists; eexists; split; reflexivity.
  - eexists; eexists; split; reflexivity.
  - eexists; eexists; split; reflexivity.
  - destruct (FormatInt_head i) as (h & rest & E & _ & _ & Hs).
    exists h, rest; auto.
Qed.

Lemma encodeFields_sep fields tail :
  exists c rest, json.encodeFields "," fields ++ "}" :: tail = c :: rest /\ sep c.
Proof.
  destruct fields as [|[n v] fields]; cbn [json.encodeFields app].
  - exists "}", tail; split; [reflexivity | right; reflexivity].
  - eexists; eexists; split; [reflexivity | left; reflexivity].
Qed.

Lemma encodeFields_cons_app next name v fields tail :
  json.encodeFields next ((name, v) :: fields) ++ tail
  = next :: dquote :: json.appendStringLoop (length name) name
      ++ dquote :: ":" :: json.encodeValue v
      ++ (json.encodeFields "," fields ++ tail).
Proof.
  cbn [json.encodeFields]; unfold json.appendString.
  cbn [app]; rewrite <- !app_assoc; cbn [app].
  now rewrite <- !app_assoc.
Qed.

Lemma scanMembers_encodeFields fields : forall name v fuel tail,
  Forall field_ok ((name, v) :: fields) ->
  (length fields < fuel)%nat ->
  json.scanMembers fuel
    (dquote :: json.appendStringLoop (length name) name
       ++ dquote :: ":" :: json.encodeValue v
       ++ (json.encodeFields "," fields ++ "}" :: tail))
  = Ok (map memberOf ((name, v) :: fields), tail).
Proof.
  induction fields as [|[name' v'] fields IH]; intros name v fuel tail Hok Hfuel;
    (destruct fuel as [|fuel]; [cbn [length] in Hfuel; lia|]);
    inversion Hok as [|? ? [Hname Hv] Hok']; subst; cbn [fst snd] in *;
    destruct (appendStringLoop_valid name Hname (length name) (le_n _)) as [Hs _];
    destruct (encodeValue_head v) as (h & rest & Eh & Hh);
    cbn [json.scanMembers]; rewrite byte_eqb_refl, Hs;
    cbn [json.skipSpace]; change (json.isSpace ":") with false; cbv iota;
    change (Byte.eqb ":" ":") with true; cbv iota.
  - cbn [json.encodeFields app map].
    pose proof (scanValue_encodeValue v "}" tail Hv (or_intror eq_refl)) as Sv.
    rewrite Eh in *; cbn [app] in *.
    rewrite skipSpace_head by assumption.
    rewrite Sv; cbn [bind].
    reflexivity.
  - rewrite encodeFields_cons_app.
    pose proof (scanValue_encodeValue v ","
                  (dquote :: json.appendStringLoop (length name') name'
                     ++ dquote :: ":" :: json.encodeValue v'
                     ++ (json.encodeFields "," fields ++ "}" :: tail))
                  Hv (or_introl eq_refl)) as Sv.
    rewrite Eh in *; cbn [app] in *.
    rewrite skipSpace_head by assumption.
    rewrite Sv; cbn [bind].
    rewrite (skipSpace_head ",") by reflexivity.
    change (Byte.eqb "," ",") with true; cbv iota.
    rewrite (skipSpace_head dquote) by reflexivity.
    rewrite (IH name' v' fuel tail Hok') by (cbn [length] in Hfuel; lia).
    reflexivity.
Qed.

Lemma encodeFields_length next fields :
  (length fields <= length (json.encodeFields next fields))%nat.
Proof.
  revert next; induction fields as [|[name v] fields IH]; intros next;
    cbn [json.encodeFields length]; [lia|].
  rewrite !length_app; specialize (IH ","); lia.
Qed.

Lemma scanText_Marshal fields :
  Forall field_ok fields ->
  exists data,
    json.Marshal fields = Ok data /\
    json.scanText data = Ok (json.TObject (map memberOf fields)).
Proof.
  intros Hok; destruct fields as [|[name v] fields].
  - eexists; split; reflexivity.
  - eexists; split; [reflexivity|].
    rewrite encodeFields_cons_app.
    unfold json.scanText.
    rewrite (skipSpace_head "{") by reflexivity.
    change (Byte.eqb "{" "{") with true; cbv iota.
    rewrite (skipSpace_head dquote) by reflexivity.
    change (Byte.eqb dquote "}") with false; cbv iota.
    rewrite scanMembers_encodeFields.
    + reflexivity.
    + exact Hok.
    + pose proof (encodeFields_length "," fields) as L.
      cbn [length]; rewrite !length_app; cbn [length]; rewrite !length_app; lia.
Qed.

(** ** Storing the members *)

Lemma unquoteBytes_Encode b : json.unquoteBytes (base64.Encode b) = Some (base64.Encode b).
Proof.
  pose proof (Forall_b64char_Encode b) as F.
  apply unquoteLoop_plain_ascii; [| |reflexivity].
  - now apply b64char_plain.
  - eapply Forall_impl; [|exact F]; now intros c (_ & H & _).
Qed.

Lemma literalStore_literalOf v old :
  value_ok v -> same_kind v old -> json.literalStore (literalOf v) old = Ok v.
Proof.
  destruct v as [s | [b|] | i], old as [s' | b' | i'];
    cbn [value_ok same_kind literalOf json.literalStore]; intros Hv Hk;
    try contradiction; try reflexivity.
  - destruct (appendStringLoop_valid s Hv (length s) (le_n _)) as [_ Hu].
    unfold json.unquoteBytes; now rewrite Hu.
  - now rewrite unquoteBytes_Encode, Decode_Encode.
  - now rewrite ParseInt_FormatInt.
Qed.

Lemma bytes_eqb_refl a : json.bytes_eqb a a = true.
Proof. unfold json.bytes_eqb; now destruct (list_eq_dec Byte.byte_eq_dec a a). Qed.

Lemma bytes_eqb_neq a b : a <> b -> json.bytes_eqb a b = false.
Proof.
  intros H; unfold json.bytes_eqb.
  now destruct (list_eq_dec Byte.byte_eq_dec a b).
Qed.

Lemma findIndex_exact name old done : forall rest i,
  ~ In name (map fst done) ->
  json.findIndex (json.bytes_eqb name) (done ++ (name, old) :: rest) i
  = Some (i + length done)%nat.
Proof.
  induction done as [|[n w] done IH]; intros rest i Hin; cbn [app json.findIndex length].
  - rewrite bytes_eqb_refl; f_equal; lia.
  - cbn [map fst In] in Hin.
    rewrite bytes_eqb_neq by (intros ->; apply Hin; now left).
    rewrite IH by tauto.
    f_equal; lia.
Qed.

Lemma setField_app done name old v rest :
  json.setField (length done) v (done ++ (name, old) :: rest)
  = done ++ (name, v) :: rest.
Proof.
  induction done as [|[n w] done IH]; cbn [app length json.setField]; [reflexivity|].
  now rewrite IH.
Qed.

Lemma storeMember_field done name v old rest :
  field_ok (name, v) -> same_kind v old ->
  ~ In name (map fst done) ->
  json.storeMember (done ++ (name, old) :: rest) (memberOf (name, v))
  = Ok (done ++ (name, v) :: rest).
Proof.
  intros [Hname Hv] Hk Hin; cbn [fst snd] in *.
  unfold json.storeMember, memberOf; cbn [fst snd].
  destruct (appendStringLoop_valid name Hname (length name) (le_n _)) as [_ Hu].
  unfold json.unquoteBytes; rewrite Hu by reflexivity.
  unfold json.findField; rewrite findIndex_exact by assumption.
  cbn [Nat.add].
  rewrite nth_error_app2, Nat.sub_diag by lia; cbn [nth_error].
  rewrite literalStore_literalOf by assumption; cbn [bind].
  now rewrite setField_app.
Qed.

Lemma storeMembers_fields fields : forall target done,
  Forall2 same_field fields target ->
  Forall field_ok fields ->
  NoDup (map fst fields) ->
  (forall n, In n (map fst done) -> ~ In n (map fst fields)) ->
  json.storeMembers (map memberOf fields) (done ++ target) = Ok (done ++ fields).
Proof.
  induction fields as [|[name v] fields IH]; intros target done Hsame Hok Hnd Hdis;
    inversion Hsame as [|? [name' old] ? target' [Hn Hk] Hsame']; subst;
    cbn [map json.storeMembers].
  - reflexivity.
  - cbn [fst snd] in *; subst name'.
    inversion Hok; inversion Hnd; subst.
    rewrite storeMember_field; auto.
    + cbn [bind].
      specialize (IH target' (done ++ [(name, v)])).
      rewrite <- !app_assoc in IH; cbn [app] in IH.
      apply IH; auto.
      intros n Hin; rewrite map_app, in_app_iff in Hin; cbn [map fst In] in Hin.
      destruct Hin as [Hin | [<- | []]]; [|assumption].
      intros Hn; apply (Hdis n Hin); now right.
    + intros Hin; apply (Hdis name Hin); now left.
Qed.

(** [Unmarshal] gives back the struct [Marshal] was given, when the target
    has the same fields. *)
Lemma Unmarshal_Marshal fields target :
  Forall2 same_field fields target ->
  Forall field_ok fields ->
  NoDup (map fst fields) ->
  (data <- json.Marshal fields ;; json.Unmarshal data target) = Ok fields.
Proof.
  intros Hsame Hok Hnd.
  destruct (scanText_Marshal fields Hok) as (data & -> & Hscan).
  cbn [bind]; unfold json.Unmarshal; rewrite Hscan; cbn [bind].
  apply (storeMembers_fields fields target []); auto.
Qed.

(** ** Envelope round trip *)

Lemma Request_fields_ok req :
  utf8.Valid (Request.Username req) = true ->
  utf8.Valid (Request.DataType req) = true ->
  Forall field_ok (Request.fields req).
Proof.
  intros H1 H2; unfold Request.fields.
  repeat constructor; cbn [fst snd value_ok];
    apply utf8_Valid_sound; (reflexivity || assumption).
Qed.

Lemma Response_fields_ok res :
  utf8.Valid (Response.Message res) = true ->
  - 2 ^ 63 <= Response.Status res < 2 ^ 63 ->
  Forall field_ok (Response.fields res).
Proof.
  intros H1 H2; unfold Response.fields.
  repeat constructor; cbn [fst snd value_ok]; try lia;
    apply utf8_Valid_sound; (reflexivity || assumption).
Qed.

Lemma NoDup_3 {A : Type} (a b c : A) :
  a <> b -> a <> c -> b <> c -> NoDup [a; b; c].
Proof.
  intros; repeat constructor; cbn [In]; intuition congruence.
Qed.

(** C5, as amended.  A [Request] whose [Username] and [DataType] are valid
    UTF-8, and a [Response] whose [Message] is valid UTF-8 (its [Status] a
    64-bit [int]), come back from [Reborn*] of [ToJSON] equal in every
    field, whatever bytes [Data] holds. *)
Theorem envelope_round_trip (req : Request.t) (res : Response.t) :
  utf8.Valid (Request.Username req) = true ->
  utf8.Valid (Request.DataType req) = true ->
  utf8.Valid (Response.Message res) = true ->
  - 2 ^ 63 <= Response.Status res < 2 ^ 63 ->
  (jsonStr <- Request.ToJSON req ;; RebornRequest jsonStr) = Ok req /\
  (jsonStr <- Response.ToJSON res ;; RebornResponse jsonStr) = Ok res.
Proof.
  intros Hu Hd Hm Hs; split.
  - pose proof (Unmarshal_Marshal (Request.fields req) (Request.fields Request.zero)) as E.
    unfold Request.ToJSON, RebornRequest.
    destruct (json.Marshal (Request.fields req)) as [data|e]; cbn [bind] in *.
    + rewrite E.
      * now destruct req.
      * repeat constructor.
      * now apply Request_fields_ok.
      * apply NoDup_3; discriminate.
    + exfalso; revert E; cbn [bind].
      assert (Err e <> Ok (Request.fields req)) by discriminate.
      intros E; apply H, E.
      * repeat constructor.
      * now apply Request_fields_ok.
      * apply NoDup_3; discriminate.
  - pose proof (Unmarshal_Marshal (Response.fields res) (Response.fields Response.zero)) as E.
    unfold Response.ToJSON, RebornResponse.
    destruct (json.Marshal (Response.fields res)) as [data|e]; cbn [bind] in *.
    + rewrite E.
      * now destruct res.
      * repeat constructor.
      * now apply Response_fields_ok.
      * apply NoDup_3; discriminate.
    + exfalso.
      assert (Err e <> Ok (Response.fields res)) by discriminate.
      apply H, E.
      * repeat constructor.
      * now apply Response_fields_ok.
      * apply NoDup_3; discriminate.
Qed.

Lemma envelope_round_trip_witness :
  let req := Request.mk (list_byte_of_string "alice")
                        (list_byte_of_string "IDENTITY")
                        (Some [ByteDelim; Byte.xff; Byte.x00; dquote]) in
  let res := Response.mk 400 (list_byte_of_string "DENY") (Some []) in
  utf8.Valid (Request.Username req) = true /\
  utf8.Valid (Request.DataType req) = true /\
  utf8.Valid (Response.Message res) = true /\
  - 2 ^ 63 <= Response.Status res < 2 ^ 63 /\
  (jsonStr <- Request.ToJSON req ;; RebornRequest jsonStr) = Ok req /\
  (jsonStr <- Response.ToJSON res ;; RebornResponse jsonStr) = Ok res.
Proof.
  cbv zeta.
  assert (R : - 2 ^ 63 <= 400 < 2 ^ 63) by lia.
  split; [reflexivity | split; [reflexivity | split; [reflexivity | split; [exact R|]]]].
  exact (envelope_round_trip
           (Request.mk (list_byte_of_string "alice")
                       (list_byte_of_string "IDENTITY")
                       (Some [ByteDelim; Byte.xff; Byte.x00; dquote]))
           (Response.mk 400 (list_byte_of_string "DENY") (Some []))
           eq_refl eq_refl eq_refl R).
Defined.

(** C5, as stated, fails for a [Request] whose [Username] is the single
    byte 0xFF: [json.Marshal] writes the replacement character for it, and
    the three bytes of that character are what [RebornRequest] returns. *)
Lemma envelope_round_trip_invalid_utf8 :
  let req := Request.mk [Byte.xff] (list_byte_of_string "IDENTITY") None in
  (jsonStr <- Request.ToJSON req ;; RebornRequest jsonStr)
  = Ok (Request.mk [Byte.xef; Byte.xbf; Byte.xbd]
                   (list_byte_of_string "IDENTITY") None) /\
  (jsonStr <- Request.ToJSON req ;; RebornRequest jsonStr) <> Ok req.
Proof.
  cbv zeta; split.
  - vm_compute; reflexivity.
  - vm_compute; discriminate.
Qed.

(** The two envelopes of the spec's scenarios, and the delimiter byte as
    [Data], through the text encoding and back. *)
Example scenario_identity_request :
  let req := Request.mk (list_byte_of_string "alice")
                        (list_byte_of_string TypeIdentity) (Some []) in
  (jsonStr <- Request.ToJSON req ;; RebornRequest jsonStr) = Ok req.
Proof. vm_compute; reflexivity. Qed.

Example scenario_deny_response :
  let res := Response.mk StatusBad (list_byte_of_string MessageDeny) (Some []) in
  (jsonStr <- Response.ToJSON res ;; RebornResponse jsonStr) = Ok res.
Proof. vm_compute; reflexivity. Qed.

Example scenario_delimiter_in_data :
  base64.Encode [ByteDelim] = list_byte_of_string "BA==" /\
  base64.Decode (list_byte_of_string "BA==") = Some [ByteDelim].
Proof. split; reflexivity. Qed.

(** * Further properties of the packet layer *)

(** ** The four-byte codec *)


(** X2.  [intToBinary] and [binaryToInt] are inverse to each other between
    the [uint32] values and the slices of four bytes. *)
Theorem intToBinary_binaryToInt_inverse (num : Z) (bin : list byte) :
  0 <= num < 2 ^ 32 ->
  length bin = 4%nat ->
  (exists b, intToBinary num = Ok b /\ length b = 4%nat /\ binaryToInt b = Ok num) /\
  (exists n, binaryToInt bin = Ok n /\ 0 <= n < 2 ^ 32 /\ intToBinary n = Ok bin).
Proof.
  intros Hnum Hbin; split.
  - exists (PutUint32 num); repeat split.
    unfold PutUint32; rewrite binaryToInt_ok.
    rewrite (Uint32_PutUint32 _ _ _ _ num eq_refl).
    now rewrite Z.mod_small.
  - destruct (length_4_inv _ Hbin) as (b0 & b1 & b2 & b3 & ->).
    exists (Uint32 b0 b1 b2 b3).
    rewrite binaryToInt_ok, intToBinary_ok, PutUint32_Uint32.
    repeat split; apply Uint32_range.
Qed.

Lemma intToBinary_binaryToInt_inverse_witness :
  0 <= 70000 < 2 ^ 32 /\
  length [Byte.x70; Byte.x11; Byte.x01; Byte.x00] = 4%nat /\
  (exists b, intToBinary 70000 = Ok b /\ length b = 4%nat
             /\ binaryToInt b = Ok 70000) /\
  (exists n, binaryToInt [Byte.x70; Byte.x11; Byte.x01; Byte.x00] = Ok n
             /\ 0 <= n < 2 ^ 32
             /\ intToBinary n = Ok [Byte.x70; Byte.x11; Byte.x01; Byte.x00]).
Proof.
  assert (H : 0 <= 70000 < 2 ^ 32) by (split; [discriminate | reflexivity]).
  split; [exact H | split; [reflexivity|]].
  exact (intToBinary_binaryToInt_inverse
           70000 [Byte.x70; Byte.x11; Byte.x01; Byte.x00] H eq_refl).
Defined.

(** ** Setters and getters *)

Lemma uint32_mod n : uint32 n mod 2 ^ 32 = n mod 2 ^ 32.
Proof. unfold uint32; apply Z.mod_mod; discriminate. Qed.

Lemma PutUint32_le_value bs : length bs = 4%nat -> PutUint32 (uint32 (le_value bs)) = bs.
Proof.
  intros H; destruct (length_4_inv _ H) as (b0 & b1 & b2 & b3 & ->).
  rewrite <- le_value_Uint32.
  unfold uint32; rewrite Z.mod_small by apply Uint32_range.
  apply PutUint32_Uint32.
Qed.

(** X3.  A setter followed by its getter reads back [n mod 2^32], which is
    [n] for [0 <= n < 2^32], and leaves the other field and [Data] as they
    were; storing again the value a getter has read changes nothing. *)
Theorem setter_getter_round_trip (p : Packet) (n : Z) :
  packet_typed p ->
  (exists q, SetSize p n = Ok q /\ packet_typed q /\
             GetSize q = Ok (n mod 2 ^ 32) /\
             Sequence q = Sequence p /\ Data q = Data p) /\
  (exists q, SetSequence p n = Ok q /\ packet_typed q /\
             GetSequence q = Ok (n mod 2 ^ 32) /\
             Size q = Size p /\ Data q = Data p) /\
  (size <- GetSize p ;; SetSize p size) = Ok p /\
  (sequence <- GetSequence p ;; SetSequence p sequence) = Ok p.
Proof.
  intros Hp; pose proof Hp as (Hsize & Hseq & Hdat).
  destruct (GetSize_GetSequence_fields p Hp) as [G1 G2].
  assert (T1 : packet_typed (mkPacket (PutUint32 (uint32 n)) (Sequence p) (Data p)))
    by (repeat split; assumption).
  assert (T2 : packet_typed (mkPacket (Size p) (PutUint32 (uint32 n)) (Data p)))
    by (repeat split; assumption).
  repeat split.
  - eexists; split; [apply SetSize_ok, Hsize|].
    split; [exact T1|].
    destruct (GetSize_GetSequence_fields _ T1) as [-> _]; cbn [Size Sequence Data].
    now rewrite le_value_PutUint32, uint32_mod.
  - eexists; split; [apply SetSequence_ok, Hseq|].
    split; [exact T2|].
    destruct (GetSize_GetSequence_fields _ T2) as [_ ->]; cbn [Size Sequence Data].
    now rewrite le_value_PutUint32, uint32_mod.
  - rewrite G1; cbn [bind].
    rewrite SetSize_ok, PutUint32_le_value by assumption.
    now destruct p.
  - rewrite G2; cbn [bind].
    rewrite SetSequence_ok, PutUint32_le_value by assumption.
    now destruct p.
Qed.

Lemma setter_getter_round_trip_witness :
  let p := mkPacket (PutUint32 7) (PutUint32 3) (zeros 1024) in
  packet_typed p /\
  (exists q, SetSize p (-1) = Ok q /\ packet_typed q /\
             GetSize q = Ok ((-1) mod 2 ^ 32) /\
             Sequence q = Sequence p /\ Data q = Data p) /\
  (exists q, SetSequence p (-1) = Ok q /\ packet_typed q /\
             GetSequence q = Ok ((-1) mod 2 ^ 32) /\
             Size q = Size p /\ Data q = Data p) /\
  (size <- GetSize p ;; SetSize p size) = Ok p /\
  (sequence <- GetSequence p ;; SetSequence p sequence) = Ok p.
Proof.
  assert (H : packet_typed (mkPacket (PutUint32 7) (PutUint32 3) (zeros 1024)))
    by (repeat split).
  split; [exact H | exact (setter_getter_round_trip _ (-1) H)].
Defined.

(** X4.  The two setters commute, a second call of a setter overrides the
    first, and [NewPacket] is the two setters applied to the data. *)
Theorem setters_compose (p : Packet) (a b : Z) :
  packet_typed p ->
  (q <- SetSize p a ;; SetSequence q b) = (q <- SetSequence p b ;; SetSize q a) /\
  (q <- SetSize p a ;; SetSize q b) = SetSize p b /\
  (q <- SetSequence p a ;; SetSequence q b) = SetSequence p b /\
  (q <- SetSize p a ;; SetSequence q b) = NewPacket a b (Data p).
Proof.
  intros (Hsize & Hseq & _).
  rewrite NewPacket_ok.
  rewrite !(SetSize_ok p), !(SetSequence_ok p) by assumption; cbn [bind].
  rewrite !SetSize_ok, !SetSequence_ok by (cbn [Size Sequence]; auto).
  repeat split.
Qed.

Lemma setters_compose_witness :
  let p := mkPacket (PutUint32 7) (PutUint32 3) (zeros 1024) in
  packet_typed p /\
  (q <- SetSize p 5 ;; SetSequence q 9) = (q <- SetSequence p 9 ;; SetSize q 5) /\
  (q <- SetSize p 5 ;; SetSize q 9) = SetSize p 9 /\
  (q <- SetSequence p 5 ;; SetSequence q 9) = SetSequence p 9 /\
  (q <- SetSize p 5 ;; SetSequence q 9) = NewPacket 5 9 (Data p).
Proof.
  assert (H : packet_typed (mkPacket (PutUint32 7) (PutUint32 3) (zeros 1024)))
    by (repeat split).
  split; [exact H | exact (setters_compose _ 5 9 H)].
Defined.

Lemma PutUint32_uint32_inj a b :
  PutUint32 (uint32 a) = PutUint32 (uint32 b) <-> a mod 2 ^ 32 = b mod 2 ^ 32.
Proof.
  split; intros H.
  - apply (f_equal le_value) in H.
    now rewrite !le_value_PutUint32, !uint32_mod in H.
  - unfold uint32; now rewrite H.
Qed.

(** X5.  [NewPacket] succeeds on every pair of integers: the packet it
    returns is well formed, holds the data given, and its getters read the
    two integers modulo [2^32] (a negative one reads as a large positive
    one). *)
Theorem NewPacket_getters (size sequence : Z) (data : list byte) :
  length data = PacketDataSize ->
  exists p,
    NewPacket size sequence data = Ok p /\ packet_typed p /\
    GetSize p = Ok (size mod 2 ^ 32) /\
    GetSequence p = Ok (sequence mod 2 ^ 32) /\
    Data p = data.
Proof.
  intros H.
  assert (T : packet_typed (mkPacket (PutUint32 (uint32 size))
                                     (PutUint32 (uint32 sequence)) data))
    by (repeat split; assumption).
  eexists; split; [apply NewPacket_ok|].
  split; [exact T|].
  destruct (GetSize_GetSequence_fields _ T) as [-> ->]; cbn [Size Sequence Data].
  now rewrite !le_value_PutUint32, !uint32_mod.
Qed.

Lemma NewPacket_getters_witness :
  length (zeros 1024) = PacketDataSize /\
  exists p,
    NewPacket (-1) (2 ^ 32 + 2) (zeros 1024) = Ok p /\ packet_typed p /\
    GetSize p = Ok ((-1) mod 2 ^ 32) /\
    GetSequence p = Ok ((2 ^ 32 + 2) mod 2 ^ 32) /\
    Data p = zeros 1024.
Proof.
  split; [reflexivity | exact (NewPacket_getters (-1) (2 ^ 32 + 2) (zeros 1024) eq_refl)].
Defined.

(** X6.  Two calls of [NewPacket] return the same packet exactly when they
    are given the same data and sizes and sequence numbers that agree
    modulo [2^32]. *)
Theorem NewPacket_collision (size size' sequence sequence' : Z)
    (data data' : list byte) :
  NewPacket size sequence data = NewPacket size' sequence' data'
  <-> size mod 2 ^ 32 = size' mod 2 ^ 32 /\
      sequence mod 2 ^ 32 = sequence' mod 2 ^ 32 /\
      data = data'.
Proof.
  rewrite !NewPacket_ok; split.
  - intros H; apply Ok_inj in H.
    pose proof (f_equal Size H) as H1.
    pose proof (f_equal Sequence H) as H2.
    pose proof (f_equal Data H) as H3.
    cbn [Size Sequence Data] in *.
    repeat split; [apply PutUint32_uint32_inj, H1
                  | apply PutUint32_uint32_inj, H2 | exact H3].
  - intros (H1 & H2 & ->).
    apply PutUint32_uint32_inj in H1, H2.
    now rewrite H1, H2.
Qed.

(** ** The serializer *)

(** X7.  [Serialize] fails on no payload (of fewer than [2^53] bytes): it
    returns [ceil(L/1024)] well-formed packets; packet [i] holds chunk [i],
    the sequence number [i mod 2^32] and the size [count mod 2^32]. *)
Theorem Serialize_total_modulo (payload : list byte) :
  len payload < 2 ^ 53 ->
  exists packets,
    Serialize payload = Ok packets /\
    length packets = ceil_div (length payload) 1024 /\
    Forall packet_typed packets /\
    forall i, (i < ceil_div (length payload) 1024)%nat ->
      exists p,
        nth_error packets i = Some p /\
        GetSequence p = Ok (Z.of_nat i mod 2 ^ 32) /\
        GetSize p = Ok (Z.of_nat (ceil_div (length payload) 1024) mod 2 ^ 32) /\
        Data p = chunk payload i.
Proof.
  intros H.
  change 1024%nat with PacketDataSize.
  eexists; split; [now apply Serialize_spec|].
  split; [now rewrite length_map, length_seq|].
  split; [apply Forall_packet_of|].
  intros i Hi.
  eexists; split; [now apply nth_error_map_seq|].
  rewrite GetSequence_packet_of, GetSize_packet_of.
  repeat split.
Qed.

Lemma Serialize_total_modulo_witness :
  let payload := repeat Byte.x61 2500 in
  len payload < 2 ^ 53 /\
  exists packets,
    Serialize payload = Ok packets /\
    length packets = ceil_div (length payload) 1024 /\
    Forall packet_typed packets /\
    forall i, (i < ceil_div (length payload) 1024)%nat ->
      exists p,
        nth_error packets i = Some p /\
        GetSequence p = Ok (Z.of_nat i mod 2 ^ 32) /\
        GetSize p = Ok (Z.of_nat (ceil_div (length payload) 1024) mod 2 ^ 32) /\
        Data p = chunk payload i.
Proof.
  assert (H : len (repeat Byte.x61 2500) < 2 ^ 53) by reflexivity.
  split; [exact H | exact (Serialize_total_modulo _ H)].
Defined.

Lemma chunk_app_zeros payload k i :
  (length payload + k <= ceil_div (length payload) PacketDataSize * PacketDataSize)%nat ->
  (i < ceil_div (length payload) PacketDataSize)%nat ->
  chunk (payload ++ zeros k) i = chunk payload i.
Proof.
  intros Hk Hi.
  pose proof PacketDataSize_pos as Hd.
  destruct (ceil_div_bracket (length payload) PacketDataSize Hd) as [B1 B2].
  set (count := ceil_div (length payload) PacketDataSize) in *.
  set (d := PacketDataSize) in *.
  assert (Hlo : (i * d < length payload)%nat) by nia.
  unfold chunk; fold d.
  rewrite !pad_chunk_firstn by exact Hd.
  rewrite skipn_app.
  replace (i * d - length payload)%nat with 0%nat by lia; cbn [skipn].
  set (A := skipn (i * d) payload).
  assert (HA : length A = (length payload - i * d)%nat) by apply length_skipn.
  rewrite firstn_app.
  destruct (Nat.le_gt_cases d (length A)) as [Hfull|Hlast].
  - replace (d - length A)%nat with 0%nat by lia; cbn [firstn].
    now rewrite app_nil_r.
  - assert (count < i + 2)%nat by nia.
    assert (count = i + 1)%nat by lia.
    assert (length A + k <= d)%nat by nia.
    rewrite (firstn_all2 (n := d) A) by lia.
    rewrite firstn_all2 by (rewrite zeros_length; lia).
    rewrite length_app, zeros_length, <- app_assoc.
    f_equal.
    rewrite <- zeros_add; f_equal; lia.
Qed.

(** X8.  [Serialize] does not record the length of the payload: zero bytes
    appended to it, as long as they fit the padding of its last packet,
    leave the packets unchanged. *)
Theorem Serialize_forgets_trailing_zeros (payload : list byte) (k : nat) :
  len payload + Z.of_nat k < 2 ^ 53 ->
  (length payload + k <= ceil_div (length payload) 1024 * 1024)%nat ->
  Serialize (payload ++ zeros k) = Serialize payload.
Proof.
  change 1024%nat with PacketDataSize.
  intros H Hk; unfold len in H.
  pose proof PacketDataSize_pos as Hd.
  destruct (ceil_div_bracket (length payload) PacketDataSize Hd) as [B1 B2].
  assert (Hc : ceil_div (length (payload ++ zeros k)) PacketDataSize
               = ceil_div (length payload) PacketDataSize).
  { symmetry; apply ceil_div_unique; rewrite ?length_app, ?zeros_length; lia. }
  rewrite !Serialize_spec by (unfold len; rewrite ?length_app, ?zeros_length; lia).
  rewrite Hc; f_equal.
  apply map_ext_in; intros i Hi; apply in_seq in Hi.
  unfold packet_of; f_equal.
  apply chunk_app_zeros; [exact Hk | lia].
Qed.

Lemma Serialize_forgets_trailing_zeros_witness :
  let payload := repeat Byte.x61 2500 in
  len payload + Z.of_nat 572 < 2 ^ 53 /\
  (length payload + 572 <= ceil_div (length payload) 1024 * 1024)%nat /\
  Serialize (payload ++ zeros 572) = Serialize payload.
Proof.
  assert (H : len (repeat Byte.x61 2500) + Z.of_nat 572 < 2 ^ 53) by reflexivity.
  assert (K : (length (repeat Byte.x61 2500) + 572
               <= ceil_div (length (repeat Byte.x61 2500)) 1024 * 1024)%nat)
    by (vm_compute; repeat constructor).
  split; [exact H | split; [exact K|]].
  exact (Serialize_forgets_trailing_zeros _ 572 H K).
Defined.

Lemma Serialize_Deserialize_padded payload :
  len payload < 2 ^ 53 ->
  (packets <- Serialize payload ;; Deserialize packets)
  = Ok (payload
          ++ zeros (ceil_div (length payload) PacketDataSize * PacketDataSize
                    - length payload)).
Proof.
  intros H.
  pose proof PacketDataSize_pos as Hd.
  destruct (ceil_div_bracket (length payload) PacketDataSize Hd) as [B1 B2].
  rewrite Serialize_spec by exact H; cbn [bind].
  rewrite Deserialize_spec by apply Forall_packet_of.
  rewrite map_Data_packet_of.
  unfold chunk; now rewrite concat_pad_chunks.
Qed.

Lemma ceil_div_exact (L : nat) :
  (ceil_div L PacketDataSize * PacketDataSize = L <-> L mod 1024 = 0)%nat.
Proof.
  pose proof PacketDataSize_pos as Hd.
  destruct (ceil_div_bracket L PacketDataSize Hd) as [B1 B2].
  change PacketDataSize with 1024%nat in *.
  pose proof (Nat.div_mod_eq L 1024).
  pose proof (Nat.mod_upper_bound L 1024 ltac:(discriminate)).
  split; intros E; nia.
Qed.

(** X9.  [Deserialize] after [Serialize] gives back exactly the payload if
    and only if its length is a multiple of 1024 (the empty payload
    included). *)
Theorem round_trip_exact_iff (payload : list byte) :
  len payload < 2 ^ 53 ->
  (packets <- Serialize payload ;; Deserialize packets) = Ok payload
  <-> (length payload mod 1024 = 0)%nat.
Proof.
  intros H.
  rewrite Serialize_Deserialize_padded by exact H.
  rewrite <- ceil_div_exact.
  pose proof PacketDataSize_pos as Hd.
  destruct (ceil_div_bracket (length payload) PacketDataSize Hd) as [B1 B2].
  split.
  - intros E; apply Ok_inj in E.
    apply (f_equal (@length byte)) in E.
    rewrite length_app, zeros_length in E; lia.
  - intros E; rewrite E, Nat.sub_diag; cbn [zeros repeat].
    now rewrite app_nil_r.
Qed.

Lemma round_trip_exact_iff_witness :
  let payload := repeat Byte.x61 2048 in
  len payload < 2 ^ 53 /\
  ((packets <- Serialize payload ;; Deserialize packets) = Ok payload
   <-> (length payload mod 1024 = 0)%nat).
Proof.
  assert (H : len (repeat Byte.x61 2048) < 2 ^ 53) by reflexivity.
  split; [exact H | exact (round_trip_exact_iff _ H)].
Defined.

Lemma chunk_concat_Data packets :
  Forall packet_typed packets ->
  map (chunk (concat (map Data packets))) (seq 0 (length packets))
  = map Data packets.
Proof.
  pose proof PacketDataSize_pos as Hd.
  induction 1 as [|p packets (_ & _ & Hp) _ IH]; [reflexivity|].
  cbn [length seq map concat].
  rewrite <- seq_shift, map_map.
  unfold chunk in *.
  rewrite (map_ext _ (pad_chunk PacketDataSize
                        (skipn PacketDataSize (Data p ++ concat (map Data packets))))
             (fun k => pad_chunk_succ PacketDataSize Hd _ k)).
  rewrite skipn_app, skipn_all2, Hp, Nat.sub_diag by lia; cbn [skipn app].
  rewrite IH; f_equal.
  rewrite pad_chunk_firstn by exact Hd; cbn [Nat.mul skipn].
  rewrite firstn_app, Hp, Nat.sub_diag, firstn_all2 by lia; cbn [firstn].
  rewrite app_nil_r, Hp, Nat.sub_diag.
  apply app_nil_r.
Qed.

Lemma ceil_div_mul n : ceil_div (n * PacketDataSize) PacketDataSize = n.
Proof.
  symmetry; apply ceil_div_unique; unfold PacketDataSize; lia.
Qed.

(** X10.  [Serialize] after [Deserialize] returns as many packets, with the
    same [Data] blocks in the same order and with the headers renumbered;
    deserializing those gives the same buffer again. *)
Theorem Serialize_Deserialize_blocks (packets : list Packet) :
  Forall packet_typed packets ->
  len packets * 1024 < 2 ^ 53 ->
  exists buf packets',
    Deserialize packets = Ok buf /\
    Serialize buf = Ok packets' /\
    map Data packets' = map Data packets /\
    map GetSequence packets'
    = map (fun i => Ok (Z.of_nat i mod 2 ^ 32)) (seq 0 (length packets)) /\
    Forall (fun p => GetSize p = Ok (len packets mod 2 ^ 32)) packets' /\
    Deserialize packets' = Ok buf.
Proof.
  intros Ht Hlen; unfold len in *.
  pose proof (length_concat_Data packets Ht) as L.
  assert (Hc : ceil_div (length (concat (map Data packets))) PacketDataSize
               = length packets)
    by (rewrite L; apply ceil_div_mul).
  exists (concat (map Data packets)).
  eexists; split; [now apply Deserialize_spec|].
  split.
  { apply Serialize_spec; unfold len; rewrite L.
    change PacketDataSize with 1024%nat; lia. }
  rewrite Hc, map_Data_packet_of, chunk_concat_Data by exact Ht.
  repeat split.
  - rewrite map_map; apply map_ext; intros i.
    apply GetSequence_packet_of.
  - apply Forall_forall; intros p Hp.
    apply in_map_iff in Hp as (k & <- & _).
    apply GetSize_packet_of.
  - rewrite Deserialize_spec by apply Forall_packet_of.
    now rewrite map_Data_packet_of, chunk_concat_Data.
Qed.

Lemma Serialize_Deserialize_blocks_witness :
  let p1 := mkPacket (PutUint32 9) (PutUint32 1) (repeat Byte.x62 1024) in
  let p0 := mkPacket (PutUint32 2) (PutUint32 0) (repeat Byte.x61 1024) in
  Forall packet_typed [p1; p0] /\
  len [p1; p0] * 1024 < 2 ^ 53 /\
  exists buf packets',
    Deserialize [p1; p0] = Ok buf /\
    Serialize buf = Ok packets' /\
    map Data packets' = map Data [p1; p0] /\
    map GetSequence packets'
    = map (fun i => Ok (Z.of_nat i mod 2 ^ 32)) (seq 0 (length [p1; p0])) /\
    Forall (fun p => GetSize p = Ok (len [p1; p0] mod 2 ^ 32)) packets' /\
    Deserialize packets' = Ok buf.
Proof.
  assert (H : Forall packet_typed
                [mkPacket (PutUint32 9) (PutUint32 1) (repeat Byte.x62 1024);
                 mkPacket (PutUint32 2) (PutUint32 0) (repeat Byte.x61 1024)])
    by (repeat constructor).
  assert (L : len [mkPacket (PutUint32 9) (PutUint32 1) (repeat Byte.x62 1024);
                   mkPacket (PutUint32 2) (PutUint32 0) (repeat Byte.x61 1024)]
              * 1024 < 2 ^ 53) by reflexivity.
  split; [exact H | split; [exact L|]].
  exact (Serialize_Deserialize_blocks _ H L).
Defined.

Lemma RebornPacket_ToBytes p : packet_typed p -> RebornPacket (ToBytes p) = p.
Proof.
  intros Hp.
  rewrite (ToBytes_concat p Hp).
  destruct Hp as (Hsize & Hseq & Hdat).
  change PacketAddrSize with 4%nat in *; change PacketDataSize with 1024%nat in *.
  destruct (fields_sub _ _ _ Hsize Hseq Hdat) as (E1 & E2 & E3).
  rewrite RebornPacket_fields, E1, E2, E3.
  - now destruct p.
  - rewrite !length_app, Hsize, Hseq, Hdat; reflexivity.
Qed.

(** X11.  The packets [Serialize] returns survive the wire: each one turns
    into 1032 bytes under [ToBytes], and [RebornPacket] on those bytes
    gives the packet back. *)
Theorem Serialize_wire_round_trip (payload : list byte) :
  len payload < 2 ^ 53 ->
  exists packets,
    Serialize payload = Ok packets /\
    Forall (fun p => length (ToBytes p) = PacketTotalSize) packets /\
    map RebornPacket (map ToBytes packets) = packets.
Proof.
  intros H.
  eexists; split; [now apply Serialize_spec|].
  split.
  - apply Forall_forall; intros p Hp.
    apply in_map_iff in Hp as (k & <- & _).
    rewrite ToBytes_concat by apply packet_of_typed.
    cbn [packet_of Size Sequence Data].
    rewrite !length_app; unfold chunk.
    now rewrite pad_chunk_length by apply PacketDataSize_pos.
  - rewrite map_map.
    erewrite map_ext_in; [apply map_id|].
    intros p Hp; apply in_map_iff in Hp as (k & <- & _).
    apply RebornPacket_ToBytes, packet_of_typed.
Qed.

Lemma Serialize_wire_round_trip_witness :
  let payload := repeat Byte.x61 2500 in
  len payload < 2 ^ 53 /\
  exists packets,
    Serialize payload = Ok packets /\
    Forall (fun p => length (ToBytes p) = PacketTotalSize) packets /\
    map RebornPacket (map ToBytes packets) = packets.
Proof.
  assert (H : len (repeat Byte.x61 2500) < 2 ^ 53) by reflexivity.
  split; [exact H | exact (Serialize_wire_round_trip _ H)].
Defined.

(** X12.  [Deserialize] of two lists of packets put end to end is the two
    buffers put end to end. *)
Theorem Deserialize_app (packets packets' : list Packet) :
  Forall packet_typed packets ->
  Forall packet_typed packets' ->
  exists buf buf',
    Deserialize packets = Ok buf /\
    Deserialize packets' = Ok buf' /\
    Deserialize (packets ++ packets') = Ok (buf ++ buf').
Proof.
  intros H H'.
  exists (concat (map Data packets)), (concat (map Data packets')).
  rewrite !Deserialize_spec by (try apply Forall_app; auto).
  now rewrite map_app, concat_app.
Qed.

Lemma Deserialize_app_witness :
  let p := mkPacket (PutUint32 1) (PutUint32 0) (repeat Byte.x61 1024) in
  let q := mkPacket (PutUint32 1) (PutUint32 0) (repeat Byte.x62 1024) in
  Forall packet_typed [p] /\ Forall packet_typed [q] /\
  exists buf buf',
    Deserialize [p] = Ok buf /\
    Deserialize [q] = Ok buf' /\
    Deserialize ([p] ++ [q]) = Ok (buf ++ buf').
Proof.
  assert (H : Forall packet_typed
                [mkPacket (PutUint32 1) (PutUint32 0) (repeat Byte.x61 1024)])
    by (repeat constructor).
  assert (H' : Forall packet_typed
                 [mkPacket (PutUint32 1) (PutUint32 0) (repeat Byte.x62 1024)])
    by (repeat constructor).
  split; [exact H | split; [exact H'|]].
  exact (Deserialize_app _ _ H H').
Defined.

(** * Further properties of the message envelope *)

(** ** Strings of any bytes *)

Lemma utf8_ValidLoop_complete p :
  utf8_valid p -> forall fuel, (length p <= fuel)%nat -> utf8.ValidLoop fuel p = true.
Proof.
  induction 1 as [|bs r rest Hseq Hrest IH]; intros fuel Hf.
  - now destruct fuel.
  - pose proof (rune_seq_length _ _ Hseq) as L.
    pose proof (rune_seq_range _ _ Hseq) as (_ & _ & R1 & _).
    rewrite length_app in Hf.
    destruct fuel as [|fuel]; [lia|].
    pose proof (DecodeRune_complete bs r rest Hseq) as D.
    destruct bs as [|b tl]; [cbn [length] in L; lia|].
    cbn [app utf8.ValidLoop].
    change (b :: tl ++ rest) with ((b :: tl) ++ rest).
    rewrite D.
    assert (E : (r =? utf8.RuneError) && (length (b :: tl) =? 1)%nat = false).
    { destruct (Nat.eqb_spec (length (b :: tl)) 1) as [E1|]; [|apply andb_false_r].
      specialize (R1 E1); unfold utf8.RuneSelf, utf8.RuneError in *.
      rewrite andb_true_r; apply Z.eqb_neq; lia. }
    rewrite E, skipn_app, skipn_all, Nat.sub_diag; cbn [skipn app].
    apply IH; cbn [length] in *; lia.
Qed.

Lemma utf8_Valid_complete p : utf8_valid p -> utf8.Valid p = true.
Proof. intros H; now apply utf8_ValidLoop_complete. Qed.

Lemma rune_seq_replacement : rune_seq replacement utf8.RuneError.
Proof.
  change utf8.RuneError
    with ((u Byte.xef - 0xE0) * 4096 + (u Byte.xbf - 0x80) * 64 + (u Byte.xbd - 0x80)).
  apply rune_seq3; unfold cont, utf8.locb, utf8.hicb;
    try (intros E; discriminate E); split; discriminate.
Qed.

Lemma lossy_valid s out : lossy s out -> utf8_valid out.
Proof.
  induction 1 as [|bs r rest out Hseq _ IH | b rest out _ _ IH].
  - constructor.
  - econstructor; eauto.
  - econstructor; [apply rune_seq_replacement | exact IH].
Qed.

Lemma lossy_refl s : utf8_valid s -> lossy s s.
Proof. induction 1; econstructor; eauto. Qed.

Lemma lossy_total_len n : forall s, (length s <= n)%nat -> exists out, lossy s out.
Proof.
  induction n as [|n IH]; intros [|b rest] Hn;
    try (exists []; constructor); [cbn [length] in Hn; lia|].
  cbn [length] in Hn.
  destruct (utf8.DecodeRune (firstn utf8.UTFMax (b :: rest))) as [r size] eqn:E.
  destruct (DecodeRune_sound _ _ _ E ltac:(discriminate))
    as [[-> ->] | (bs & q & Hp & Hlen & Hseq)].
  - destruct (IH rest ltac:(lia)) as (out & Hout).
    eexists; apply lossy_bad; eauto.
  - pose proof (rune_seq_length _ _ Hseq) as L.
    pose proof (firstn_skipn utf8.UTFMax (b :: rest)) as Es.
    rewrite Hp, <- app_assoc in Es.
    assert (Hq : (length (q ++ skipn utf8.UTFMax (b :: rest)) <= n)%nat).
    { apply (f_equal (@length byte)) in Es.
      rewrite length_app in Es; cbn [length] in Es; lia. }
    destruct (IH _ Hq) as (out & Hout).
    exists (bs ++ out); rewrite <- Es.
    econstructor; eauto.
Qed.

Lemma lossy_total s : exists out, lossy s out.
Proof. now apply (lossy_total_len (length s)). Qed.

Lemma DecodeRune_bad_high b rest :
  utf8.DecodeRune (firstn utf8.UTFMax (b :: rest)) = (utf8.RuneError, 1%nat) ->
  0x80 <= u b.
Proof.
  intros H.
  destruct (Z.lt_ge_cases (u b) 0x80) as [Hlt|]; [exfalso | assumption].
  assert (Hseq : rune_seq [b] (u b)) by (constructor; exact Hlt).
  pose proof (DecodeRune_firstn [b] (u b) rest Hseq) as D.
  cbn [app] in D; rewrite D in H.
  injection H as H; unfold utf8.RuneError in H; lia.
Qed.

Lemma appendStringLoop_bad f b rest :
  utf8.DecodeRune (firstn utf8.UTFMax (b :: rest)) = (utf8.RuneError, 1%nat) ->
  json.appendStringLoop (S f) (b :: rest)
  = escaped_replacement ++ json.appendStringLoop f rest.
Proof.
  intros H; pose proof (DecodeRune_bad_high _ _ H) as Hb.
  cbn [json.appendStringLoop].
  destruct (Z.ltb_spec (u b) utf8.RuneSelf); [unfold utf8.RuneSelf in *; lia|].
  rewrite H; reflexivity.
Qed.

Lemma scanString_bad tail :
  json.scanString (escaped_replacement ++ tail)
  = match json.scanString tail with
    | Some (raw, rest) => Some (escaped_replacement ++ raw, rest)
    | None => None
    end.
Proof. cbn; now destruct (json.scanString tail) as [[? ?]|]. Qed.

Lemma unquoteLoop_bad f tail :
  json.unquoteLoop (S f) (escaped_replacement ++ tail)
  = option_map (app replacement) (json.unquoteLoop f tail).
Proof. reflexivity. Qed.

Lemma wire_safe_high c : 0x80 <= u c -> wire_safe c = true.
Proof.
  intros H; apply Z.leb_le in H; revert H.
  destruct c; vm_compute; congruence.
Qed.

Lemma wire_safe_asciiOut b : u b < utf8.RuneSelf -> forallb wire_safe (asciiOut b) = true.
Proof.
  intros H; apply Z.ltb_lt in H; revert H.
  destruct b; vm_compute; congruence.
Qed.

Lemma wire_safe_multiOut bs r :
  rune_seq bs r -> (2 <= length bs)%nat -> forallb wire_safe (multiOut bs r) = true.
Proof.
  intros H L.
  destruct (multiOut_cases bs r H L) as [(-> & Hh) | [(_ & ->) | (_ & ->)]];
    try reflexivity.
  apply forallb_forall; intros c Hc.
  apply wire_safe_high.
  now apply (proj1 (Forall_forall _ _) Hh).
Qed.

(** The literal written for any string scans as one literal, unquotes to
    the string with its invalid bytes replaced, and is made of safe
    bytes. *)
Lemma appendStringLoop_lossy s out :
  lossy s out ->
  forall f, (length s <= f)%nat ->
    (forall tail,
        json.scanString (json.appendStringLoop f s ++ dquote :: tail)
        = Some (json.appendStringLoop f s, tail)) /\
    (forall f', (length (json.appendStringLoop f s) <= f')%nat ->
        json.unquoteLoop f' (json.appendStringLoop f s) = Some out) /\
    forallb wire_safe (json.appendStringLoop f s) = true.
Proof.
  induction 1 as [|bs r rest out Hseq Hrest IH | b rest out Hbad Hrest IH];
    intros f Hf.
  - assert (E : json.appendStringLoop f [] = []) by now destruct f.
    rewrite E; split; [|split]; [| |reflexivity].
    + intros tail; cbn [app json.scanString].
      now rewrite byte_eqb_refl.
    + intros f' _; now destruct f'.
  - pose proof (rune_seq_length _ _ Hseq) as L.
    rewrite length_app in Hf.
    destruct f as [|f]; [lia|].
    destruct (IH f ltac:(lia)) as (IHs & IHu & IHw).
    destruct (rune_seq_head _ _ Hseq)
      as (b & tl & -> & [(-> & Hb & _) | (Htl & _ & _)]).
    + cbn [app]; rewrite appendStringLoop_ascii by assumption.
      split; [|split].
      * intros tail; rewrite <- app_assoc, scanString_ascii, IHs by assumption.
        reflexivity.
      * intros f' Hf'; rewrite length_app in Hf'.
        pose proof (asciiOut_length b Hb).
        destruct f' as [|f']; [lia|].
        rewrite unquoteLoop_ascii, IHu by (assumption || lia).
        reflexivity.
      * now rewrite forallb_app, wire_safe_asciiOut, IHw.
    + assert (L2 : (2 <= length (b :: tl))%nat)
        by (destruct tl; [congruence | cbn [length]; lia]).
      rewrite appendStringLoop_multi with (r := r) by assumption.
      split; [|split].
      * intros tail.
        rewrite <- app_assoc, scanString_multi, IHs by assumption.
        reflexivity.
      * intros f' Hf'; rewrite length_app in Hf'.
        pose proof (multiOut_length _ _ Hseq L2).
        destruct f' as [|f']; [lia|].
        rewrite unquoteLoop_multi, IHu by (assumption || lia).
        reflexivity.
      * now rewrite forallb_app, wire_safe_multiOut, IHw.
  - cbn [length] in Hf.
    destruct f as [|f]; [lia|].
    destruct (IH f ltac:(lia)) as (IHs & IHu & IHw).
    rewrite appendStringLoop_bad by assumption.
    split; [|split].
    + intros tail; rewrite <- app_assoc, scanString_bad, IHs; reflexivity.
    + intros f' Hf'; rewrite length_app in Hf'; cbn [length escaped_replacement] in Hf'.
      destruct f' as [|f']; [lia|].
      rewrite unquoteLoop_bad, IHu by lia.
      reflexivity.
    + rewrite forallb_app, IHw; reflexivity.
Qed.

Lemma scanString_appendStringLoop s tail :
  json.scanString (json.appendStringLoop (length s) s ++ dquote :: tail)
  = Some (json.appendStringLoop (length s) s, tail).
Proof.
  destruct (lossy_total s) as (out & H).
  now destruct (appendStringLoop_lossy s out H (length s) (le_n _)) as (Hs & _).
Qed.

Lemma unquoteBytes_appendStringLoop s out :
  lossy s out -> json.unquoteBytes (json.appendStringLoop (length s) s) = Some out.
Proof.
  intros H.
  destruct (appendStringLoop_lossy s out H (length s) (le_n _)) as (_ & Hu & _).
  now apply Hu.
Qed.

Lemma wire_safe_appendString s : forallb wire_safe (json.appendString s) = true.
Proof.
  destruct (lossy_total s) as (out & H).
  destruct (appendStringLoop_lossy s out H (length s) (le_n _)) as (_ & _ & Hw).
  unfold json.appendString; cbn [forallb].
  now rewrite forallb_app, Hw.
Qed.

(** ** Scanning what [Marshal] wrote, whatever the fields hold *)

Lemma scanValue_encodeValue_any v c tail :
  sep c ->
  json.scanValue (json.encodeValue v ++ c :: tail) = Ok (literalOf v, c :: tail).
Proof.
  intros Hc.
  destruct v as [s | [b|] | i]; cbn [json.encodeValue literalOf] in *.
  - unfold json.appendString; cbn [app json.scanValue].
    rewrite byte_eqb_refl, <- app_assoc; cbn [app].
    now rewrite scanString_appendStringLoop.
  - cbn [app json.scanValue].
    rewrite byte_eqb_refl, <- app_assoc; cbn [app].
    rewrite scanString_plain by apply b64char_plain, Forall_b64char_Encode.
    now rewrite scanString_quote, app_nil_r.
  - destruct Hc; subst c; reflexivity.
  - destruct (FormatInt_head i) as (h & rest & E & Hq & Hd & _).
    pose proof (scanNumber_FormatInt i c tail Hc) as S.
    rewrite E in *; cbn [app json.scanValue] in *.
    now rewrite Hq, Hd, S.
Qed.

Lemma scanMembers_encodeFields_any fields : forall name v fuel tail,
  (length fields < fuel)%nat ->
  json.scanMembers fuel
    (dquote :: json.appendStringLoop (length name) name
       ++ dquote :: ":" :: json.encodeValue v
       ++ (json.encodeFields "," fields ++ "}" :: tail))
  = Ok (map memberOf ((name, v) :: fields), tail).
Proof.
  induction fields as [|[name' v'] fields IH]; intros name v fuel tail Hfuel;
    (destruct fuel as [|fuel]; [cbn [length] in Hfuel; lia|]);
    destruct (encodeValue_head v) as (h & rest & Eh & Hh);
    cbn [json.scanMembers]; rewrite byte_eqb_refl, scanString_appendStringLoop;
    cbn [json.skipSpace]; change (json.isSpace ":") with false; cbv iota;
    change (Byte.eqb ":" ":") with true; cbv iota.
  - cbn [json.encodeFields app map].
    pose proof (scanValue_encodeValue_any v "}" tail (or_intror eq_refl)) as Sv.
    rewrite Eh in *; cbn [app] in *.
    rewrite skipSpace_head by assumption.
    rewrite Sv; cbn [bind].
    reflexivity.
  - rewrite encodeFields_cons_app.
    pose proof (scanValue_encodeValue_any v ","
                  (dquote :: json.appendStringLoop (length name') name'
                     ++ dquote :: ":" :: json.encodeValue v'
                     ++ (json.encodeFields "," fields ++ "}" :: tail))
                  (or_introl eq_refl)) as Sv.
    rewrite Eh in *; cbn [app] in *.
    rewrite skipSpace_head by assumption.
    rewrite Sv; cbn [bind].
    rewrite (skipSpace_head ",") by reflexivity.
    change (Byte.eqb "," ",") with true; cbv iota.
    rewrite (skipSpace_head dquote) by reflexivity.
    rewrite (IH name' v' fuel tail) by (cbn [length] in Hfuel; lia).
    reflexivity.
Qed.

(** The text [Marshal] wrote, followed by [rest]: a JSON text if [rest] is
    white space only, a syntax error otherwise. *)
Lemma scanText_Marshal_tail fields rest :
  exists data,
    json.Marshal fields = Ok data /\
    json.scanText (data ++ rest)
    = match json.skipSpace rest with
      | [] => Ok (json.TObject (map memberOf fields))
      | _ :: _ => Err SyntaxError
      end.
Proof.
  destruct fields as [|[name v] fields].
  - eexists; split; [reflexivity|].
    cbn [list_byte_of_string app]; unfold json.scanText.
    cbn -[json.skipSpace].
    rewrite (skipSpace_head "{"), (skipSpace_head "}") by reflexivity.
    cbn -[json.skipSpace].
    now destruct (json.skipSpace rest).
  - eexists; split; [reflexivity|].
    rewrite <- app_assoc; cbn [app].
    rewrite encodeFields_cons_app.
    unfold json.scanText.
    rewrite (skipSpace_head "{") by reflexivity.
    change (Byte.eqb "{" "{") with true; cbv iota.
    rewrite (skipSpace_head dquote) by reflexivity.
    change (Byte.eqb dquote "}") with false; cbv iota.
    rewrite scanMembers_encodeFields_any.
    + cbn [bind map]; now destruct (json.skipSpace rest).
    + pose proof (encodeFields_length "," fields) as L.
      cbn [length]; rewrite !length_app; cbn [length]; rewrite !length_app; lia.
Qed.

(** ** Storing the members, whatever the strings hold *)

Lemma literalStore_literalOf_lossy v v' old :
  lossy_value v v' -> same_kind v old -> json.literalStore (literalOf v) old = Ok v'.
Proof.
  destruct v as [s | [b|] | i], v' as [s' | b' | i'], old as [s'' | b'' | i''];
    cbn [lossy_value same_kind literalOf json.literalStore]; intros Hv Hk;
    try contradiction; try (subst; reflexivity).
  - now rewrite (unquoteBytes_appendStringLoop s s').
  - subst; now rewrite unquoteBytes_Encode, Decode_Encode.
  - destruct Hv as [<- Hr]; now rewrite ParseInt_FormatInt.
Qed.

Lemma storeMember_field_lossy done name v v' old rest :
  utf8_valid name -> lossy_value v v' -> same_kind v old ->
  ~ In name (map fst done) ->
  json.storeMember (done ++ (name, old) :: rest) (memberOf (name, v))
  = Ok (done ++ (name, v') :: rest).
Proof.
  intros Hname Hv Hk Hin.
  unfold json.storeMember, memberOf; cbn [fst snd].
  rewrite (unquoteBytes_appendStringLoop name name) by now apply lossy_refl.
  unfold json.findField; rewrite findIndex_exact by assumption.
  cbn [Nat.add].
  rewrite nth_error_app2, Nat.sub_diag by lia; cbn [nth_error].
  rewrite (literalStore_literalOf_lossy v v') by assumption; cbn [bind].
  now rewrite setField_app.
Qed.

Lemma storeMembers_fields_lossy fields : forall fields' target done,
  Forall2 lossy_field fields fields' ->
  Forall2 same_field fields target ->
  NoDup (map fst fields) ->
  (forall n, In n (map fst done) -> ~ In n (map fst fields)) ->
  json.storeMembers (map memberOf fields) (done ++ target) = Ok (done ++ fields').
Proof.
  induction fields as [|[name v] fields IH]; intros fields' target done Hl Hsame Hnd Hdis;
    inversion Hl as [|? [name1 v'] ? fields1 (Hn1 & Hname & Hv) Hl']; subst;
    inversion Hsame as [|? [name2 old] ? target' [Hn2 Hk] Hsame']; subst;
    cbn [map json.storeMembers].
  - reflexivity.
  - cbn [fst snd] in *; subst name1 name2.
    inversion Hnd; subst.
    rewrite (storeMember_field_lossy done name v v'); auto.
    + cbn [bind].
      specialize (IH fields1 target' (done ++ [(name, v')])).
      rewrite <- !app_assoc in IH; cbn [app] in IH.
      apply IH; auto.
      intros n Hin; rewrite map_app, in_app_iff in Hin; cbn [map fst In] in Hin.
      destruct Hin as [Hin | [<- | []]]; [|assumption].
      intros Hn; apply (Hdis n Hin); now right.
    + intros Hin; apply (Hdis name Hin); now left.
Qed.

(** [Unmarshal] of what [Marshal] wrote, followed by [rest]. *)
Lemma Unmarshal_Marshal_tail fields fields' target rest :
  Forall2 lossy_field fields fields' ->
  Forall2 same_field fields target ->
  NoDup (map fst fields) ->
  exists data,
    json.Marshal fields = Ok data /\
    json.Unmarshal (data ++ rest) target
    = match json.skipSpace rest with
      | [] => Ok fields'
      | _ :: _ => Err SyntaxError
      end.
Proof.
  intros Hl Hsame Hnd.
  destruct (scanText_Marshal_tail fields rest) as (data & E & Hscan).
  exists data; split; [exact E|].
  unfold json.Unmarshal; rewrite Hscan.
  destruct (json.skipSpace rest); [|reflexivity].
  cbn [bind].
  apply (storeMembers_fields_lossy fields fields' target []); auto.
Qed.

(** ** The two envelopes *)

Lemma skipSpace_forallb {A : Type} rest (a b : A) :
  match json.skipSpace rest with [] => a | _ :: _ => b end
  = if forallb json.isSpace rest then a else b.
Proof.
  induction rest as [|c rest IH]; cbn [json.skipSpace forallb]; [reflexivity|].
  now destruct (json.isSpace c).
Qed.

Lemma skipSpace_app ws s :
  forallb json.isSpace ws = true -> json.skipSpace (ws ++ s) = json.skipSpace s.
Proof.
  induction ws as [|c ws IH]; cbn [forallb app json.skipSpace]; [reflexivity|].
  intros H; apply andb_true_iff in H as [-> H]; auto.
Qed.

Lemma skipSpace_all ws : forallb json.isSpace ws = true -> json.skipSpace ws = [].
Proof.
  intros H; rewrite <- (app_nil_r ws); now rewrite skipSpace_app.
Qed.

Lemma name_valid (name : list byte) : utf8.Valid name = true -> utf8_valid name.
Proof. apply utf8_Valid_sound. Qed.

Lemma Request_fields_lossy req u' d' :
  lossy (Request.Username req) u' -> lossy (Request.DataType req) d' ->
  Forall2 lossy_field (Request.fields req)
          (Request.fields (Request.mk u' d' (Request.Data req))).
Proof.
  intros Hu Hd; unfold Request.fields; cbn [Request.Username Request.DataType Request.Data].
  repeat constructor; cbn [fst snd lossy_value]; auto;
    apply name_valid; reflexivity.
Qed.

Lemma Response_fields_lossy res m' :
  - 2 ^ 63 <= Response.Status res < 2 ^ 63 ->
  lossy (Response.Message res) m' ->
  Forall2 lossy_field (Response.fields res)
          (Response.fields (Response.mk (Response.Status res) m' (Response.Data res))).
Proof.
  intros Hs Hm; unfold Response.fields;
    cbn [Response.Status Response.Message Response.Data].
  repeat constructor; cbn [fst snd lossy_value]; auto;
    try (apply name_valid; reflexivity); lia.
Qed.

Lemma Request_same_field req :
  Forall2 same_field (Request.fields req) (Request.fields Request.zero).
Proof. repeat constructor. Qed.

Lemma Response_same_field res :
  Forall2 same_field (Response.fields res) (Response.fields Response.zero).
Proof. repeat constructor. Qed.

Lemma Request_NoDup req : NoDup (map fst (Request.fields req)).
Proof. apply NoDup_3; intros E; discriminate E. Qed.

Lemma Response_NoDup res : NoDup (map fst (Response.fields res)).
Proof. apply NoDup_3; intros E; discriminate E. Qed.

Lemma RebornRequest_ToJSON_tail req u' d' rest :
  lossy (Request.Username req) u' -> lossy (Request.DataType req) d' ->
  exists jsonStr,
    Request.ToJSON req = Ok jsonStr /\
    RebornRequest (jsonStr ++ rest)
    = if forallb json.isSpace rest
      then Ok (Request.mk u' d' (Request.Data req))
      else Err SyntaxError.
Proof.
  intros Hu Hd.
  destruct (Unmarshal_Marshal_tail _ _ (Request.fields Request.zero) rest
              (Request_fields_lossy req u' d' Hu Hd)
              (Request_same_field req) (Request_NoDup req))
    as (data & E & U).
  exists data; unfold Request.ToJSON, RebornRequest.
  rewrite E, U, skipSpace_forallb; cbn [bind].
  split; [reflexivity|].
  now destruct (forallb json.isSpace rest).
Qed.

Lemma RebornResponse_ToJSON_tail res m' rest :
  - 2 ^ 63 <= Response.Status res < 2 ^ 63 ->
  lossy (Response.Message res) m' ->
  exists jsonStr,
    Response.ToJSON res = Ok jsonStr /\
    RebornResponse (jsonStr ++ rest)
    = if forallb json.isSpace rest
      then Ok (Response.mk (Response.Status res) m' (Response.Data res))
      else Err SyntaxError.
Proof.
  intros Hs Hm.
  destruct (Unmarshal_Marshal_tail _ _ (Response.fields Response.zero) rest
              (Response_fields_lossy res m' Hs Hm)
              (Response_same_field res) (Response_NoDup res))
    as (data & E & U).
  exists data; unfold Response.ToJSON, RebornResponse.
  rewrite E, U, skipSpace_forallb; cbn [bind].
  split; [reflexivity|].
  now destruct (forallb json.isSpace rest).
Qed.

(** X13.  The text round trip of an envelope never fails, whatever bytes
    its strings hold: [Data] (and [Status]) come back unchanged, and each
    string comes back with its invalid bytes replaced by U+FFFD, hence as
    valid UTF-8; the value that comes back is a fixed point of the round
    trip. *)
Theorem envelope_round_trip_any_bytes (req : Request.t) (res : Response.t) :
  - 2 ^ 63 <= Response.Status res < 2 ^ 63 ->
  (exists req',
      (jsonStr <- Request.ToJSON req ;; RebornRequest jsonStr) = Ok req' /\
      lossy (Request.Username req) (Request.Username req') /\
      lossy (Request.DataType req) (Request.DataType req') /\
      Request.Data req' = Request.Data req /\
      utf8.Valid (Request.Username req') = true /\
      utf8.Valid (Request.DataType req') = true /\
      (jsonStr <- Request.ToJSON req' ;; RebornRequest jsonStr) = Ok req') /\
  (exists res',
      (jsonStr <- Response.ToJSON res ;; RebornResponse jsonStr) = Ok res' /\
      Response.Status res' = Response.Status res /\
      lossy (Response.Message res) (Response.Message res') /\
      Response.Data res' = Response.Data res /\
      utf8.Valid (Response.Message res') = true /\
      (jsonStr <- Response.ToJSON res' ;; RebornResponse jsonStr) = Ok res').
Proof.
  intros Hs; split.
  - destruct (lossy_total (Request.Username req)) as (u' & Hu).
    destruct (lossy_total (Request.DataType req)) as (d' & Hd).
    pose proof (lossy_valid _ _ Hu) as Vu.
    pose proof (lossy_valid _ _ Hd) as Vd.
    exists (Request.mk u' d' (Request.Data req)).
    cbn [Request.Username Request.DataType Request.Data].
    destruct (RebornRequest_ToJSON_tail req u' d' [] Hu Hd) as (j & -> & R).
    rewrite app_nil_r in R; cbn [bind forallb] in *.
    destruct (RebornRequest_ToJSON_tail (Request.mk u' d' (Request.Data req)) u' d' []
                (lossy_refl _ Vu) (lossy_refl _ Vd)) as (j' & -> & R').
    rewrite app_nil_r in R'; cbn [bind forallb] in *.
    repeat split; auto using utf8_Valid_complete.
  - destruct (lossy_total (Response.Message res)) as (m' & Hm).
    pose proof (lossy_valid _ _ Hm) as Vm.
    exists (Response.mk (Response.Status res) m' (Response.Data res)).
    cbn [Response.Status Response.Message Response.Data].
    destruct (RebornResponse_ToJSON_tail res m' [] Hs Hm) as (j & -> & R).
    rewrite app_nil_r in R; cbn [bind forallb] in *.
    destruct (RebornResponse_ToJSON_tail
                (Response.mk (Response.Status res) m' (Response.Data res)) m' []
                Hs (lossy_refl _ Vm)) as (j' & -> & R').
    rewrite app_nil_r in R'; cbn [bind forallb] in *.
    repeat split; auto using utf8_Valid_complete.
Qed.

Lemma envelope_round_trip_any_bytes_witness :
  let req := Request.mk [Byte.xff; Byte.x61] [Byte.xc3] (Some [Byte.xff]) in
  let res := Response.mk (-1) [Byte.xe2; Byte.x82] None in
  - 2 ^ 63 <= Response.Status res < 2 ^ 63 /\
  (exists req',
      (jsonStr <- Request.ToJSON req ;; RebornRequest jsonStr) = Ok req' /\
      lossy (Request.Username req) (Request.Username req') /\
      lossy (Request.DataType req) (Request.DataType req') /\
      Request.Data req' = Request.Data req /\
      utf8.Valid (Request.Username req') = true /\
      utf8.Valid (Request.DataType req') = true /\
      (jsonStr <- Request.ToJSON req' ;; RebornRequest jsonStr) = Ok req') /\
  (exists res',
      (jsonStr <- Response.ToJSON res ;; RebornResponse jsonStr) = Ok res' /\
      Response.Status res' = Response.Status res /\
      lossy (Response.Message res) (Response.Message res') /\
      Response.Data res' = Response.Data res /\
      utf8.Valid (Response.Message res') = true /\
      (jsonStr <- Response.ToJSON res' ;; RebornResponse jsonStr) = Ok res').
Proof.
  assert (H : - 2 ^ 63 <= -1 < 2 ^ 63) by (split; [discriminate | reflexivity]).
  split; [exact H|].
  exact (envelope_round_trip_any_bytes
           (Request.mk [Byte.xff; Byte.x61] [Byte.xc3] (Some [Byte.xff]))
           (Response.mk (-1) [Byte.xe2; Byte.x82] None) H).
Defined.

Lemma Unmarshal_app_tail fields target rest :
  exists data,
    json.Marshal fields = Ok data /\
    json.Unmarshal (data ++ rest) target
    = if forallb json.isSpace rest then json.Unmarshal data target
      else Err SyntaxError.
Proof.
  destruct (scanText_Marshal_tail fields rest) as (data & E & Hscan).
  destruct (scanText_Marshal_tail fields []) as (data' & E' & Hscan').
  rewrite E in E'; apply Ok_inj in E'; subst data'.
  rewrite app_nil_r in Hscan'; cbn [json.skipSpace] in Hscan'.
  exists data; split; [exact E|].
  unfold json.Unmarshal; rewrite Hscan, Hscan', skipSpace_forallb.
  now destruct (forallb json.isSpace rest).
Qed.

(** X14.  After the text [ToJSON] wrote, [RebornRequest] and
    [RebornResponse] tolerate white space (space, tab, line feed, carriage
    return) and nothing else: any other trailing byte makes them fail with
    a syntax error, whatever the envelope holds. *)
Theorem Reborn_trailing_bytes (req : Request.t) (res : Response.t)
    (rest : list byte) :
  exists jsonReq jsonRes,
    Request.ToJSON req = Ok jsonReq /\
    Response.ToJSON res = Ok jsonRes /\
    RebornRequest (jsonReq ++ rest)
    = (if forallb json.isSpace rest then RebornRequest jsonReq
       else Err SyntaxError) /\
    RebornResponse (jsonRes ++ rest)
    = (if forallb json.isSpace rest then RebornResponse jsonRes
       else Err SyntaxError).
Proof.
  destruct (Unmarshal_app_tail (Request.fields req)
              (Request.fields Request.zero) rest) as (j1 & E1 & U1).
  destruct (Unmarshal_app_tail (Response.fields res)
              (Response.fields Response.zero) rest) as (j2 & E2 & U2).
  exists j1, j2; unfold Request.ToJSON, Response.ToJSON, RebornRequest, RebornResponse.
  rewrite E1, E2, U1, U2; cbn [bind].
  repeat split; now destruct (forallb json.isSpace rest).
Qed.

Lemma storeMember_unknown fields name l :
  utf8_valid name -> json.findField name fields = None ->
  json.storeMember fields (json.appendStringLoop (length name) name, l) = Ok fields.
Proof.
  intros Hname Hf; unfold json.storeMember.
  rewrite (unquoteBytes_appendStringLoop name name) by now apply lossy_refl.
  now rewrite Hf.
Qed.

Lemma storeMember_known fields name v i n old :
  utf8_valid name -> json.findField name fields = Some i ->
  nth_error fields i = Some (n, old) ->
  (exists k, - 2 ^ 63 <= k < 2 ^ 63 /\ v = json.Int k) \/ (exists b, v = json.Bytes b) ->
  same_kind v old ->
  json.storeMember fields (memberOf (name, v)) = Ok (json.setField i v fields).
Proof.
  intros Hname Hf Hn Hv Hk; unfold json.storeMember, memberOf; cbn [fst snd].
  rewrite (unquoteBytes_appendStringLoop name name) by now apply lossy_refl.
  rewrite Hf, Hn.
  rewrite (literalStore_literalOf_lossy v v); [reflexivity | | exact Hk].
  destruct Hv as [(k & Hr & ->) | (b & ->)]; cbn [lossy_value]; auto.
Qed.

(** X15.  The two envelopes are not told apart: the text of a [Response]
    decodes without error as a [Request], and the text of a [Request] as a
    [Response].  The members whose key names no field are skipped, so only
    [Data] is carried over and the other fields keep their zero value. *)
Theorem Reborn_cross_decoding (req : Request.t) (res : Response.t) :
  (jsonStr <- Response.ToJSON res ;; RebornRequest jsonStr)
  = Ok (Request.mk [] [] (Response.Data res)) /\
  (jsonStr <- Request.ToJSON req ;; RebornResponse jsonStr)
  = Ok (Response.mk 0 [] (Request.Data req)).
Proof.
  split.
  - destruct (scanText_Marshal_tail (Response.fields res) []) as (data & E & Hscan).
    unfold Response.ToJSON, RebornRequest, json.Unmarshal.
    rewrite E; cbn [bind]; rewrite app_nil_r in Hscan; rewrite Hscan.
    cbn [json.skipSpace bind Response.fields map json.storeMembers].
    unfold memberOf at 1 2; cbn [fst snd].
    rewrite storeMember_unknown by (try apply name_valid; reflexivity).
    cbn [bind].
    rewrite storeMember_unknown by (try apply name_valid; reflexivity).
    cbn [bind].
    erewrite storeMember_known;
      [ | apply name_valid; reflexivity | reflexivity | reflexivity
        | right; eexists; reflexivity | exact I ].
    reflexivity.
  - destruct (scanText_Marshal_tail (Request.fields req) []) as (data & E & Hscan).
    unfold Request.ToJSON, RebornResponse, json.Unmarshal.
    rewrite E; cbn [bind]; rewrite app_nil_r in Hscan; rewrite Hscan.
    cbn [json.skipSpace bind Request.fields map json.storeMembers].
    unfold memberOf at 1 2; cbn [fst snd].
    rewrite storeMember_unknown by (try apply name_valid; reflexivity).
    cbn [bind].
    rewrite storeMember_unknown by (try apply name_valid; reflexivity).
    cbn [bind].
    erewrite storeMember_known;
      [ | apply name_valid; reflexivity | reflexivity | reflexivity
        | right; eexists; reflexivity | exact I ].
    reflexivity.
Qed.

(** ** The bytes of the text *)

Lemma wire_safe_encode v : 0 <= v < 64 -> wire_safe (base64.encode v) = true.
Proof.
  intros H; apply (sextet_cases v); [exact H|].
  intros n Hn; do 64 (destruct n as [|n]; [reflexivity|]); lia.
Qed.

Lemma wire_safe_sextet val k : wire_safe (base64.sextet val k) = true.
Proof. apply wire_safe_encode, land_63_range. Qed.

Lemma wire_safe_Encode : forall src, forallb wire_safe (base64.Encode src) = true.
Proof.
  induction src as [|a|a b|a b c rest IH] using list_ind3;
    cbn [base64.Encode app forallb]; cbv zeta;
    rewrite ?wire_safe_sextet, ?IH; reflexivity.
Qed.

Lemma wire_safe_digit c : strconv.isDigit c = true -> wire_safe c = true.
Proof. destruct c; vm_compute; congruence. Qed.

Lemma wire_safe_bytes_of_uint d : forallb wire_safe (strconv.bytes_of_uint d) = true.
Proof.
  apply forallb_forall; intros c Hc.
  apply wire_safe_digit.
  now apply (proj1 (Forall_forall _ _) (bytes_of_uint_digits d)).
Qed.

Lemma wire_safe_encodeValue v : forallb wire_safe (json.encodeValue v) = true.
Proof.
  destruct v as [s | [b|] | i]; cbn [json.encodeValue].
  - apply wire_safe_appendString.
  - cbn [forallb]; now rewrite forallb_app, wire_safe_Encode.
  - reflexivity.
  - unfold strconv.FormatInt; destruct (Z.to_int i); cbn [forallb];
      now rewrite wire_safe_bytes_of_uint.
Qed.

Lemma wire_safe_encodeFields fields : forall next,
  wire_safe next = true -> forallb wire_safe (json.encodeFields next fields) = true.
Proof.
  induction fields as [|[name v] fields IH]; intros next Hn;
    cbn [json.encodeFields forallb]; [reflexivity|].
  rewrite Hn, !forallb_app, wire_safe_appendString, wire_safe_encodeValue, IH;
    reflexivity.
Qed.

Lemma wire_safe_Marshal fields :
  exists data, json.Marshal fields = Ok data /\ forallb wire_safe data = true.
Proof.
  destruct fields as [|f fields]; eexists; (split; [reflexivity|]); [reflexivity|].
  rewrite forallb_app, wire_safe_encodeFields; reflexivity.
Qed.

Lemma wire_safe_not_delim l : forallb wire_safe l = true -> ~ In ByteDelim l.
Proof.
  intros H Hin.
  now pose proof (proj1 (forallb_forall _ _) H _ Hin) as E.
Qed.

(** X16.  The text [ToJSON] writes, whatever the envelope holds, contains
    no control character, so neither the delimiter [ByteDelim] nor a line
    break, and none of the characters [<], [>], [&]. *)
Theorem ToJSON_bytes_safe (req : Request.t) (res : Response.t) :
  exists jsonReq jsonRes,
    Request.ToJSON req = Ok jsonReq /\
    Response.ToJSON res = Ok jsonRes /\
    forallb wire_safe jsonReq = true /\ ~ In ByteDelim jsonReq /\
    forallb wire_safe jsonRes = true /\ ~ In ByteDelim jsonRes.
Proof.
  destruct (wire_safe_Marshal (Request.fields req)) as (j1 & E1 & W1).
  destruct (wire_safe_Marshal (Response.fields res)) as (j2 & E2 & W2).
  exists j1, j2; unfold Request.ToJSON, Response.ToJSON.
  rewrite E1, E2; cbn [bind].
  repeat split; auto using wire_safe_not_delim.
Qed.

(** ** The text and the serializer *)

Lemma bind_assoc {A B C : Type} (m : result A) (f : A -> result B) (g : B -> result C) :
  (x <- m ;; y <- f x ;; g y) = (y <- (x <- m ;; f x) ;; g y).
Proof. now destruct m. Qed.

Lemma forallb_isSpace_zeros k :
  forallb json.isSpace (zeros k) = (k =? 0)%nat.
Proof. now destruct k. Qed.

Lemma padding_zero_iff (L : nat) :
  ((ceil_div L PacketDataSize * PacketDataSize - L =? 0) = (L mod 1024 =? 0))%nat.
Proof.
  pose proof PacketDataSize_pos as Hd.
  destruct (ceil_div_bracket L PacketDataSize Hd) as [B1 B2].
  pose proof (ceil_div_exact L) as [E1 E2].
  destruct (Nat.eqb_spec (L mod 1024) 0) as [H|H].
  - apply Nat.eqb_eq; rewrite (E2 H); lia.
  - apply Nat.eqb_neq; intros E; apply H, E1; lia.
Qed.

(** X17.  A text sent through [Serialize] and [Deserialize] comes out with
    the zero padding of its last packet, and the decoders take no zero byte
    after the text: unless the length of the text is a multiple of 1024,
    [RebornRequest] and [RebornResponse] fail on the buffer with a syntax
    error. *)
Theorem Reborn_padded_buffer (req : Request.t) (res : Response.t)
    (jsonReq jsonRes : list byte) :
  Request.ToJSON req = Ok jsonReq -> len jsonReq < 2 ^ 53 ->
  Response.ToJSON res = Ok jsonRes -> len jsonRes < 2 ^ 53 ->
  (packets <- Serialize jsonReq ;; buf <- Deserialize packets ;; RebornRequest buf)
  = (if (length jsonReq mod 1024 =? 0)%nat then RebornRequest jsonReq
     else Err SyntaxError) /\
  (packets <- Serialize jsonRes ;; buf <- Deserialize packets ;; RebornResponse buf)
  = (if (length jsonRes mod 1024 =? 0)%nat then RebornResponse jsonRes
     else Err SyntaxError).
Proof.
  intros E1 L1 E2 L2.
  rewrite !bind_assoc, !Serialize_Deserialize_padded by assumption; cbn [bind].
  destruct (Unmarshal_app_tail (Request.fields req) (Request.fields Request.zero)
              (zeros (ceil_div (length jsonReq) PacketDataSize * PacketDataSize
                      - length jsonReq))) as (j1 & M1 & U1).
  destruct (Unmarshal_app_tail (Response.fields res) (Response.fields Response.zero)
              (zeros (ceil_div (length jsonRes) PacketDataSize * PacketDataSize
                      - length jsonRes))) as (j2 & M2 & U2).
  unfold Request.ToJSON, Response.ToJSON in E1, E2.
  rewrite M1 in E1; rewrite M2 in E2; cbn [bind] in E1, E2.
  apply Ok_inj in E1, E2; subst j1 j2.
  unfold RebornRequest, RebornResponse.
  rewrite U1, U2, !forallb_isSpace_zeros, !padding_zero_iff.
  split; [now destruct (length jsonReq mod 1024 =? 0)%nat
         | now destruct (length jsonRes mod 1024 =? 0)%nat].
Qed.

Lemma Reborn_padded_buffer_witness :
  let req := Request.mk (list_byte_of_string "alice")
                        (list_byte_of_string "IDENTITY") (Some [ByteDelim]) in
  let res := Response.mk 200 (list_byte_of_string "ACCEPT") None in
  let jsonReq := match Request.ToJSON req with Ok j => j | Err _ => [] end in
  let jsonRes := match Response.ToJSON res with Ok j => j | Err _ => [] end in
  Request.ToJSON req = Ok jsonReq /\ len jsonReq < 2 ^ 53 /\
  Response.ToJSON res = Ok jsonRes /\ len jsonRes < 2 ^ 53 /\
  (packets <- Serialize jsonReq ;; buf <- Deserialize packets ;; RebornRequest buf)
  = (if (length jsonReq mod 1024 =? 0)%nat then RebornRequest jsonReq
     else Err SyntaxError) /\
  (packets <- Serialize jsonRes ;; buf <- Deserialize packets ;; RebornResponse buf)
  = (if (length jsonRes mod 1024 =? 0)%nat then RebornResponse jsonRes
     else Err SyntaxError).
Proof.
  cbv zeta.
  do 4 (split; [reflexivity|]).
  apply Reborn_padded_buffer
    with (req := Request.mk (list_byte_of_string "alice")
                            (list_byte_of_string "IDENTITY") (Some [ByteDelim]))
         (res := Response.mk 200 (list_byte_of_string "ACCEPT") None);
    reflexivity.
Defined.

(** ** Texts that are no object *)

Lemma scanText_space ws :
  forallb json.isSpace ws = true -> json.scanText ws = Err SyntaxError.
Proof. intros H; unfold json.scanText; now rewrite skipSpace_all. Qed.

Lemma scanText_null ws ws' :
  forallb json.isSpace ws = true -> forallb json.isSpace ws' = true ->
  json.scanText (ws ++ list_byte_of_string "null" ++ ws')
  = Ok (json.TLiteral json.LNull).
Proof.
  intros H H'; unfold json.scanText.
  rewrite skipSpace_app by assumption.
  change (list_byte_of_string "null") with ["n"; "u"; "l"; "l"]; cbn [app].
  rewrite (skipSpace_head "n") by reflexivity.
  cbn -[json.skipSpace].
  now rewrite skipSpace_all.
Qed.

Lemma scanText_empty_object ws ws' :
  forallb json.isSpace ws = true -> forallb json.isSpace ws' = true ->
  json.scanText (ws ++ list_byte_of_string "{}" ++ ws') = Ok (json.TObject []).
Proof.
  intros H H'; unfold json.scanText.
  rewrite skipSpace_app by assumption.
  change (list_byte_of_string "{}") with ["{"; "}"]; cbn [app].
  rewrite (skipSpace_head "{") by reflexivity.
  cbn -[json.skipSpace].
  rewrite (skipSpace_head "}") by reflexivity.
  cbn -[json.skipSpace].
  now rewrite skipSpace_all.
Qed.

(** X18.  [RebornRequest] and [RebornResponse] fail with a syntax error on
    an input that is empty or white space only; they accept the texts
    [null] and [{}], with white space around them, and return the zero
    value of the envelope. *)
Theorem Reborn_edge_inputs (ws ws' : list byte) :
  forallb json.isSpace ws = true ->
  forallb json.isSpace ws' = true ->
  RebornRequest ws = Err SyntaxError /\
  RebornResponse ws = Err SyntaxError /\
  RebornRequest (ws ++ list_byte_of_string "null" ++ ws') = Ok Request.zero /\
  RebornResponse (ws ++ list_byte_of_string "null" ++ ws') = Ok Response.zero /\
  RebornRequest (ws ++ list_byte_of_string "{}" ++ ws') = Ok Request.zero /\
  RebornResponse (ws ++ list_byte_of_string "{}" ++ ws') = Ok Response.zero.
Proof.
  intros H H'.
  unfold RebornRequest, RebornResponse, json.Unmarshal.
  rewrite scanText_space, scanText_null, scanText_empty_object by assumption.
  repeat split.
Qed.

Lemma Reborn_edge_inputs_witness :
  forallb json.isSpace [Byte.x20; Byte.x0a] = true /\
  forallb json.isSpace [Byte.x09] = true /\
  RebornRequest [Byte.x20; Byte.x0a] = Err SyntaxError /\
  RebornResponse [Byte.x20; Byte.x0a] = Err SyntaxError /\
  RebornRequest ([Byte.x20; Byte.x0a] ++ list_byte_of_string "null" ++ [Byte.x09])
  = Ok Request.zero /\
  RebornResponse ([Byte.x20; Byte.x0a] ++ list_byte_of_string "null" ++ [Byte.x09])
  = Ok Response.zero /\
  RebornRequest ([Byte.x20; Byte.x0a] ++ list_byte_of_string "{}" ++ [Byte.x09])
  = Ok Request.zero /\
  RebornResponse ([Byte.x20; Byte.x0a] ++ list_byte_of_string "{}" ++ [Byte.x09])
  = Ok Response.zero.
Proof.
  split; [reflexivity | split; [reflexivity|]].
  exact (Reborn_edge_inputs [Byte.x20; Byte.x0a] [Byte.x09] eq_refl eq_refl).
Defined.

(** ** Truncated texts *)

(** A string literal cut before its closing quote does not scan. *)
Lemma scanString_prefix_None n : forall s raw rest p q,
  (length s <= n)%nat ->
  json.scanString s = Some (raw, rest) -> s = p ++ q ->
  (length p <= length raw)%nat ->
  json.scanString p = None.
Proof.
  induction n as [|n IH]; intros s raw rest p q Hn Hs Hpq Hlen.
  - destruct s; [discriminate Hs | cbn [length] in Hn; lia].
  - destruct p as [|c p1]; [reflexivity|].
    destruct s as [|c0 s1]; [discriminate|].
    cbn [app] in Hpq; injection Hpq as -> Hpq.
    cbn [length] in Hn.
    cbn [json.scanString] in Hs |- *.
    destruct (Byte.eqb c dquote).
    { injection Hs as <- <-; cbn [length] in Hlen; lia. }
    destruct (Byte.eqb c "\").
    { destruct s1 as [|e s2]; [discriminate|].
      destruct p1 as [|e' p2]; [reflexivity|].
      cbn [app] in Hpq; injection Hpq as -> Hpq.
      cbn [length] in Hn.
      destruct (json.isSimpleEscape e').
      { destruct (json.scanString s2) as [[raw' rest']|] eqn:E; [|discriminate].
        injection Hs as <- <-; cbn [length] in Hlen.
        rewrite (IH s2 raw' rest' p2 q); auto; lia. }
      destruct (Byte.eqb e' "u"); [|discriminate].
      destruct s2 as [|h1 [|h2 [|h3 [|h4 s3]]]]; try discriminate.
      destruct (json.isHex h1 && json.isHex h2 && json.isHex h3 && json.isHex h4)
        eqn:Hhex; [|discriminate].
      destruct (json.scanString s3) as [[raw' rest']|] eqn:E; [|discriminate].
      injection Hs as <- <-; cbn [length] in Hlen, Hn.
      destruct p2 as [|a1 [|a2 [|a3 [|a4 p3]]]]; try reflexivity.
      cbn [app] in Hpq; injection Hpq as -> -> -> -> Hpq.
      cbn [length] in Hlen.
      rewrite Hhex, (IH s3 raw' rest' p3 q); auto; lia. }
    destruct (u c <? 0x20); [discriminate|].
    destruct (json.scanString s1) as [[raw' rest']|] eqn:E; [|discriminate].
    injection Hs as <- <-; cbn [length] in Hlen.
    rewrite (IH s1 raw' rest' p1 q); auto; lia.
Qed.

(** A literal between quotes that scans: any cut of it either fails to scan
    or is the whole literal. *)
Lemma scanValue_prefix_string raw p q :
  json.scanString (raw ++ [dquote]) = Some (raw, []) ->
  dquote :: raw ++ [dquote] = p ++ q ->
  json.scanValue p = Err SyntaxError \/ exists l, json.scanValue p = Ok (l, []).
Proof.
  intros Hs Hpq.
  destruct p as [|c p1]; [left; reflexivity|].
  cbn [app] in Hpq; injection Hpq as <- Hpq.
  cbn [json.scanValue]; rewrite byte_eqb_refl.
  destruct q as [|c q].
  - rewrite app_nil_r in Hpq; subst p1; rewrite Hs.
    right; eexists; reflexivity.
  - rewrite (scanString_prefix_None _ _ raw [] p1 (c :: q) (le_n _) Hs Hpq);
      [left; reflexivity|].
    apply (f_equal (@length byte)) in Hpq.
    rewrite !length_app in Hpq; cbn [length] in Hpq; lia.
Qed.

Lemma spanDigits_all ds :
  Forall (fun x => strconv.isDigit x = true) ds -> json.spanDigits ds = (ds, []).
Proof.
  induction 1 as [|x ds Hx _ IH]; cbn [json.spanDigits]; [reflexivity|].
  now rewrite Hx, IH.
Qed.

Lemma scanValue_digits_end sign h ds :
  (sign = [] \/ sign = ["-"]) ->
  strconv.isDigit h = true -> Byte.eqb h "0" = false ->
  Forall (fun x => strconv.isDigit x = true) ds ->
  json.scanValue (sign ++ h :: ds) = Ok (json.LNumber (sign ++ h :: ds), []).
Proof.
  intros Hsign Hh H0 Hds.
  assert (Hm : Byte.eqb h "-" = false).
  { destruct (Byte.eqb h "-") eqn:E; [|reflexivity].
    apply Byte.byte_dec_bl in E; subst h; discriminate Hh. }
  assert (Hq : Byte.eqb h dquote = false).
  { destruct (Byte.eqb h dquote) eqn:E; [|reflexivity].
    apply Byte.byte_dec_bl in E; subst h; discriminate Hh. }
  destruct Hsign; subst sign; cbn [app json.scanValue].
  - rewrite Hq, Hm, Hh; cbn [orb]; unfold json.scanNumber.
    rewrite Hm, H0, Hh, (spanDigits_all ds Hds).
    cbn; now rewrite app_nil_r.
  - change (Byte.eqb "-" dquote) with false; change (Byte.eqb "-" "-") with true.
    cbn [orb]; cbv iota; unfold json.scanNumber.
    change (Byte.eqb "-" "-") with true; cbv iota.
    rewrite H0, Hh, (spanDigits_all ds Hds).
    cbn; now rewrite app_nil_r.
Qed.

Lemma Forall_app_l {A : Type} (P : A -> Prop) l p q :
  Forall P l -> l = p ++ q -> Forall P p.
Proof. intros H ->; now apply Forall_app in H. Qed.

Lemma scanValue_prefix_digits sign h ds p q :
  (sign = [] \/ sign = ["-"]) ->
  strconv.isDigit h = true -> Byte.eqb h "0" = false ->
  Forall (fun x => strconv.isDigit x = true) ds ->
  sign ++ h :: ds = p ++ q ->
  json.scanValue p = Err SyntaxError \/ exists l, json.scanValue p = Ok (l, []).
Proof.
  intros Hsign Hh H0 Hds Hpq.
  destruct p as [|c p1]; [left; reflexivity|].
  destruct Hsign; subst sign; cbn [app] in Hpq; injection Hpq as <- Hpq.
  - right; eexists.
    apply (scanValue_digits_end [] h p1); auto.
    eapply Forall_app_l; eauto.
  - destruct p1 as [|c p2]; [left; reflexivity|].
    cbn [app] in Hpq; injection Hpq as <- Hpq.
    right; eexists.
    apply (scanValue_digits_end ["-"] h p2); auto.
    eapply Forall_app_l; eauto.
Qed.

(** What [encodeValue] wrote, cut anywhere: the cut either fails to scan or
    scans as one value with nothing after it. *)
Lemma scanValue_prefix v p q :
  json.encodeValue v = p ++ q ->
  json.scanValue p = Err SyntaxError \/ exists l, json.scanValue p = Ok (l, []).
Proof.
  destruct v as [s | [b|] | i]; cbn [json.encodeValue]; intros Hpq.
  - apply (scanValue_prefix_string (json.appendStringLoop (length s) s) p q);
      [apply scanString_appendStringLoop | exact Hpq].
  - apply (scanValue_prefix_string (base64.Encode b) p q); [|exact Hpq].
    rewrite scanString_plain by apply b64char_plain, Forall_b64char_Encode.
    now rewrite scanString_quote, app_nil_r.
  - change (list_byte_of_string "null") with ["n"; "u"; "l"; "l"] in Hpq.
    destruct p as [|c0 [|c1 [|c2 [|c3 [|c4 p]]]]]; cbn [app] in Hpq;
      inversion Hpq; subst;
      try (left; reflexivity); right; eexists; reflexivity.
  - unfold strconv.FormatInt in Hpq.
    destruct i as [|n|n]; cbn [Z.to_int] in Hpq.
    + destruct p as [|c0 [|c1 p]]; cbn [app] in Hpq;
        [left; reflexivity | | discriminate Hpq].
      vm_compute in Hpq; injection Hpq as <-.
      right; eexists; reflexivity.
    + destruct (bytes_of_uint_lead _ (to_uint_lead n)) as (h & ds & E & Hh & H0 & _).
      pose proof (bytes_of_uint_digits (Pos.to_uint n)) as F.
      rewrite E in *; inversion F; subst.
      apply (scanValue_prefix_digits [] h ds p q); auto.
    + destruct (bytes_of_uint_lead _ (to_uint_lead n)) as (h & ds & E & Hh & H0 & _).
      pose proof (bytes_of_uint_digits (Pos.to_uint n)) as F.
      rewrite E in *; inversion F; subst.
      apply (scanValue_prefix_digits ["-"] h ds p q); auto.
Qed.

Lemma skipSpace_prefix h rest p q :
  json.isSpace h = false -> h :: rest = p ++ q -> json.skipSpace p = p.
Proof.
  intros Hh Hpq; destruct p as [|c p]; [reflexivity|].
  cbn [app] in Hpq; injection Hpq as <- _.
  now apply skipSpace_head.
Qed.

(** The members of an object as [Marshal] wrote them, cut before the closing
    brace: a syntax error. *)
Lemma scanMembers_prefix fields : forall name v fuel p q,
  dquote :: json.appendStringLoop (length name) name
    ++ dquote :: ":" :: json.encodeValue v
    ++ (json.encodeFields "," fields ++ ["}"]) = p ++ q ->
  q <> [] ->
  json.scanMembers fuel p = Err SyntaxError.
Proof.
  induction fields as [|[name' v'] fields IH]; intros name v fuel p q Hpq Hq;
    (destruct fuel as [|fuel]; [reflexivity|]);
    (destruct p as [|c p1]; [reflexivity|]);
    rewrite ?encodeFields_cons_app in Hpq;
    cbn [app] in Hpq; injection Hpq as <- Hpq;
    cbn [json.scanMembers]; rewrite byte_eqb_refl;
    set (K := json.appendStringLoop (length name) name) in *;
    pose proof (scanString_appendStringLoop name) as HK; fold K in HK;
    change (K ++ dquote :: ":" :: json.encodeValue v ++ ?F)
      with (K ++ [dquote] ++ ":" :: json.encodeValue v ++ F) in Hpq;
    rewrite app_assoc in Hpq;
    apply app_eq_app in Hpq as (l & [[E1 E2] | [E1 E2]]).
  (* the last field *)
  - destruct l as [|c l].
    + rewrite app_nil_r in E1; subst p1.
      now rewrite HK.
    + rewrite (scanString_prefix_None _ (K ++ [dquote]) K [] p1 (c :: l) (le_n _));
        auto.
      apply (f_equal (@length byte)) in E1.
      rewrite !length_app in E1; cbn [length] in E1; lia.
  - subst p1; rewrite <- app_assoc; cbn [app]; rewrite HK.
    destruct l as [|c l2]; [reflexivity|].
    cbn [app] in E2; injection E2 as <- E2.
    cbn [json.skipSpace]; change (json.isSpace ":") with false; cbv iota.
    change (Byte.eqb ":" ":") with true; cbv iota.
    destruct (encodeValue_head v) as (h & rest & Eh & Hh).
    cbn [json.encodeFields app] in E2.
    apply app_eq_app in E2 as (l' & [[E3 E4] | [E3 E4]]).
    + rewrite Eh in E3.
      rewrite (skipSpace_prefix h rest l2 l') by assumption.
      rewrite <- Eh in E3.
      destruct (scanValue_prefix v l2 l' E3) as [-> | (lit & ->)]; reflexivity.
    + destruct l' as [|c l'].
      * rewrite app_nil_r in E3; subst l2.
        rewrite Eh, skipSpace_head, <- Eh by assumption.
        destruct (scanValue_prefix v (json.encodeValue v) []) as [-> | (lit & ->)];
          [now rewrite app_nil_r | reflexivity | reflexivity].
      * destruct l', q; try discriminate E4; contradiction.
  (* a field followed by another *)
  - destruct l as [|c l].
    + rewrite app_nil_r in E1; subst p1.
      now rewrite HK.
    + rewrite (scanString_prefix_None _ (K ++ [dquote]) K [] p1 (c :: l) (le_n _));
        auto.
      apply (f_equal (@length byte)) in E1.
      rewrite !length_app in E1; cbn [length] in E1; lia.
  - subst p1; rewrite <- app_assoc; cbn [app]; rewrite HK.
    destruct l as [|c l2]; [reflexivity|].
    cbn [app] in E2; injection E2 as <- E2.
    cbn [json.skipSpace]; change (json.isSpace ":") with false; cbv iota.
    change (Byte.eqb ":" ":") with true; cbv iota.
    destruct (encodeValue_head v) as (h & rest & Eh & Hh).
    apply app_eq_app in E2 as (l' & [[E3 E4] | [E3 E4]]).
    + rewrite Eh in E3.
      rewrite (skipSpace_prefix h rest l2 l') by assumption.
      rewrite <- Eh in E3.
      destruct (scanValue_prefix v l2 l' E3) as [-> | (lit & ->)]; reflexivity.
    + destruct l' as [|c l'].
      * rewrite app_nil_r in E3; subst l2.
        rewrite Eh, skipSpace_head, <- Eh by assumption.
        destruct (scanValue_prefix v (json.encodeValue v) []) as [-> | (lit & ->)];
          [now rewrite app_nil_r | reflexivity | reflexivity].
      * cbn [app] in E4; injection E4 as <- E4.
        subst l2.
        pose proof (scanValue_encodeValue_any v "," l' (or_introl eq_refl)) as Sv.
        rewrite Eh in *; cbn [app] in *.
        rewrite skipSpace_head by assumption.
        rewrite Sv; cbn [bind].
        rewrite (skipSpace_head ",") by reflexivity.
        change (Byte.eqb "," ",") with true; cbv iota.
        rewrite (skipSpace_prefix dquote _ l' q) by (reflexivity || exact E4).
        now rewrite (IH name' v' fuel l' q E4 Hq).
Qed.

(** What [Marshal] wrote for a struct with a field at least, cut anywhere
    before its end, is no JSON text. *)
Lemma scanText_Marshal_prefix f fields data (k : nat) :
  json.Marshal (f :: fields) = Ok data ->
  (k < length data)%nat ->
  json.scanText (firstn k data) = Err SyntaxError.
Proof.
  destruct f as [name v]; intros E Hk.
  cbn [json.Marshal] in E; apply Ok_inj in E.
  rewrite encodeFields_cons_app in E.
  assert (Hq : skipn k data <> []).
  { intros Hq; apply (f_equal (@length byte)) in Hq.
    rewrite length_skipn in Hq; cbn [length] in Hq; lia. }
  pose proof (eq_sym (firstn_skipn k data)) as Hpq.
  set (p := firstn k data) in *; set (q := skipn k data) in *; clearbody p q.
  rewrite <- E in Hpq; clear E Hk data.
  destruct p as [|c p]; [reflexivity|].
  cbn [app] in Hpq; injection Hpq as <- Hpq.
  unfold json.scanText.
  rewrite (skipSpace_head "{") by reflexivity.
  change (Byte.eqb "{" "{") with true; cbv iota.
  rewrite (skipSpace_prefix dquote _ p q eq_refl Hpq).
  destruct p as [|c p]; [reflexivity|].
  pose proof Hpq as Hc; cbn [app] in Hc; injection Hc as <- _.
  change (Byte.eqb dquote "}") with false; cbv iota.
  now rewrite (scanMembers_prefix fields name v _ (dquote :: p) q Hpq Hq).
Qed.

(** X19.  A text [ToJSON] wrote, cut anywhere before its end (the empty cut
    included), is refused by [RebornRequest] and [RebornResponse] with a
    syntax error: no truncated message decodes. *)
Theorem Reborn_truncated (req : Request.t) (res : Response.t)
    (jsonReq jsonRes : list byte) (k : nat) :
  Request.ToJSON req = Ok jsonReq -> (k < length jsonReq)%nat ->
  Response.ToJSON res = Ok jsonRes -> (k < length jsonRes)%nat ->
  RebornRequest (firstn k jsonReq) = Err SyntaxError /\
  RebornResponse (firstn k jsonRes) = Err SyntaxError.
Proof.
  intros E1 K1 E2 K2.
  assert (M1 : json.Marshal (Request.fields req) = Ok jsonReq)
    by (unfold Request.ToJSON in E1; now destruct (json.Marshal _)).
  assert (M2 : json.Marshal (Response.fields res) = Ok jsonRes)
    by (unfold Response.ToJSON in E2; now destruct (json.Marshal _)).
  unfold RebornRequest, RebornResponse, json.Unmarshal.
  unfold Request.fields in M1; unfold Response.fields in M2.
  rewrite (scanText_Marshal_prefix _ _ jsonReq k M1 K1).
  rewrite (scanText_Marshal_prefix _ _ jsonRes k M2 K2).
  split; reflexivity.
Qed.

Lemma Reborn_truncated_witness :
  let req := Request.mk (list_byte_of_string "alice")
                        (list_byte_of_string "IDENTITY") (Some [ByteDelim]) in
  let res := Response.mk 200 (list_byte_of_string "ACCEPT") None in
  let jsonReq := match Request.ToJSON req with Ok j => j | Err _ => [] end in
  let jsonRes := match Response.ToJSON res with Ok j => j | Err _ => [] end in
  Request.ToJSON req = Ok jsonReq /\ (40 < length jsonReq)%nat /\
  Response.ToJSON res = Ok jsonRes /\ (40 < length jsonRes)%nat /\
  RebornRequest (firstn 40 jsonReq) = Err SyntaxError /\
  RebornResponse (firstn 40 jsonRes) = Err SyntaxError.
Proof.
  cbv zeta.
  split; [reflexivity|].
  split; [vm_compute; repeat constructor|].
  split; [reflexivity|].
  split; [vm_compute; repeat constructor|].
  apply Reborn_truncated
    with (req := Request.mk (list_byte_of_string "alice")
                            (list_byte_of_string "IDENTITY") (Some [ByteDelim]))
         (res := Response.mk 200 (list_byte_of_string "ACCEPT") None);
    try reflexivity; vm_compute; repeat constructor.
Defined.

(** ** Keys in another letter case *)

Lemma bytes_eqb_eq a b : json.bytes_eqb a b = true -> a = b.
Proof.
  unfold json.bytes_eqb; now destruct (list_eq_dec Byte.byte_eq_dec a b).
Qed.

Lemma storeMember_at fields key v v' i n old :
  utf8_valid key -> json.findField key fields = Some i ->
  nth_error fields i = Some (n, old) ->
  lossy_value v v' -> same_kind v old ->
  json.storeMember fields (memberOf (key, v)) = Ok (json.setField i v' fields).
Proof.
  intros Hkey Hf Hn Hv Hk; unfold json.storeMember, memberOf; cbn [fst snd].
  rewrite (unquoteBytes_appendStringLoop key key) by now apply lossy_refl.
  rewrite Hf, Hn.
  now rewrite (literalStore_literalOf_lossy v v').
Qed.

Ltac not_this_field E H :=
  apply bytes_eqb_eq in E; subst; vm_compute in H; discriminate H.

Lemma findField_Request key a b c :
  (json.foldName key = json.foldName (list_byte_of_string "Username") ->
   json.findField key (Request.fields (Request.mk a b c)) = Some 0%nat) /\
  (json.foldName key = json.foldName (list_byte_of_string "DataType") ->
   json.findField key (Request.fields (Request.mk a b c)) = Some 1%nat) /\
  (json.foldName key = json.foldName (list_byte_of_string "Data") ->
   json.findField key (Request.fields (Request.mk a b c)) = Some 2%nat).
Proof.
  unfold json.findField, Request.fields; cbn [json.findIndex].
  repeat split; intros H;
    destruct (json.bytes_eqb key (list_byte_of_string "Username")) eqn:E1;
    try reflexivity; try (not_this_field E1 H);
    destruct (json.bytes_eqb key (list_byte_of_string "DataType")) eqn:E2;
    try reflexivity; try (not_this_field E2 H);
    destruct (json.bytes_eqb key (list_byte_of_string "Data")) eqn:E3;
    try reflexivity; try (not_this_field E3 H);
    rewrite H; reflexivity.
Qed.

(** X20.  [RebornRequest] matches the keys of the text with the field names
    without regard to the case of their letters: a text written with other
    keys, equal to [Username], [DataType] and [Data] up to case, decodes to
    what the text of [ToJSON] decodes to. *)
Theorem RebornRequest_key_case (req : Request.t) (k1 k2 k3 : list byte) :
  key_for k1 "Username" -> key_for k2 "DataType" -> key_for k3 "Data" ->
  (text <- json.Marshal [ (k1, json.String_ (Request.Username req));
                          (k2, json.String_ (Request.DataType req));
                          (k3, json.Bytes (Request.Data req)) ] ;;
   RebornRequest text)
  = (jsonStr <- Request.ToJSON req ;; RebornRequest jsonStr).
Proof.
  intros [V1 F1] [V2 F2] [V3 F3].
  apply utf8_Valid_sound in V1, V2, V3.
  destruct (lossy_total (Request.Username req)) as (u' & Hu).
  destruct (lossy_total (Request.DataType req)) as (d' & Hd).
  destruct (RebornRequest_ToJSON_tail req u' d' [] Hu Hd) as (j & -> & R).
  rewrite app_nil_r in R; cbn [bind forallb] in *; rewrite R.
  destruct (scanText_Marshal_tail
              [ (k1, json.String_ (Request.Username req));
                (k2, json.String_ (Request.DataType req));
                (k3, json.Bytes (Request.Data req)) ] [])
    as (data & -> & Hscan).
  rewrite app_nil_r in Hscan; cbn [bind json.skipSpace] in *.
  unfold RebornRequest, json.Unmarshal; rewrite Hscan.
  cbn [bind map json.storeMembers].
  rewrite (storeMember_at _ k1 _ (json.String_ u') 0
             (list_byte_of_string "Username") (json.String_ []));
    [ | assumption | now apply findField_Request | reflexivity | exact Hu | exact I ].
  cbn [bind]; unfold Request.fields, Request.zero;
    cbn [Request.Username Request.DataType Request.Data json.setField].
  rewrite (storeMember_at _ k2 _ (json.String_ d') 1
             (list_byte_of_string "DataType") (json.String_ []));
    [ | assumption
      | now apply (findField_Request k2 u' [] None)
      | reflexivity | exact Hd | exact I ].
  cbn [bind json.setField].
  rewrite (storeMember_at _ k3 _ (json.Bytes (Request.Data req)) 2
             (list_byte_of_string "Data") (json.Bytes None));
    [ | assumption
      | now apply (findField_Request k3 u' d' None)
      | reflexivity | reflexivity | exact I ].
  reflexivity.
Qed.

Lemma RebornRequest_key_case_witness :
  let req := Request.mk (list_byte_of_string "alice")
                        (list_byte_of_string "FILE") (Some [ByteDelim]) in
  let k1 := list_byte_of_string "username" in
  let k2 := list_byte_of_string "DATATYPE" in
  let k3 := list_byte_of_string "data" in
  key_for k1 "Username" /\ key_for k2 "DataType" /\ key_for k3 "Data" /\
  (text <- json.Marshal [ (k1, json.String_ (Request.Username req));
                          (k2, json.String_ (Request.DataType req));
                          (k3, json.Bytes (Request.Data req)) ] ;;
   RebornRequest text)
  = (jsonStr <- Request.ToJSON req ;; RebornRequest jsonStr).
Proof.
  assert (K1 : key_for (list_byte_of_string "username") "Username")
    by (split; vm_compute; reflexivity).
  assert (K2 : key_for (list_byte_of_string "DATATYPE") "DataType")
    by (split; vm_compute; reflexivity).
  assert (K3 : key_for (list_byte_of_string "data") "Data")
    by (split; vm_compute; reflexivity).
  cbv zeta.
  split; [exact K1 | split; [exact K2 | split; [exact K3|]]].
  exact (RebornRequest_key_case
           (Request.mk (list_byte_of_string "alice")
                       (list_byte_of_string "FILE") (Some [ByteDelim]))
           _ _ _ K1 K2 K3).
Defined.

(** ** Members of the wrong type *)



(** ** From a request to the wire and back *)

Lemma wire_packet_of size data l :
  map RebornPacket (map ToBytes (map (packet_of size data) l))
  = map (packet_of size data) l.
Proof.
  rewrite !map_map; apply map_ext; intros k.
  apply RebornPacket_ToBytes, packet_of_typed.
Qed.

(** X22.  The whole way of a request: its text, cut into packets by
    [Serialize], each packet sent as the bytes of [ToBytes] and rebuilt by
    [RebornPacket], the packets joined by [Deserialize], and the buffer cut
    back to the length of the text, decodes to the request. *)
Theorem request_over_the_wire (req : Request.t) (jsonStr : list byte) :
  utf8.Valid (Request.Username req) = true ->
  utf8.Valid (Request.DataType req) = true ->
  Request.ToJSON req = Ok jsonStr ->
  len jsonStr < 2 ^ 53 ->
  exists packets buf,
    Serialize jsonStr = Ok packets /\
    Deserialize (map RebornPacket (map ToBytes packets)) = Ok buf /\
    RebornRequest (firstn (length jsonStr) buf) = Ok req.
Proof.
  intros Vu Vd E L.
  pose proof PacketDataSize_pos as Hd.
  destruct (ceil_div_bracket (length jsonStr) PacketDataSize Hd) as [B1 B2].
  eexists; eexists; split; [now apply Serialize_spec|].
  rewrite wire_packet_of.
  rewrite Deserialize_spec by apply Forall_packet_of.
  rewrite map_Data_packet_of; unfold chunk.
  rewrite concat_pad_chunks by assumption.
  split; [reflexivity|].
  rewrite firstn_app, firstn_all, Nat.sub_diag; cbn [firstn]; rewrite app_nil_r.
  apply utf8_Valid_sound in Vu, Vd.
  destruct (RebornRequest_ToJSON_tail req _ _ [] (lossy_refl _ Vu) (lossy_refl _ Vd))
    as (j & Ej & R).
  rewrite E in Ej; apply Ok_inj in Ej; subst j.
  rewrite app_nil_r in R; cbn [forallb] in R; rewrite R.
  now destruct req.
Qed.

Lemma request_over_the_wire_witness :
  let req := Request.mk (list_byte_of_string "alice")
                        (list_byte_of_string "FILE") (Some (zeros 2000)) in
  let jsonStr := match Request.ToJSON req with Ok j => j | Err _ => [] end in
  utf8.Valid (Request.Username req) = true /\
  utf8.Valid (Request.DataType req) = true /\
  Request.ToJSON req = Ok jsonStr /\
  len jsonStr < 2 ^ 53 /\
  exists packets buf,
    Serialize jsonStr = Ok packets /\
    Deserialize (map RebornPacket (map ToBytes packets)) = Ok buf /\
    RebornRequest (firstn (length jsonStr) buf) = Ok req.
Proof.
  cbv zeta.
  split; [vm_compute; reflexivity|].
  split; [vm_compute; reflexivity|].
  split; [reflexivity|].
  split; [vm_compute; reflexivity|].
  apply request_over_the_wire; vm_compute; reflexivity.
Defined.

(** ** The text determines the envelope *)

Lemma RebornRequest_ToJSON_valid req :
  utf8.Valid (Request.Username req) = true ->
  utf8.Valid (Request.DataType req) = true ->
  exists jsonStr, Request.ToJSON req = Ok jsonStr /\ RebornRequest jsonStr = Ok req.
Proof.
  intros Vu Vd; apply utf8_Valid_sound in Vu, Vd.
  destruct (RebornRequest_ToJSON_tail req _ _ [] (lossy_refl _ Vu) (lossy_refl _ Vd))
    as (j & Ej & R).
  rewrite app_nil_r in R; cbn [forallb] in R.
  exists j; split; [exact Ej | rewrite R; now destruct req].
Qed.

Lemma RebornResponse_ToJSON_valid res :
  utf8.Valid (Response.Message res) = true ->
  - 2 ^ 63 <= Response.Status res < 2 ^ 63 ->
  exists jsonStr, Response.ToJSON res = Ok jsonStr /\ RebornResponse jsonStr = Ok res.
Proof.
  intros Vm Hs; apply utf8_Valid_sound in Vm.
  destruct (RebornResponse_ToJSON_tail res _ [] Hs (lossy_refl _ Vm)) as (j & Ej & R).
  rewrite app_nil_r in R; cbn [forallb] in R.
  exists j; split; [exact Ej | rewrite R; now destruct res].
Qed.

(** X23.  [ToJSON] writes different texts for different envelopes, as long
    as their strings are valid UTF-8: two requests, or two responses, with
    the same text are equal. *)
Theorem ToJSON_injective (req req' : Request.t) (res res' : Response.t) :
  utf8.Valid (Request.Username req) = true ->
  utf8.Valid (Request.DataType req) = true ->
  utf8.Valid (Request.Username req') = true ->
  utf8.Valid (Request.DataType req') = true ->
  utf8.Valid (Response.Message res) = true ->
  - 2 ^ 63 <= Response.Status res < 2 ^ 63 ->
  utf8.Valid (Response.Message res') = true ->
  - 2 ^ 63 <= Response.Status res' < 2 ^ 63 ->
  (Request.ToJSON req = Request.ToJSON req' -> req = req') /\
  (Response.ToJSON res = Response.ToJSON res' -> res = res').
Proof.
  intros Vu Vd Vu' Vd' Vm Hs Vm' Hs'; split; intros E.
  - destruct (RebornRequest_ToJSON_valid req Vu Vd) as (j & Ej & R).
    destruct (RebornRequest_ToJSON_valid req' Vu' Vd') as (j' & Ej' & R').
    rewrite Ej, Ej' in E; apply Ok_inj in E; subst j'.
    rewrite R in R'; now apply Ok_inj in R'.
  - destruct (RebornResponse_ToJSON_valid res Vm Hs) as (j & Ej & R).
    destruct (RebornResponse_ToJSON_valid res' Vm' Hs') as (j' & Ej' & R').
    rewrite Ej, Ej' in E; apply Ok_inj in E; subst j'.
    rewrite R in R'; now apply Ok_inj in R'.
Qed.

Lemma ToJSON_injective_witness :
  let req := Request.mk (list_byte_of_string "alice")
                        (list_byte_of_string "FILE") None in
  let req' := Request.mk (list_byte_of_string "alice")
                         (list_byte_of_string "FILE") (Some []) in
  let res := Response.mk 200 (list_byte_of_string "ACCEPT") None in
  let res' := Response.mk 400 (list_byte_of_string "DENY") None in
  utf8.Valid (Request.Username req) = true /\
  utf8.Valid (Request.DataType req) = true /\
  utf8.Valid (Request.Username req') = true /\
  utf8.Valid (Request.DataType req') = true /\
  utf8.Valid (Response.Message res) = true /\
  - 2 ^ 63 <= Response.Status res < 2 ^ 63 /\
  utf8.Valid (Response.Message res') = true /\
  - 2 ^ 63 <= Response.Status res' < 2 ^ 63 /\
  (Request.ToJSON req = Request.ToJSON req' -> req = req') /\
  (Response.ToJSON res = Response.ToJSON res' -> res = res').
Proof.
  cbv zeta.
  assert (R1 : - 2 ^ 63 <= 200 < 2 ^ 63) by (split; [discriminate | reflexivity]).
  assert (R2 : - 2 ^ 63 <= 400 < 2 ^ 63) by (split; [discriminate | reflexivity]).
  do 5 (split; [vm_compute; reflexivity|]).
  split; [exact R1|].
  split; [vm_compute; reflexivity|].
  split; [exact R2|].
  apply ToJSON_injective; try (vm_compute; reflexivity); assumption.
Defined.

(** * Further properties: the [String] methods *)

Lemma split_at_first {A : Type} (c : A) : forall u1 u2 r1 r2,
  ~ In c u1 -> ~ In c u2 ->
  u1 ++ c :: r1 = u2 ++ c :: r2 -> u1 = u2 /\ r1 = r2.
Proof.
  induction u1 as [|x u1 IH]; intros [|y u2] r1 r2 H1 H2 E; cbn [app] in E.
  - injection E as ->; auto.
  - injection E as <- _; exfalso; apply H2; now left.
  - injection E as -> _; exfalso; apply H1; now left.
  - injection E as -> E.
    destruct (IH u2 r1 r2) as [-> ->]; auto;
      intros Hin; [apply H1 | apply H2]; now right.
Qed.

Lemma Sprintf_v_inj label a b r1 r2 :
  ~ In Byte.x0a a -> ~ In Byte.x0a b ->
  Sprintf_v label a ++ r1 = Sprintf_v label b ++ r2 -> a = b /\ r1 = r2.
Proof.
  unfold Sprintf_v; intros Ha Hb E.
  rewrite <- !app_assoc in E; apply app_inv_head in E.
  cbn [app] in E.
  now apply (split_at_first Byte.x0a).
Qed.

Lemma Sprintf_v_last_inj label a b :
  Sprintf_v label a = Sprintf_v label b -> a = b.
Proof.
  unfold Sprintf_v; intros E.
  apply app_inv_head in E.
  now apply app_inv_tail in E.
Qed.

(** X24.  The rendering of a [Request] by [String] tells the requests
    apart, up to the difference between a nil and an empty [Data], as long
    as [Username] and [DataType] hold no line feed; the rendering of an
    [IdentityRequest] always does. *)
Theorem Request_String_unambiguous (r1 r2 : Request.t) (i1 i2 : IdentityRequest.t) :
  ~ In Byte.x0a (Request.Username r1) -> ~ In Byte.x0a (Request.DataType r1) ->
  ~ In Byte.x0a (Request.Username r2) -> ~ In Byte.x0a (Request.DataType r2) ->
  (Request_String r1 = Request_String r2 <->
   Request.Username r1 = Request.Username r2 /\
   Request.DataType r1 = Request.DataType r2 /\
   string_of_bytes (Request.Data r1) = string_of_bytes (Request.Data r2)) /\
  (IdentityRequest.String i1 = IdentityRequest.String i2 <-> i1 = i2).
Proof.
  intros U1 D1 U2 D2; split; split.
  - unfold Request_String; cbv zeta; rewrite <- !app_assoc; intros E.
    apply Sprintf_v_inj in E as [Eu E]; auto.
    apply Sprintf_v_inj in E as [Ed E]; auto.
    apply Sprintf_v_last_inj in E; auto.
  - intros (Eu & Ed & Eb); unfold Request_String; now rewrite Eu, Ed, Eb.
  - unfold IdentityRequest.String; intros E.
    apply Sprintf_v_last_inj in E.
    destruct i1, i2; cbn [IdentityRequest.Username] in E; now subst.
  - now intros ->.
Qed.

Lemma Request_String_unambiguous_witness :
  let r1 := Request.mk (list_byte_of_string "alice")
                       (list_byte_of_string "FILE") None in
  let r2 := Request.mk (list_byte_of_string "alice")
                       (list_byte_of_string "FILE") (Some []) in
  let i1 := IdentityRequest.mk (list_byte_of_string "alice") in
  let i2 := IdentityRequest.mk (list_byte_of_string "bob") in
  ~ In Byte.x0a (Request.Username r1) /\ ~ In Byte.x0a (Request.DataType r1) /\
  ~ In Byte.x0a (Request.Username r2) /\ ~ In Byte.x0a (Request.DataType r2) /\
  (Request_String r1 = Request_String r2 <->
   Request.Username r1 = Request.Username r2 /\
   Request.DataType r1 = Request.DataType r2 /\
   string_of_bytes (Request.Data r1) = string_of_bytes (Request.Data r2)) /\
  (IdentityRequest.String i1 = IdentityRequest.String i2 <-> i1 = i2).
Proof.
  assert (U : ~ In Byte.x0a (list_byte_of_string "alice"))
    by (cbn; intuition discriminate).
  assert (D : ~ In Byte.x0a (list_byte_of_string "FILE"))
    by (cbn; intuition discriminate).
  cbv zeta.
  split; [exact U | split; [exact D | split; [exact U | split; [exact D|]]]].
  exact (Request_String_unambiguous
           (Request.mk (list_byte_of_string "alice") (list_byte_of_string "FILE") None)
           (Request.mk (list_byte_of_string "alice") (list_byte_of_string "FILE")
                       (Some []))
           (IdentityRequest.mk (list_byte_of_string "alice"))
           (IdentityRequest.mk (list_byte_of_string "bob")) U D U D).
Defined.

Lemma bytes_of_uint_inj : forall d d',
  strconv.bytes_of_uint d = strconv.bytes_of_uint d' -> d = d'.
Proof.
  induction d; destruct d'; cbn [strconv.bytes_of_uint]; intros E;
    try discriminate E; try reflexivity;
    injection E as E; f_equal; auto.
Qed.

Lemma bytes_of_uint_no_minus d rest : strconv.bytes_of_uint d <> "-" :: rest.
Proof. destruct d; cbn [strconv.bytes_of_uint]; discriminate. Qed.

Lemma FormatInt_inj i j : strconv.FormatInt i = strconv.FormatInt j -> i = j.
Proof.
  unfold strconv.FormatInt; intros E.
  rewrite <- (DecimalZ.of_to i), <- (DecimalZ.of_to j).
  destruct (Z.to_int i) as [d|d], (Z.to_int j) as [d'|d'].
  - now rewrite (bytes_of_uint_inj _ _ E).
  - exfalso; exact (bytes_of_uint_no_minus _ _ E).
  - exfalso; exact (bytes_of_uint_no_minus _ _ (eq_sym E)).
  - injection E as E; now rewrite (bytes_of_uint_inj _ _ E).
Qed.

Lemma FormatInt_no_LF i : ~ In Byte.x0a (strconv.FormatInt i).
Proof.
  unfold strconv.FormatInt; intros Hin.
  assert (D : forall d, ~ In Byte.x0a (strconv.bytes_of_uint d)).
  { intros d H.
    pose proof (proj1 (Forall_forall _ _) (bytes_of_uint_digits d) _ H) as E.
    discriminate E. }
  destruct (Z.to_int i) as [d|d].
  - exact (D d Hin).
  - destruct Hin as [E|Hin]; [discriminate E | exact (D d Hin)].
Qed.

(** X25.  The rendering of a [Response] by [String] tells the responses
    apart, up to the difference between a nil and an empty [Data], as long
    as [Message] holds no line feed. *)
Theorem Response_String_unambiguous (r1 r2 : Response.t) :
  ~ In Byte.x0a (Response.Message r1) -> ~ In Byte.x0a (Response.Message r2) ->
  (Response_String r1 = Response_String r2 <->
   Response.Status r1 = Response.Status r2 /\
   Response.Message r1 = Response.Message r2 /\
   string_of_bytes (Response.Data r1) = string_of_bytes (Response.Data r2)).
Proof.
  intros M1 M2; split.
  - unfold Response_String; cbv zeta; rewrite <- !app_assoc; intros E.
    apply Sprintf_v_inj in E as [Es E]; auto using FormatInt_no_LF.
    apply Sprintf_v_inj in E as [Em E]; auto.
    apply Sprintf_v_last_inj in E; auto using FormatInt_inj.
  - intros (Es & Em & Eb); unfold Response_String; now rewrite Es, Em, Eb.
Qed.

Lemma Response_String_unambiguous_witness :
  let r1 := Response.mk 200 (list_byte_of_string "ACCEPT") None in
  let r2 := Response.mk 400 (list_byte_of_string "DENY") None in
  ~ In Byte.x0a (Response.Message r1) /\ ~ In Byte.x0a (Response.Message r2) /\
  (Response_String r1 = Response_String r2 <->
   Response.Status r1 = Response.Status r2 /\
   Response.Message r1 = Response.Message r2 /\
   string_of_bytes (Response.Data r1) = string_of_bytes (Response.Data r2)).
Proof.
  assert (M1 : ~ In Byte.x0a (list_byte_of_string "ACCEPT"))
    by (cbn; intuition discriminate).
  assert (M2 : ~ In Byte.x0a (list_byte_of_string "DENY"))
    by (cbn; intuition discriminate).
  cbv zeta.
  split; [exact M1 | split; [exact M2|]].
  exact (Response_String_unambiguous
           (Response.mk 200 (list_byte_of_string "ACCEPT") None)
           (Response.mk 400 (list_byte_of_string "DENY") None) M1 M2).
Defined.

(** * Further properties: the logger *)

Lemma IndexByte_None s c : strings.IndexByte s c = None -> ~ In c s.
Proof.
  induction s as [|x s IH]; cbn [strings.IndexByte In]; [tauto|].
  destruct (Byte.eqb x c) eqn:E; [discriminate|].
  destruct (strings.IndexByte s c); [discriminate|].
  intros _ [->|H]; [now rewrite byte_eqb_refl in E | now apply IH].
Qed.

Lemma IndexByte_Some s c : forall m,
  strings.IndexByte s c = Some m ->
  s = firstn m s ++ c :: skipn (m + 1) s /\
  strings.Count s c = S (strings.Count (skipn (m + 1) s) c).
Proof.
  induction s as [|x s IH]; intros m; cbn [strings.IndexByte strings.Count];
    [discriminate|].
  destruct (Byte.eqb x c) eqn:E.
  - intros [= <-]; apply Byte.byte_dec_bl in E; subst x.
    cbn [firstn skipn Nat.add app]; auto.
  - destruct (strings.IndexByte s c) as [i|]; [|discriminate].
    intros [= <-]; destruct (IH i eq_refl) as [Es Ec].
    cbn [firstn skipn Nat.add app]; split; [now rewrite <- Es | exact Ec].
Qed.

Lemma Count_0 s c : strings.Count s c = 0%nat -> ~ In c s.
Proof.
  induction s as [|x s IH]; cbn [strings.Count In]; [tauto|].
  destruct (Byte.eqb x c) eqn:E; [discriminate|].
  intros H [->|Hin]; [now rewrite byte_eqb_refl in E | now apply IH].
Qed.

(** The last element [Split] returns: what follows the last separator. *)
Lemma genSplit_loop_last c : forall n s,
  strings.Count s c = n ->
  exists init file dir,
    strings.genSplit_loop n s c = init ++ [file] /\
    s = dir ++ file /\ ~ In c file /\
    (dir = [] \/ exists d, dir = d ++ [c]).
Proof.
  induction n as [|n IH]; intros s Hn; cbn [strings.genSplit_loop].
  - exists [], s, []; repeat split; auto using Count_0.
  - destruct (strings.IndexByte s c) as [m|] eqn:E.
    + destruct (IndexByte_Some s c m E) as [Es Ec].
      rewrite Hn in Ec; injection Ec as Ec.
      destruct (IH (skipn (m + 1) s) (eq_sym Ec)) as (init & file & dir & E1 & E2 & E3 & E4).
      exists (firstn m s :: init), file, (firstn m s ++ c :: dir).
      rewrite E1; repeat split; auto.
      * rewrite <- app_assoc; cbn [app]; now rewrite <- E2.
      * right; destruct E4 as [->|(d & ->)].
        -- exists (firstn m s); reflexivity.
        -- exists (firstn m s ++ c :: d); now rewrite <- app_assoc.
    + exists [], s, []; repeat split; auto using IndexByte_None.
Qed.

Lemma index_last (init : list (list byte)) file :
  index (init ++ [file]) (len (init ++ [file]) - 1) = Some file.
Proof.
  unfold index, len; rewrite length_app; cbn [length].
  replace (Z.of_nat (length init + 1) - 1) with (Z.of_nat (length init)) by lia.
  rewrite Nat2Z.id, nth_error_app2, Nat.sub_diag by lia; cbn [nth_error].
  destruct (Z.leb_spec 0 (Z.of_nat (length init))); [|lia].
  destruct (Z.ltb_spec (Z.of_nat (length init)) (Z.of_nat (length init + 1))); [|lia].
  reflexivity.
Qed.

(** X26.  No [Log] method panics, whatever path the run time reports for
    the caller.  A level that is switched off writes nothing.  One that is
    on makes one call of [Printf], with the operands [v] as they are and the
    format behind the level, the file name of the caller and its line: the
    file name is what follows the last [/] of the path.  [LogError] then
    prints the stack.  [LogDebug] writes through the info logger. *)
Theorem Log_events (V : Type) (l : Logger) (path : list byte) (line : Z)
    (format : list byte) (v : list V) :
  exists dir file,
    path = dir ++ file /\ ~ In "/" file /\
    (dir = [] \/ exists d, dir = d ++ ["/"]) /\
    let msg (level : string) :=
      list_byte_of_string level ++ file ++ list_byte_of_string " "
        ++ strconv.FormatInt line ++ list_byte_of_string ": " ++ format in
    LogError V l (path, line) format v
    = Some (if doLogError l
            then [Printf (errorLogger l) (msg "error "%string) v; PrintStack] else []) /\
    LogInfo V l (path, line) format v
    = Some (if doLogInfo l then [Printf (infoLogger l) (msg "info "%string) v] else []) /\
    LogDebug V l (path, line) format v
    = Some (if doLogDebug l then [Printf (infoLogger l) (msg "debug "%string) v] else []) /\
    LogVerbose V l (path, line) format v
    = Some (if doLogVerbose l
            then [Printf (verboseLogger l) (msg "verbose "%string) v] else []).
Proof.
  destruct (genSplit_loop_last "/" _ path eq_refl)
    as (init & file & dir & E1 & E2 & E3 & E4).
  exists dir, file; repeat split; auto;
    unfold LogError, LogInfo, LogDebug, LogVerbose, strings.Split, Itoa;
    rewrite E1, index_last;
    destruct v; cbn [len length negb Z.eqb Z.of_nat];
    match goal with
    | |- context [if ?b then _ else _] => destruct b
    end; reflexivity.
Qed.

(** X27.  The argument [prefix] of [NewLogger] is not used.  Whatever it
    is, a logger made by [NewLogger] writes through loggers with the prefix
    ["syncbox: "] and the standard flags: errors to [os.Stderr], the three
    other levels to [os.Stdout], each level only if it was switched on.
    [NewDefaultLogger] is that logger with info, error and debug on and
    verbose off. *)
Theorem NewLogger_events (V : Type) (prefix : list byte)
    (logInfo logError logDebug logVerbose : bool)
    (path : list byte) (line : Z) (format : list byte) (v : list V) :
  exists dir file,
    path = dir ++ file /\ ~ In "/" file /\
    (dir = [] \/ exists d, dir = d ++ ["/"]) /\
    let l := NewLogger prefix logInfo logError logDebug logVerbose in
    let std := log.New log.Stdout (list_byte_of_string "syncbox: ") 3 in
    let err := log.New log.Stderr (list_byte_of_string "syncbox: ") 3 in
    let msg (level : string) :=
      list_byte_of_string level ++ file ++ list_byte_of_string " "
        ++ strconv.FormatInt line ++ list_byte_of_string ": " ++ format in
    LogError V l (path, line) format v
    = Some (if logError then [Printf err (msg "error "%string) v; PrintStack]
            else []) /\
    LogInfo V l (path, line) format v
    = Some (if logInfo then [Printf std (msg "info "%string) v] else []) /\
    LogDebug V l (path, line) format v
    = Some (if logDebug then [Printf std (msg "debug "%string) v] else []) /\
    LogVerbose V l (path, line) format v
    = Some (if logVerbose then [Printf std (msg "verbose "%string) v] else []) /\
    NewDefaultLogger = NewLogger prefix true true true false.
Proof.
  destruct (genSplit_loop_last "/" _ path eq_refl)
    as (init & file & dir & E1 & E2 & E3 & E4).
  exists dir, file; repeat split; auto;
    unfold LogError, LogInfo, LogDebug, LogVerbose, strings.Split, Itoa;
    rewrite E1, index_last;
    destruct v; cbn [len length negb Z.eqb Z.of_nat];
    cbn [NewLogger doLogError doLogInfo doLogDebug doLogVerbose
         errorLogger infoLogger verboseLogger];
    match goal with
    | |- context [if ?b then _ else _] => destruct b
    end; reflexivity.
Qed.
